(** * AffineInstructionSet: thread-invariance and affine classification

    A shallow embedding of
    [ocelot/analysis/implementation/AffineInstructionSet.cpp]: the store of
    four value sets, the constructor that seeds it, the cast-stripping
    [_walk], and the two memoised recursive queries [isThreadInvariant] and
    [isAffine] with the binary-operator matcher [_isBinaryOperatorAffine].

    LLVM values are compared by pointer identity; a value is modelled by its
    address, and the instruction graph by a function from addresses to the
    node found there. *)

From stdpp Require Import base decidable option list gmap sets.
From Stdlib Require Import ZArith Lia.


(** ** The value graph (LLVM side) *)

Definition Value := nat.

(** [llvm::Instruction::CastOps]. *)
Inductive CastOps :=
  | Trunc | ZExt | SExt | FPToUI | FPToSI | UIToFP | SIToFP
  | FPTrunc | FPExt | PtrToInt | IntToPtr | BitCast.

(** [llvm::Instruction::BinaryOps]. *)
Inductive BinaryOps :=
  | Add | FAdd | Sub | FSub | Mul | FMul | UDiv | SDiv | FDiv
  | URem | SRem | FRem | Shl | LShr | AShr | And | Or | Xor.

(** The part of the LLVM class hierarchy that the analysis tells apart with
    [dyn_cast]: constants (a [ConstantInt] carries the unsigned value of its
    [APInt]), unary instructions (casts, loads, the rest), binary operators,
    and everything else (arguments, phi nodes, calls, ...).  A cast records
    whether its source and destination types are integer types, which is
    what [CastInst::isIntegerCast] inspects for a [BitCast]. *)
Inductive ValueKind :=
  | ConstantInt (val : Z)
  | OtherConstant
  | CastInst (opc : CastOps) (srcIsInt dstIsInt : bool) (operand : Value)
  | LoadInst (pointerOperand : Value)
  | OtherUnary (operand : Value)
  | BinaryOperator (opc : BinaryOps) (operand0 operand1 : Value)
  | OtherValue.

Definition Graph := Value → ValueKind.

#[global] Instance CastOps_eq_dec : EqDecision CastOps.
Proof. solve_decision. Defined.
#[global] Instance BinaryOps_eq_dec : EqDecision BinaryOps.
Proof. solve_decision. Defined.

(** [CastInst::isIntegerCast]. *)
Definition isIntegerCast (opc : CastOps) (srcIsInt dstIsInt : bool) : bool :=
  match opc with
  | ZExt | SExt | Trunc => true
  | BitCast => srcIsInt && dstIsInt
  | _ => false
  end.

(** The test of [_walk]:
    [cast->isIntegerCast() || PtrToIntInst::classof(value) ||
     IntToPtrInst::classof(value)]. *)
Definition isTransparentCast (opc : CastOps) (srcIsInt dstIsInt : bool) : bool :=
  isIntegerCast opc srcIsInt dstIsInt
  || bool_decide (opc = PtrToInt) || bool_decide (opc = IntToPtr).

(** The operands the analysis can follow from a node. *)
Definition operands (k : ValueKind) : list Value :=
  match k with
  | CastInst _ _ _ o | LoadInst o | OtherUnary o => [o]
  | BinaryOperator _ a b => [a; b]
  | _ => []
  end.

(** A graph is ranked by [rank] when every operand has a smaller rank than
    its user, as the depth of a value in an acyclic graph does. *)
Definition ranked (g : Graph) (rank : Value → nat) : Prop :=
  ∀ v o, o ∈ operands (g v) → rank o < rank v.

(** ** The classification store *)

Record AffineInstructionSet := mkStore {
  _invariantValues : gset Value;
  _affineValues : gset Value;
  _variantValues : gset Value;
  _threadIds : gset Value
}.

Definition emptyStore : AffineInstructionSet := mkStore ∅ ∅ ∅ ∅.

Definition _setAffine (s : AffineInstructionSet) (value : Value)
  : bool * AffineInstructionSet :=
  (true, mkStore (_invariantValues s) ({[value]} ∪ _affineValues s)
                 (_variantValues s) (_threadIds s)).

Definition _setInvariant (s : AffineInstructionSet) (value : Value)
  : bool * AffineInstructionSet :=
  (true, mkStore ({[value]} ∪ _invariantValues s) (_affineValues s)
                 (_variantValues s) (_threadIds s)).

Definition _setVariant (s : AffineInstructionSet) (value : Value)
  : bool * AffineInstructionSet :=
  (false, mkStore (_invariantValues s) (_affineValues s)
                  ({[value]} ∪ _variantValues s) (_threadIds s)).

(** ** The constructor *)

(** Modelled from the spec: the header declaring
    [LLVMUniformVectorization::ThreadLocalArgument] is not part of the
    sources at hand.  Its value members are the thread-index, block-dimension,
    block-index and grid-dimension components and the pointer to the
    thread-descriptor block; [threadIdUses] counts the thread-index
    components the kernel references. *)
Inductive ThreadLocalField :=
  | threadId_x | threadId_y | threadId_z
  | blockDim_x | blockDim_y | blockDim_z
  | blockId_x | blockId_y | blockId_z
  | gridDim_x | gridDim_y | gridDim_z
  | ptrThreadDescriptorArray.

#[global] Instance ThreadLocalField_eq_dec : EqDecision ThreadLocalField.
Proof. solve_decision. Defined.

Record ThreadLocalArgument := mkThreadLocalArgument {
  member : ThreadLocalField → Value;
  threadIdUses : Z
}.

(** The two static tables the constructor reads,
    [ThreadLocalArgumentInstances] (member pointers) and
    [ThreadLocalArgumentVarianceMap] (one flag per entry, [true] for a member
    that varies per thread).  They are defined elsewhere and are taken as
    parameters; reading past the end of either array has no defined result. *)
Record VarianceTables := mkTables {
  ThreadLocalArgumentInstances : list ThreadLocalField;
  ThreadLocalArgumentVarianceMap : list bool
}.

(** The first loop of the constructor, on the entries from index [i] on:
    it runs until the entry that designates [ptrThreadDescriptorArray]. *)
Fixpoint seedArguments (varianceMap : list bool)
    (threadArguments : ThreadLocalArgument)
    (instances : list ThreadLocalField) (i : nat)
    (s : AffineInstructionSet) : option AffineInstructionSet :=
  match instances with
  | [] => None
  | f :: rest =>
      if decide (f = ptrThreadDescriptorArray) then Some s
      else match varianceMap !! i with
           | None => None
           | Some true => seedArguments varianceMap threadArguments rest (S i) s
           | Some false =>
               seedArguments varianceMap threadArguments rest (S i)
                 (snd (_setInvariant s (member threadArguments f)))
           end
  end.

(** The loop over the globals of the module. *)
Definition seedGlobals (globals : list Value) (s : AffineInstructionSet)
  : AffineInstructionSet :=
  foldl (λ s g, snd (_setInvariant s g)) s globals.

(** [AffineInstructionSet::AffineInstructionSet(function, threadArguments)];
    [globals] is the global list of [function->getParent()]. *)
Definition AffineInstructionSet_ctor (tables : VarianceTables)
    (globals : list Value) (threadArguments : ThreadLocalArgument)
  : option AffineInstructionSet :=
  s1 ← seedArguments (ThreadLocalArgumentVarianceMap tables) threadArguments
         (ThreadLocalArgumentInstances tables) 0 emptyStore;
  let s2 :=
    if decide (threadIdUses threadArguments = 1%Z)
    then mkStore (_invariantValues s1) (_affineValues s1) (_variantValues s1)
                 ({[member threadArguments threadId_x]} ∪ _threadIds s1)
    else s1 in
  Some (seedGlobals globals s2).

(** ** Canonicalisation and the two queries *)

Section Engine.
Variable g : Graph.

(** [_walk]: each iteration of the [do ... while] loop spends one unit of
    fuel; [None] is the loop that has not finished. *)
Fixpoint _walk (fuel : nat) (value : Value) : option Value :=
  match fuel with
  | O => None
  | S fuel' =>
      match g value with
      | CastInst opc si di operand =>
          if isTransparentCast opc si di then _walk fuel' operand
          else Some value
      | _ => Some value
      end
  end.

(** [isThreadInvariant]; the [indent] argument only feeds the trace output
    and is left out.  Each nested call spends one unit of fuel. *)
Fixpoint isThreadInvariant (fuel : nat) (s : AffineInstructionSet)
    (value : Value) : option (bool * AffineInstructionSet) :=
  match fuel with
  | O => None
  | S fuel' =>
      match _walk fuel value with
      | None => None
      | Some value =>
          if decide (value ∈ _invariantValues s) then Some (true, s)
          else if decide (value ∈ _affineValues s) then Some (false, s)
          else if decide (value ∈ _variantValues s) then Some (false, s)
          else if decide (value ∈ _threadIds s) then Some (false, s)
          else
            match g value with
            | ConstantInt _ | OtherConstant => Some (_setInvariant s value)
            | CastInst _ _ _ operand =>
                match isThreadInvariant fuel' s operand with
                | None => None
                | Some (true, s1) => Some (_setInvariant s1 value)
                | Some (false, s1) => Some (false, s1)
                end
            | LoadInst pointerOperand =>
                match isThreadInvariant fuel' s pointerOperand with
                | None => None
                | Some (true, s1) => Some (_setInvariant s1 value)
                | Some (false, s1) => Some (false, s1)
                end
            | OtherUnary _ => Some (false, s)
            | BinaryOperator _ op0 op1 =>
                match isThreadInvariant fuel' s op0 with
                | None => None
                | Some (operand0, s1) =>
                    match isThreadInvariant fuel' s1 op1 with
                    | None => None
                    | Some (operand1, s2) =>
                        if operand0 && operand1
                        then Some (_setInvariant (snd (_setInvariant s2 op0)) op1)
                        else Some (false, s2)
                    end
                end
            | OtherValue => Some (false, s)
            end
      end
  end.

(** The first half of [_isBinaryOperatorAffine]: which operand slot holds
    the coefficient when the other one canonicalises to a recorded thread
    index ([None] is the source's [-1]). *)
Definition constantExprIndex (fuel : nat) (s : AffineInstructionSet)
    (op0 op1 : Value) : option (option nat) :=
  w0 ← _walk fuel op0;
  if decide (w0 ∈ _threadIds s) then Some (Some 1)
  else
    w1 ← _walk fuel op1;
    if decide (w1 ∈ _threadIds s) then Some (Some 0) else Some None.

(** The shift and multiply tests on the coefficient slot. *)
Definition scalesIndex (opc : BinaryOps) (op0 op1 : Value) (idx : nat) : bool :=
  match g (if decide (idx = 0) then op0 else op1) with
  | ConstantInt val =>
      (bool_decide (opc = Shl) && bool_decide (val = 2%Z) && bool_decide (idx = 1))
      || (bool_decide (opc = Mul) && bool_decide (val = 4%Z))
  | _ => false
  end.

(** [_isBinaryOperatorAffine], with the recursive calls to [isAffine]
    passed in as [isAffine_rec].  The source takes a [BinaryOperator*]; on a
    value of another kind, which [isAffine] never passes, there is no
    result. *)
Definition _isBinaryOperatorAffine
    (isAffine_rec : AffineInstructionSet → Value → option (bool * AffineInstructionSet))
    (fuel : nat) (s : AffineInstructionSet) (binary : Value)
  : option (bool * AffineInstructionSet) :=
  match g binary with
  | BinaryOperator opc op0 op1 =>
      match constantExprIndex fuel s op0 op1 with
      | None => None
      | Some cei =>
          if match cei with
             | Some idx => scalesIndex opc op0 op1 idx
             | None => false
             end
          then Some (_setAffine s binary)
          else if decide (opc = Add) then
            match isAffine_rec s op0 with
            | None => None
            | Some (a0, s1) =>
                match (if a0 then isThreadInvariant fuel s1 op1
                       else Some (false, s1)) with
                | None => None
                | Some (true, s2) => Some (_setAffine s2 binary)
                | Some (false, s2) =>
                    match isAffine_rec s2 op1 with
                    | None => None
                    | Some (a1, s3) =>
                        match (if a1 then isThreadInvariant fuel s3 op0
                               else Some (false, s3)) with
                        | None => None
                        | Some (true, s4) => Some (_setAffine s4 binary)
                        | Some (false, s4) => Some (false, s4)
                        end
                    end
                end
            end
          else Some (false, s)
      end
  | _ => None
  end.

(** [isAffine]. *)
Fixpoint isAffine (fuel : nat) (s : AffineInstructionSet) (value : Value)
  : option (bool * AffineInstructionSet) :=
  match fuel with
  | O => None
  | S fuel' =>
      match _walk fuel value with
      | None => None
      | Some value =>
          if decide (value ∈ _invariantValues s) then Some (true, s)
          else if decide (value ∈ _affineValues s) then Some (true, s)
          else if decide (value ∈ _variantValues s) then Some (false, s)
          else
            match g value with
            | BinaryOperator _ _ _ =>
                _isBinaryOperatorAffine (isAffine fuel') fuel' s value
            | _ => Some (false, s)
            end
      end
  end.

End Engine.

(** ** States reachable by queries *)

(** [s'] is reached from [s] by one call of [isThreadInvariant] or [isAffine]
    that returns. *)
Inductive query_step (g : Graph) (s s' : AffineInstructionSet) : Prop :=
  | step_isThreadInvariant fuel v b :
      isThreadInvariant g fuel s v = Some (b, s') → query_step g s s'
  | step_isAffine fuel v b :
      isAffine g fuel s v = Some (b, s') → query_step g s s'.

Definition reachable (g : Graph) : relation AffineInstructionSet :=
  rtc (query_step g).

(** Pairwise disjointness of the four sets. *)
Definition pairwise_disjoint (s : AffineInstructionSet) : Prop :=
  _invariantValues s ## _affineValues s ∧
  _invariantValues s ## _variantValues s ∧
  _invariantValues s ## _threadIds s ∧
  _affineValues s ## _variantValues s ∧
  _affineValues s ## _threadIds s ∧
  _variantValues s ## _threadIds s.

(** Every set of [s] is included in the same set of [s']. *)
Definition store_incl (s s' : AffineInstructionSet) : Prop :=
  _invariantValues s ⊆ _invariantValues s' ∧
  _affineValues s ⊆ _affineValues s' ∧
  _variantValues s ⊆ _variantValues s' ∧
  _threadIds s ⊆ _threadIds s'.

(** Membership of a value in one of the four sets. *)
Definition classified (s : AffineInstructionSet) (x : Value) : Prop :=
  x ∈ _invariantValues s ∨ x ∈ _affineValues s ∨
  x ∈ _variantValues s ∨ x ∈ _threadIds s.

(** No recorded thread index is a binary operator. *)
Definition threadIds_not_binary (g : Graph) (s : AffineInstructionSet) : Prop :=
  ∀ x opc a b, x ∈ _threadIds s → g x ≠ BinaryOperator opc a b.

(** The operand graph below a value: [below g v x] when [x] is [v] or is
    reached from [v] through operands. *)
Inductive below (g : Graph) : Value → Value → Prop :=
  | below_refl v : below g v v
  | below_step v o x : o ∈ operands (g v) → below g o x → below g v x.

(** ** Graphs given as a table *)

(** The node at address [v] is the [v]-th entry; any other address holds a
    value the analysis knows nothing about. *)
Definition graph_of (nodes : list ValueKind) : Graph :=
  λ v, default OtherValue (nodes !! v).

(** Every operand of the [i]-th entry has an address below [base + i]. *)
Fixpoint operands_precede (base : nat) (nodes : list ValueKind) : bool :=
  match nodes with
  | [] => true
  | k :: rest =>
      forallb (λ o, o <? base) (operands k) && operands_precede (S base) rest
  end.

(** ** Big-step reading of the queries, and what the store entails *)

Section Semantics.
Variable g : Graph.
Variable rank : Value → nat.

(** The canonical form of a value: what [_walk] returns on a ranked graph. *)
Definition canon (v : Value) : Value := default v (_walk g (S (rank v)) v).

Definition setInv (s : AffineInstructionSet) (v : Value) := snd (_setInvariant s v).
Definition setAff (s : AffineInstructionSet) (v : Value) := snd (_setAffine s v).

(** Cache misses of [isThreadInvariant] and of [isAffine]. *)
Definition missInv (s : AffineInstructionSet) (n : Value) : Prop :=
  (n ∉ _invariantValues s) ∧ (n ∉ _affineValues s) ∧
  (n ∉ _variantValues s) ∧ (n ∉ _threadIds s).

Definition missAff (s : AffineInstructionSet) (n : Value) : Prop :=
  (n ∉ _invariantValues s) ∧ (n ∉ _affineValues s) ∧
  (n ∉ _variantValues s).

Definition isConstant (k : ValueKind) : bool :=
  match k with ConstantInt _ | OtherConstant => true | _ => false end.

Definition castOrLoad (k : ValueKind) : option Value :=
  match k with CastInst _ _ _ o | LoadInst o => Some o | _ => None end.

Definition isLeaf (k : ValueKind) : bool :=
  match k with OtherUnary _ | OtherValue => true | _ => false end.

Definition isTransparent (k : ValueKind) : bool :=
  match k with
  | CastInst opc si di _ => isTransparentCast opc si di
  | _ => false
  end.

Definition isBinary (k : ValueKind) : bool :=
  match k with BinaryOperator _ _ _ => true | _ => false end.

(** The index-scaling test of [_isBinaryOperatorAffine] on canonical forms. *)
Definition idiomMatch (tids : gset Value) (n : Value) : bool :=
  match g n with
  | BinaryOperator opc a b =>
      if decide (canon a ∈ tids) then scalesIndex g opc a b 1
      else if decide (canon b ∈ tids) then scalesIndex g opc a b 0
      else false
  | _ => false
  end.

(** [InvEval s v b s']: the call [isThreadInvariant(v)] in store [s] returns
    [b] and leaves the store [s']. *)
Inductive InvEval :
  AffineInstructionSet → Value → bool → AffineInstructionSet → Prop :=
  | ie_hit s v :
      canon v ∈ _invariantValues s → InvEval s v true s
  | ie_known s v :
      canon v ∉ _invariantValues s →
      canon v ∈ _affineValues s ∨ canon v ∈ _variantValues s
        ∨ canon v ∈ _threadIds s →
      InvEval s v false s
  | ie_const s v :
      missInv s (canon v) → isConstant (g (canon v)) = true →
      InvEval s v true (setInv s (canon v))
  | ie_unary s v o b s1 :
      missInv s (canon v) → castOrLoad (g (canon v)) = Some o →
      InvEval s o b s1 →
      InvEval s v b (if b then setInv s1 (canon v) else s1)
  | ie_binary s v opc a b r0 s1 r1 s2 :
      missInv s (canon v) → g (canon v) = BinaryOperator opc a b →
      InvEval s a r0 s1 → InvEval s1 b r1 s2 →
      InvEval s v (r0 && r1)
        (if r0 && r1 then setInv (setInv s2 a) b else s2)
  | ie_other s v :
      missInv s (canon v) → isLeaf (g (canon v)) = true →
      InvEval s v false s.

(** [AffEval s v b s']: the call [isAffine(v)] in store [s] returns [b] and
    leaves [s'].  [AffTest s x y b s'] is one conjunction
    [isAffine(x) && isThreadInvariant(y)] of the addition rule. *)
Inductive AffEval :
  AffineInstructionSet → Value → bool → AffineInstructionSet → Prop :=
  | ae_inv s v :
      canon v ∈ _invariantValues s → AffEval s v true s
  | ae_aff s v :
      canon v ∉ _invariantValues s → canon v ∈ _affineValues s →
      AffEval s v true s
  | ae_var s v :
      canon v ∉ _invariantValues s → canon v ∉ _affineValues s →
      canon v ∈ _variantValues s → AffEval s v false s
  | ae_nonbinary s v :
      missAff s (canon v) → isBinary (g (canon v)) = false →
      AffEval s v false s
  | ae_idiom s v :
      missAff s (canon v) → idiomMatch (_threadIds s) (canon v) = true →
      AffEval s v true (setAff s (canon v))
  | ae_nonadd s v opc a b :
      missAff s (canon v) → g (canon v) = BinaryOperator opc a b →
      idiomMatch (_threadIds s) (canon v) = false → opc ≠ Add →
      AffEval s v false s
  | ae_add1 s v a b s2 :
      missAff s (canon v) → g (canon v) = BinaryOperator Add a b →
      idiomMatch (_threadIds s) (canon v) = false →
      AffTest s a b true s2 →
      AffEval s v true (setAff s2 (canon v))
  | ae_add2 s v a b s2 s4 :
      missAff s (canon v) → g (canon v) = BinaryOperator Add a b →
      idiomMatch (_threadIds s) (canon v) = false →
      AffTest s a b false s2 → AffTest s2 b a true s4 →
      AffEval s v true (setAff s4 (canon v))
  | ae_add3 s v a b s2 s4 :
      missAff s (canon v) → g (canon v) = BinaryOperator Add a b →
      idiomMatch (_threadIds s) (canon v) = false →
      AffTest s a b false s2 → AffTest s2 b a false s4 →
      AffEval s v false s4
with AffTest :
  AffineInstructionSet → Value → Value → bool → AffineInstructionSet → Prop :=
  | at_no s x y s1 :
      AffEval s x false s1 → AffTest s x y false s1
  | at_yes s x y s1 r s2 :
      AffEval s x true s1 → InvEval s1 y r s2 → AffTest s x y r s2.

(** [PInv s v]: the store [s] entails that [v] is invariant, by the rules of
    [isThreadInvariant] read without any update of the store. *)
Inductive PInv (s : AffineInstructionSet) : Value → Prop :=
  | pi_hit v : canon v ∈ _invariantValues s → PInv s v
  | pi_const v :
      missInv s (canon v) → isConstant (g (canon v)) = true → PInv s v
  | pi_unary v o :
      missInv s (canon v) → castOrLoad (g (canon v)) = Some o →
      PInv s o → PInv s v
  | pi_binary v opc a b :
      missInv s (canon v) → g (canon v) = BinaryOperator opc a b →
      PInv s a → PInv s b → PInv s v.

(** [PAff s v]: the same for [isAffine]. *)
Inductive PAff (s : AffineInstructionSet) : Value → Prop :=
  | pa_inv v : canon v ∈ _invariantValues s → PAff s v
  | pa_aff v : canon v ∈ _affineValues s → PAff s v
  | pa_idiom v :
      canon v ∉ _variantValues s →
      idiomMatch (_threadIds s) (canon v) = true → PAff s v
  | pa_add1 v a b :
      canon v ∉ _variantValues s → g (canon v) = BinaryOperator Add a b →
      PAff s a → PInv s b → PAff s v
  | pa_add2 v a b :
      canon v ∉ _variantValues s → g (canon v) = BinaryOperator Add a b →
      PAff s b → PInv s a → PAff s v.

(** [extI s s']: [s'] extends [s] by invariant values only, each of them
    entailed invariant by [s]. *)
Definition extI (s s' : AffineInstructionSet) : Prop :=
  _threadIds s' = _threadIds s ∧ _variantValues s' = _variantValues s ∧
  _affineValues s' = _affineValues s ∧
  _invariantValues s ⊆ _invariantValues s' ∧
  ∀ x, x ∈ _invariantValues s' → x ∉ _invariantValues s → PInv s x.

(** [ext s s']: [s'] extends [s] by invariant values entailed invariant by
    [s] and by affine values entailed invariant or affine by [s]. *)
Definition ext (s s' : AffineInstructionSet) : Prop :=
  _threadIds s' = _threadIds s ∧ _variantValues s' = _variantValues s ∧
  _invariantValues s ⊆ _invariantValues s' ∧
  _affineValues s ⊆ _affineValues s' ∧
  (∀ x, x ∈ _invariantValues s' → x ∉ _invariantValues s → PInv s x) ∧
  (∀ x, x ∈ _affineValues s' → x ∉ _affineValues s → PInv s x ∨ PAff s x).

(** [growsP P s s']: from [s] to [s'] the invariant and affine sets gained
    only values that satisfy [P] (the affine set only binary operators),
    and the other two sets are the same. *)
Definition growsP (P : Value → Prop) (s s' : AffineInstructionSet) : Prop :=
  _threadIds s' = _threadIds s ∧ _variantValues s' = _variantValues s ∧
  _invariantValues s ⊆ _invariantValues s' ∧
  _affineValues s ⊆ _affineValues s' ∧
  (∀ x, x ∈ _invariantValues s' → x ∉ _invariantValues s → P x) ∧
  (∀ x, x ∈ _affineValues s' → x ∉ _affineValues s →
        P x ∧ isBinary (g x) = true).

(** The gained values lie in the operand graph of [v]. *)
Definition grows (v : Value) : relation AffineInstructionSet :=
  growsP (below g v).

(** What one call of [isAffine], and one test of the addition rule,
    establish about the stores before and after. *)
Definition affFacts (s : AffineInstructionSet) (v : Value) (r : bool)
    (s' : AffineInstructionSet) : Prop :=
  ext s s' ∧ (r = true → PAff s v) ∧ (r = false → PInv s' v → s' = s).

Definition testFacts (s : AffineInstructionSet) (x y : Value) (r : bool)
    (s' : AffineInstructionSet) : Prop :=
  ext s s' ∧ (r = true → PAff s x ∧ PInv s y) ∧
  (r = false → PInv s' x → PInv s' y → s' = s) ∧
  (r = false → PAff s x ∨ (PInv s' x → s' = s)) ∧
  (r = false → PInv s y → PInv s' x → s' = s).

End Semantics.

Scheme AffEval_mut := Induction for AffEval Sort Prop
  with AffTest_mut := Induction for AffTest Sort Prop.

Combined Scheme AffEval_AffTest_ind from AffEval_mut, AffTest_mut.

(** ** Relations between stores *)

(** [keeps s s']: the thread-index and variant sets are the same and the
    other two did not lose a value. *)
Definition keeps (s s' : AffineInstructionSet) : Prop :=
  _threadIds s' = _threadIds s ∧ _variantValues s' = _variantValues s ∧
  _invariantValues s ⊆ _invariantValues s' ∧
  _affineValues s ⊆ _affineValues s'.

(** The invariant and affine sets are disjoint from each other and from the
    thread indices, nothing is variant, only binary operators are affine, and
    a thread index is neither a transparent cast nor a binary operator. *)
Definition store_ok (g : Graph) (s : AffineInstructionSet) : Prop :=
  _invariantValues s ## _affineValues s ∧
  _invariantValues s ## _threadIds s ∧
  _affineValues s ## _threadIds s ∧
  _variantValues s = ∅ ∧
  (∀ x, x ∈ _affineValues s → isBinary (g x) = true) ∧
  (∀ x, x ∈ _threadIds s →
        isTransparent (g x) = false ∧ isBinary (g x) = false).

(** The members that the first loop inserts: the entry at position [k] of the
    table, when no entry up to [k] designates [ptrThreadDescriptorArray] and
    the variance flag at [k] is off. *)
Definition seeded_member (tables : VarianceTables)
    (threadArguments : ThreadLocalArgument) (x : Value) : Prop :=
  ∃ k f, ThreadLocalArgumentInstances tables !! k = Some f ∧
         (ptrThreadDescriptorArray ∉ take (S k) (ThreadLocalArgumentInstances tables)) ∧
         ThreadLocalArgumentVarianceMap tables !! k = Some false ∧
         x = member threadArguments f.

(** [same_class s s' x]: the value [x] is in the same sets in [s] and [s']. *)
Definition same_class (s s' : AffineInstructionSet) (x : Value) : Prop :=
  (x ∈ _invariantValues s ↔ x ∈ _invariantValues s') ∧
  (x ∈ _affineValues s ↔ x ∈ _affineValues s') ∧
  (x ∈ _variantValues s ↔ x ∈ _variantValues s') ∧
  (x ∈ _threadIds s ↔ x ∈ _threadIds s').

(** Modelled from the spec: the code that fills in [threadIdUses] is not
    part of the sources at hand; the spec describes it as the count of the
    distinct thread-index components that the kernel body references.
    [referencing members referenced] is the argument record of a kernel that
    references the components listed, without repetition, in [referenced]. *)
Definition referencing (members : ThreadLocalField → Value)
    (referenced : list ThreadLocalField) : ThreadLocalArgument :=
  mkThreadLocalArgument members (Z.of_nat (length referenced)).

(** ** Examples *)

(** A table of the thirteen members in declaration order, the thread-index
    components flagged as varying per thread and every other member as
    constant across threads. *)
Definition example_tables : VarianceTables :=
  mkTables
    [threadId_x; threadId_y; threadId_z; blockDim_x; blockDim_y; blockDim_z;
     blockId_x; blockId_y; blockId_z; gridDim_x; gridDim_y; gridDim_z;
     ptrThreadDescriptorArray]
    [true; true; true; false; false; false; false; false; false; false;
     false; false; false].

(** The same table with [threadId_x] flagged constant across threads. *)
Definition uniform_tables : VarianceTables :=
  mkTables (ThreadLocalArgumentInstances example_tables)
    (false :: tail (ThreadLocalArgumentVarianceMap example_tables)).

(** The members live at the addresses 100 to 112. *)
Definition example_members (f : ThreadLocalField) : Value :=
  match f with
  | threadId_x => 100 | threadId_y => 101 | threadId_z => 102
  | blockDim_x => 103 | blockDim_y => 104 | blockDim_z => 105
  | blockId_x => 106 | blockId_y => 107 | blockId_z => 108
  | gridDim_x => 109 | gridDim_y => 110 | gridDim_z => 111
  | ptrThreadDescriptorArray => 112
  end.

(** As [example_members], with the thread index [x] at address [t]. *)
Definition members_with_index (t : Value) (f : ThreadLocalField) : Value :=
  match f with threadId_x => t | _ => example_members f end.

(** [c0 * c1] for two constants. *)
Definition product_graph : Graph :=
  graph_of [OtherConstant; OtherConstant; BinaryOperator Mul 0 1].

(** Thread index [0]; [2 = tid << 2]; [5 = c3 + c4]; [6 = 5 + 2];
    [7 = 2 + 5]. *)
Definition sum_graph : Graph :=
  graph_of [OtherValue; ConstantInt 2; BinaryOperator Shl 0 1;
            OtherConstant; OtherConstant; BinaryOperator Add 3 4;
            BinaryOperator Add 5 2; BinaryOperator Add 2 5].


(** [3 = zext(c0) * c2]. *)
Definition cast_graph : Graph :=
  graph_of [OtherConstant; CastInst ZExt true true 0; OtherConstant;
            BinaryOperator Mul 1 2].

(** Thread index [0]; constants [1] and [2]; [3 = 2 + 2]; [4 = 3 + tid];
    [5 = 4 + 1]. *)
Definition again_graph : Graph :=
  graph_of [OtherValue; OtherConstant; OtherConstant; BinaryOperator Add 2 2;
            BinaryOperator Add 3 0; BinaryOperator Add 4 1].

(** A thread index that is itself an addition: constant [0]; [1 = 0 + 0];
    an argument [2]; [3 = 1 + 0]; [4 = 3 + 2]. *)
Definition flip_graph : Graph :=
  graph_of [OtherConstant; BinaryOperator Add 0 0; OtherValue;
            BinaryOperator Add 1 0; BinaryOperator Add 3 2].



(** ** Shapes and dependencies *)

Definition isConstantInt (k : ValueKind) (val : Z) : bool :=
  match k with ConstantInt val' => bool_decide (val' = val) | _ => false end.

(** The nodes that [_isBinaryOperatorAffine] can mark: an addition, a shift
    whose second operand is the integer constant 2, or a multiplication with
    the integer constant 4 as one of its operands. *)
Definition affineShape (g : Graph) (n : Value) : bool :=
  match g n with
  | BinaryOperator opc op0 op1 =>
      bool_decide (opc = Add)
      || (bool_decide (opc = Shl) && isConstantInt (g op1) 2)
      || (bool_decide (opc = Mul)
          && (isConstantInt (g op0) 4 || isConstantInt (g op1) 4))
  | _ => false
  end.

(** No value of the invariant set has [t] in its operand graph. *)
Definition indexFree (g : Graph) (t : Value) (s : AffineInstructionSet) : Prop :=
  ∀ x, x ∈ _invariantValues s → ¬ below g x t.

(** [extW g rank s s']: nothing was removed from [s], the thread-index and
    variant sets are the same, and each value gained by the invariant set is
    entailed invariant by [s]. *)
Definition extW (g : Graph) (rank : Value → nat)
    (s s' : AffineInstructionSet) : Prop :=
  keeps s s' ∧
  ∀ x, x ∈ _invariantValues s' → x ∉ _invariantValues s → PInv g rank s x.

(** A zero extension that is its own operand, as can occur in a block that
    is never executed. *)
Definition self_cast_graph : Graph :=
  graph_of [CastInst ZExt true true 0].

(** Thread index [0]; constant [1]; a load through the pointer [0] at [2];
    [3 = 2 + 1]; a truncation of [3] at [4]; a conversion of [4] to floating
    point at [5]; a zero extension of [4] at [6]. *)
Definition dependent_graph : Graph :=
  graph_of [OtherValue; OtherConstant; LoadInst 0; BinaryOperator Add 2 1;
            CastInst Trunc true true 3; CastInst SIToFP true false 4;
            CastInst ZExt true true 4].

(** ** Expressions over the seeded values *)

(** Thread-invariant expressions: the values of [I], constants, and what
    casts, loads and binary operators build from them, no value built being
    a member of [T]. *)
Inductive invariantExpr (g : Graph) (I T : gset Value) : Value → Prop :=
  | ix_cached v : v ∈ I → invariantExpr g I T v
  | ix_const v : v ∉ T → isConstant (g v) = true → invariantExpr g I T v
  | ix_unary v o :
      v ∉ T → castOrLoad (g v) = Some o → invariantExpr g I T o →
      invariantExpr g I T v
  | ix_binary v opc a b :
      v ∉ T → g v = BinaryOperator opc a b →
      invariantExpr g I T a → invariantExpr g I T b →
      invariantExpr g I T v.

(** Affine expressions: invariant expressions, a member of [T] shifted by 2
    or multiplied by 4 (the tests of [scalesIndex]), sums of an affine and
    an invariant expression, and the casts that [_walk] strips of those. *)
Inductive affineExpr (g : Graph) (I T : gset Value) : Value → Prop :=
  | ax_invariant v : invariantExpr g I T v → affineExpr g I T v
  | ax_cast v opc si di o :
      g v = CastInst opc si di o → isTransparentCast opc si di = true →
      affineExpr g I T o → affineExpr g I T v
  | ax_scale_left v opc a b fuel t :
      g v = BinaryOperator opc a b → _walk g fuel a = Some t → t ∈ T →
      scalesIndex g opc a b 1 = true → affineExpr g I T v
  | ax_scale_right v opc a b fuel t :
      g v = BinaryOperator opc a b → _walk g fuel b = Some t → t ∈ T →
      scalesIndex g opc a b 0 = true → affineExpr g I T v
  | ax_add_left v a b :
      g v = BinaryOperator Add a b →
      affineExpr g I T a → invariantExpr g I T b → affineExpr g I T v
  | ax_add_right v a b :
      g v = BinaryOperator Add a b →
      affineExpr g I T b → invariantExpr g I T a → affineExpr g I T v.

(** [s'] is reached from [s] by one call of [isThreadInvariant] that
    returns. *)
Inductive invariance_step (g : Graph) (s s' : AffineInstructionSet) : Prop :=
  | step_invariance fuel v b :
      isThreadInvariant g fuel s v = Some (b, s') → invariance_step g s s'.

(** * Proofs *)

(** * Canonicalisation *)

Section WalkFacts.
Variable g : Graph.
Variable rank : Value → nat.
Hypothesis Hrank : ranked g rank.

Lemma walk_fuel_mono fuel fuel' v n :
  _walk g fuel v = Some n → fuel ≤ fuel' → _walk g fuel' v = Some n.
Proof.
  revert fuel' v. induction fuel as [|fuel IH]; intros fuel' v; [done|].
  destruct fuel' as [|fuel']; [lia|]. simpl.
  destruct (g v); try done. case_match; [|done].
  intros ??. apply IH; [done|lia].
Qed.

Lemma walk_deterministic f1 f2 v n1 n2 :
  _walk g f1 v = Some n1 → _walk g f2 v = Some n2 → n1 = n2.
Proof.
  intros H1 H2.
  apply (walk_fuel_mono _ (f1 `max` f2)) in H1; [|lia].
  apply (walk_fuel_mono _ (f1 `max` f2)) in H2; [|lia]. congruence.
Qed.

Lemma walk_total fuel v :
  rank v < fuel → ∃ n, _walk g fuel v = Some n ∧ rank n ≤ rank v.
Proof using Hrank.
  revert v. induction fuel as [|fuel IH]; intros v Hv; [lia|]. simpl.
  destruct (g v) eqn:Hg; try (exists v; split; [done|lia]).
  case_match; [|exists v; split; [done|lia]].
  assert (rank operand < rank v) as Ho.
  { apply Hrank. rewrite Hg. simpl. set_solver. }
  destruct (IH operand) as (n & Hn & Hle); [lia|].
  exists n. split; [done|lia].
Qed.

Lemma walk_canon fuel v n : _walk g fuel v = Some n → n = canon g rank v.
Proof using Hrank.
  intros Hw. unfold canon.
  destruct (walk_total (S (rank v)) v) as (n' & Hn' & _); [lia|].
  rewrite Hn'. simpl. eapply walk_deterministic; eauto.
Qed.

Lemma walk_is_canon fuel v : rank v < fuel → _walk g fuel v = Some (canon g rank v).
Proof using Hrank.
  intros Hv. destruct (walk_total fuel v Hv) as (n & Hn & _).
  rewrite Hn. f_equal. by eapply walk_canon.
Qed.

Lemma canon_rank v : rank (canon g rank v) ≤ rank v.
Proof using Hrank.
  destruct (walk_total (S (rank v)) v) as (n & Hn & Hle); [lia|].
  by rewrite <- (walk_canon _ _ _ Hn).
Qed.

Lemma canon_stop v : isTransparent (g v) = false → canon g rank v = v.
Proof.
  intros Hv. unfold canon. simpl. unfold isTransparent in Hv.
  destruct (g v); try done. by rewrite Hv.
Qed.

Lemma canon_step v opc si di o :
  g v = CastInst opc si di o → isTransparentCast opc si di = true →
  canon g rank v = canon g rank o.
Proof using Hrank.
  intros Hg Ht. symmetry. apply (walk_canon (S (S (rank v)))).
  simpl. rewrite Hg, Ht.
  assert (rank o < rank v) by (apply Hrank; rewrite Hg; simpl; set_solver).
  change (_walk g (S (rank v)) o = Some (canon g rank o)).
  apply walk_is_canon. lia.
Qed.

Lemma walk_transparent fuel v n :
  _walk g fuel v = Some n → isTransparent (g n) = false.
Proof.
  revert v. induction fuel as [|fuel IH]; intros v; [done|]. simpl.
  destruct (g v) eqn:Hg; try (intros [= <-]; by rewrite Hg).
  case_match eqn:Ht; [apply IH|].
  intros [= <-]. by rewrite Hg.
Qed.

Lemma canon_transparent v : isTransparent (g (canon g rank v)) = false.
Proof using Hrank.
  eapply (walk_transparent (S (rank v))). apply walk_is_canon. lia.
Qed.

Lemma canon_idem v : canon g rank (canon g rank v) = canon g rank v.
Proof using Hrank. apply canon_stop, canon_transparent. Qed.

Lemma walk_below fuel v n : _walk g fuel v = Some n → below g v n.
Proof.
  revert v. induction fuel as [|fuel IH]; intros v; [done|]. simpl.
  destruct (g v) eqn:Hg; try (intros [= <-]; constructor).
  case_match; [|intros [= <-]; constructor].
  intros Hw. eapply below_step; [|by apply IH]. rewrite Hg. simpl. set_solver.
Qed.

Lemma canon_below v : below g v (canon g rank v).
Proof using Hrank. eapply walk_below, (walk_is_canon (S (rank v))). lia. Qed.

Lemma below_rank v x : below g v x → rank x ≤ rank v.
Proof using Hrank.
  induction 1 as [|v o x Ho _ IH]; [lia|]. apply Hrank in Ho. lia.
Qed.

(** A ranked graph has no cycle: no value lies below one of its operands. *)
Lemma ranked_no_cycle v o : o ∈ operands (g v) → ¬ below g o v.
Proof using Hrank.
  intros Ho Hb. apply Hrank in Ho. apply below_rank in Hb. lia.
Qed.

Lemma below_trans v w x : below g v w → below g w x → below g v x.
Proof. induction 1; [done|]. intros. eapply below_step; eauto. Qed.

End WalkFacts.

(** * The functions against their big-step reading *)

Section Soundness.
Variable g : Graph.
Variable rank : Value → nat.
Hypothesis Hrank : ranked g rank.

Local Abbreviation canon := (canon g rank).
Local Abbreviation InvEval := (InvEval g rank).
Local Abbreviation AffEval := (AffEval g rank).
Local Abbreviation AffTest := (AffTest g rank).

Lemma operand_rank v o : o ∈ operands (g (canon v)) → rank o < rank v.
Proof using Hrank.
  intros Ho. apply Hrank in Ho. pose proof (canon_rank g rank Hrank v). lia.
Qed.

Lemma isThreadInvariant_sound fuel s v b s' :
  isThreadInvariant g fuel s v = Some (b, s') → InvEval s v b s'.
Proof using Hrank.
  revert s v b s'. induction fuel as [|fuel IH]; intros s v b s'; [done|].
  cbn [isThreadInvariant].
  destruct (_walk g (S fuel) v) as [n|] eqn:Hw; [|done].
  apply (walk_canon g rank Hrank) in Hw. subst n.
  case_decide as Hi; [intros [= <- <-]; by constructor|].
  case_decide as Ha; [intros [= <- <-]; constructor; auto|].
  case_decide as Hv; [intros [= <- <-]; constructor; auto|].
  case_decide as Ht; [intros [= <- <-]; constructor; auto|].
  assert (missInv s (canon v)) as Hm by done.
  destruct (g (canon v)) eqn:Hg.
  - intros [= <- <-]. apply ie_const; [done|by rewrite Hg].
  - intros [= <- <-]. apply ie_const; [done|by rewrite Hg].
  - destruct (isThreadInvariant g fuel s operand) as [[[] s1]|] eqn:Ho;
      [| |done]; intros [= <- <-]; apply IH in Ho.
    + eapply (ie_unary _ _ s v operand true); [done|by rewrite Hg|done].
    + eapply (ie_unary _ _ s v operand false); [done|by rewrite Hg|done].
  - destruct (isThreadInvariant g fuel s pointerOperand) as [[[] s1]|] eqn:Ho;
      [| |done]; intros [= <- <-]; apply IH in Ho.
    + eapply (ie_unary _ _ s v pointerOperand true); [done|by rewrite Hg|done].
    + eapply (ie_unary _ _ s v pointerOperand false); [done|by rewrite Hg|done].
  - intros [= <- <-]. apply ie_other; [done|by rewrite Hg].
  - destruct (isThreadInvariant g fuel s operand0) as [[r0 s1]|] eqn:H0; [|done].
    destruct (isThreadInvariant g fuel s1 operand1) as [[r1 s2]|] eqn:H1; [|done].
    apply IH in H0. apply IH in H1.
    pose proof (ie_binary _ _ s v opc operand0 operand1 r0 s1 r1 s2 Hm Hg H0 H1) as HE.
    destruct (r0 && r1); intros [= <- <-]; exact HE.
  - intros [= <- <-]. apply ie_other; [done|by rewrite Hg].
Qed.

Lemma isThreadInvariant_total fuel s v :
  rank v < fuel → ∃ b s', isThreadInvariant g fuel s v = Some (b, s').
Proof using Hrank.
  revert s v. induction fuel as [|fuel IH]; intros s v Hv; [lia|].
  cbn [isThreadInvariant].
  rewrite (walk_is_canon g rank Hrank) by done.
  repeat (case_decide; [eauto|]).
  destruct (g (canon v)) eqn:Hg; eauto.
  - destruct (IH s operand) as (b & s1 & ->).
    { pose proof (operand_rank v operand). rewrite Hg in *. simpl in *.
      assert (rank operand < rank v) by set_solver. lia. }
    destruct b; eauto.
  - destruct (IH s pointerOperand) as (b & s1 & ->).
    { pose proof (operand_rank v pointerOperand). rewrite Hg in *. simpl in *.
      assert (rank pointerOperand < rank v) by set_solver. lia. }
    destruct b; eauto.
  - destruct (IH s operand0) as (b0 & s1 & ->).
    { pose proof (operand_rank v operand0). rewrite Hg in *. simpl in *.
      assert (rank operand0 < rank v) by set_solver. lia. }
    destruct (IH s1 operand1) as (b1 & s2 & ->).
    { pose proof (operand_rank v operand1). rewrite Hg in *. simpl in *.
      assert (rank operand1 < rank v) by set_solver. lia. }
    destruct (b0 && b1); eauto.
Qed.

Lemma constantExprIndex_canon fuel s a b cei :
  constantExprIndex g fuel s a b = Some cei →
  cei = if decide (canon a ∈ _threadIds s) then Some 1
        else if decide (canon b ∈ _threadIds s) then Some 0 else None.
Proof using Hrank.
  unfold constantExprIndex.
  destruct (_walk g fuel a) as [w0|] eqn:H0; [|done]. simpl.
  apply (walk_canon g rank Hrank) in H0. subst w0.
  case_decide; [congruence|].
  destruct (_walk g fuel b) as [w1|] eqn:H1; [|done]. simpl.
  apply (walk_canon g rank Hrank) in H1. subst w1.
  case_decide; congruence.
Qed.

Lemma constantExprIndex_total fuel s a b :
  rank a < fuel → rank b < fuel →
  ∃ cei, constantExprIndex g fuel s a b = Some cei.
Proof using Hrank.
  intros Ha Hb. unfold constantExprIndex.
  rewrite !(walk_is_canon g rank Hrank) by done. simpl.
  case_decide; [eauto|]. simpl. case_decide; eauto.
Qed.

Lemma idiom_of_index s n opc a b cei :
  g n = BinaryOperator opc a b →
  cei = (if decide (canon a ∈ _threadIds s) then Some 1
         else if decide (canon b ∈ _threadIds s) then Some 0 else None) →
  match cei with Some idx => scalesIndex g opc a b idx | None => false end
  = idiomMatch g rank (_threadIds s) n.
Proof.
  intros Hg ->. unfold idiomMatch. rewrite Hg. by repeat case_decide.
Qed.

Lemma isAffine_sound fuel s v b s' :
  isAffine g fuel s v = Some (b, s') → AffEval s v b s'.
Proof using Hrank.
  revert s v b s'. induction fuel as [|fuel IH]; intros s v b s'; [done|].
  cbn [isAffine].
  destruct (_walk g (S fuel) v) as [n|] eqn:Hw; [|done].
  apply (walk_canon g rank Hrank) in Hw. subst n.
  case_decide as Hi; [intros [= <- <-]; by constructor|].
  case_decide as Ha; [intros [= <- <-]; by constructor|].
  case_decide as Hv; [intros [= <- <-]; by constructor|].
  assert (missAff s (canon v)) as Hm by done.
  destruct (g (canon v)) eqn:Hg;
    try (intros [= <- <-]; apply ae_nonbinary; [done|by rewrite Hg]).
  unfold _isBinaryOperatorAffine. rewrite Hg.
  destruct (constantExprIndex g fuel s operand0 operand1) as [cei|] eqn:Hc; [|done].
  apply constantExprIndex_canon in Hc.
  rewrite (idiom_of_index s (canon v) opc operand0 operand1 cei Hg Hc).
  destruct (idiomMatch g rank (_threadIds s) (canon v)) eqn:Hidiom.
  { intros [= <- <-]. by apply ae_idiom. }
  destruct (decide (opc = Add)) as [->|Hadd]; [|intros [= <- <-]; by eapply ae_nonadd].
  destruct (isAffine g fuel s operand0) as [[a0 s1]|] eqn:HA0; [|done].
  apply IH in HA0.
  assert (∀ r s2, (if a0 then isThreadInvariant g fuel s1 operand1
                   else Some (false, s1)) = Some (r, s2) →
                  AffTest s operand0 operand1 r s2) as Ht1.
  { intros r s2. destruct a0.
    - intros HI. eapply at_yes; [done|]. by eapply isThreadInvariant_sound.
    - intros [= <- <-]. by apply at_no. }
  destruct (if a0 then isThreadInvariant g fuel s1 operand1 else Some (false, s1))
    as [[[] s2]|]; [| |done].
  { intros [= <- <-]. eapply ae_add1; eauto. }
  specialize (Ht1 _ _ eq_refl).
  destruct (isAffine g fuel s2 operand1) as [[a1 s3]|] eqn:HA1; [|done].
  apply IH in HA1.
  assert (∀ r s4, (if a1 then isThreadInvariant g fuel s3 operand0
                   else Some (false, s3)) = Some (r, s4) →
                  AffTest s2 operand1 operand0 r s4) as Ht2.
  { intros r s4. destruct a1.
    - intros HI. eapply at_yes; [done|]. by eapply isThreadInvariant_sound.
    - intros [= <- <-]. by apply at_no. }
  destruct (if a1 then isThreadInvariant g fuel s3 operand0 else Some (false, s3))
    as [[[] s4]|]; [| |done]; intros [= <- <-].
  - eapply ae_add2; eauto.
  - eapply ae_add3; eauto.
Qed.

Lemma isAffine_total fuel s v :
  rank v < fuel → ∃ b s', isAffine g fuel s v = Some (b, s').
Proof using Hrank.
  revert s v. induction fuel as [|fuel IH]; intros s v Hv; [lia|].
  cbn [isAffine].
  rewrite (walk_is_canon g rank Hrank) by done.
  repeat (case_decide; [eauto|]).
  destruct (g (canon v)) eqn:Hg; eauto.
  assert (rank operand0 < fuel ∧ rank operand1 < fuel) as [Hr0 Hr1].
  { pose proof (operand_rank v operand0). pose proof (operand_rank v operand1).
    rewrite Hg in *. simpl in *.
    assert (rank operand0 < rank v) by set_solver.
    assert (rank operand1 < rank v) by set_solver. lia. }
  unfold _isBinaryOperatorAffine. rewrite Hg.
  destruct (constantExprIndex_total fuel s operand0 operand1 Hr0 Hr1) as [cei ->].
  case_match; [eauto|]. case_decide; [|eauto].
  destruct (IH s operand0 Hr0) as (a0 & s1 & ->).
  assert (∃ r s2, (if a0 then isThreadInvariant g fuel s1 operand1
                   else Some (false, s1)) = Some (r, s2)) as (r & s2 & ->).
  { destruct a0; [|eauto]. by apply isThreadInvariant_total. }
  destruct r; [eauto|].
  destruct (IH s2 operand1 Hr1) as (a1 & s3 & ->).
  assert (∃ r s4, (if a1 then isThreadInvariant g fuel s3 operand0
                   else Some (false, s3)) = Some (r, s4)) as (r & s4 & ->).
  { destruct a1; [|eauto]. by apply isThreadInvariant_total. }
  destruct r; eauto.
Qed.

End Soundness.

(** * What a query may change *)

Section Frame.
Variable g : Graph.
Variable rank : Value → nat.
Hypothesis Hrank : ranked g rank.

Local Abbreviation canon := (canon g rank).
Local Abbreviation InvEval := (InvEval g rank).
Local Abbreviation AffEval := (AffEval g rank).
Local Abbreviation AffTest := (AffTest g rank).
Local Abbreviation growsP := (growsP g).
Local Abbreviation grows := (grows g).

Lemma growsP_refl P s : growsP P s s.
Proof. unfold growsP. split_and!; done. Qed.

Lemma growsP_trans P s1 s2 s3 : growsP P s1 s2 → growsP P s2 s3 → growsP P s1 s3.
Proof.
  intros (Ht1 & Hv1 & Hi1 & Ha1 & Hn1 & Hm1) (Ht2 & Hv2 & Hi2 & Ha2 & Hn2 & Hm2).
  unfold growsP. split_and!; try congruence.
  - by etrans.
  - by etrans.
  - intros x Hx Hnx. destruct (decide (x ∈ _invariantValues s2)); auto.
  - intros x Hx Hnx. destruct (decide (x ∈ _affineValues s2)); auto.
Qed.

Lemma growsP_mono (P Q : Value → Prop) s s' :
  (∀ x, P x → Q x) → growsP P s s' → growsP Q s s'.
Proof.
  intros HPQ (Ht & Hv & Hi & Ha & Hn & Hm). unfold growsP.
  split_and!; try done.
  - intros x ??. auto.
  - intros x Hx Hnx. destruct (Hm x Hx Hnx). auto.
Qed.

Lemma grows_below v o s s' : below g v o → grows o s s' → grows v s s'.
Proof. intros Hb. apply growsP_mono. intros x. by apply below_trans. Qed.

Lemma operand_below v o : o ∈ operands (g (canon v)) → below g v o.
Proof using Hrank.
  intros Ho. eapply below_trans; [apply canon_below, Hrank|].
  eapply below_step; [done|constructor].
Qed.

Lemma binary_operands_below v opc a b :
  g (canon v) = BinaryOperator opc a b → below g v a ∧ below g v b.
Proof using Hrank.
  intros Hg. split; apply operand_below; rewrite Hg; simpl;
    [apply list_elem_of_here|apply list_elem_of_further, list_elem_of_here].
Qed.

Lemma growsP_setInv (P : Value → Prop) s x : P x → growsP P s (setInv s x).
Proof.
  intros Hb. unfold growsP, setInv. simpl. split_and!; try done.
  - apply union_subseteq_r.
  - intros y [->%elem_of_singleton|]%elem_of_union; done.
Qed.

Lemma growsP_setAff (P : Value → Prop) s x :
  P x → isBinary (g x) = true → growsP P s (setAff s x).
Proof.
  intros Hb ?. unfold growsP, setAff. simpl. split_and!; try done.
  - apply union_subseteq_r.
  - intros y [->%elem_of_singleton|]%elem_of_union; done.
Qed.

Lemma InvEval_grows s v b s' : InvEval s v b s' → grows v s s'.
Proof using Hrank.
  induction 1 as [s v|s v|s v Hm Hc|s v o b s1 Hm Hc HE IH
                 |s v opc a b r0 s1 r1 s2 Hm Hg H0 IH0 H1 IH1|s v];
    try apply growsP_refl.
  - apply growsP_setInv, canon_below, Hrank.
  - assert (below g v o) as Hb.
    { apply operand_below. destruct (g (canon v)); simplify_eq/=;
        apply list_elem_of_here. }
    apply (grows_below v) in IH; [|done].
    destruct b; [|done]. eapply growsP_trans; [done|].
    apply growsP_setInv, canon_below, Hrank.
  - destruct (binary_operands_below v opc a b Hg) as [Hba Hbb].
    apply (grows_below v) in IH0; [|done]. apply (grows_below v) in IH1; [|done].
    pose proof (growsP_trans _ _ _ _ IH0 IH1) as H02.
    destruct (r0 && r1); [|done].
    eapply growsP_trans; [done|]. eapply growsP_trans; by apply growsP_setInv.
Qed.

Lemma InvEval_aff s v b s' : InvEval s v b s' → _affineValues s' = _affineValues s.
Proof.
  induction 1 as [| | |s v o b s1 _ _ _ IH
                 |s v opc a b r0 s1 r1 s2 _ _ _ IH0 _ IH1|]; try done.
  - by destruct b.
  - destruct (r0 && r1); simpl; congruence.
Qed.

Lemma AffEval_grows_mut :
  (∀ s v b s', AffEval s v b s' → grows v s s') ∧
  (∀ s x y b s', AffTest s x y b s' →
     growsP (λ w, below g x w ∨ below g y w) s s').
Proof using Hrank.
  apply (AffEval_AffTest_ind g rank
      (λ s v b s' _, grows v s s')
      (λ s x y b s' _, growsP (λ w, below g x w ∨ below g y w) s s')).
  - intros; apply growsP_refl.
  - intros; apply growsP_refl.
  - intros; apply growsP_refl.
  - intros; apply growsP_refl.
  - intros s v Hm Hi. apply growsP_setAff; [apply canon_below, Hrank|].
    unfold idiomMatch in Hi. by destruct (g (canon v)).
  - intros; apply growsP_refl.
  - intros s v a b s2 Hm Hg Hi Ht IH.
    destruct (binary_operands_below v Add a b Hg) as [Hba Hbb].
    eapply growsP_trans.
    + eapply growsP_mono; [|exact IH]. intros x [?|?];
        first [by apply (below_trans g v a)|by apply (below_trans g v b)].
    + apply growsP_setAff; [apply canon_below, Hrank|by rewrite Hg].
  - intros s v a b s2 s4 Hm Hg Hi Ht1 IH1 Ht2 IH2.
    destruct (binary_operands_below v Add a b Hg) as [Hba Hbb].
    eapply growsP_trans; [eapply growsP_trans|].
    + eapply growsP_mono; [|exact IH1]. intros x [?|?];
        first [by apply (below_trans g v a)|by apply (below_trans g v b)].
    + eapply growsP_mono; [|exact IH2]. intros x [?|?];
        first [by apply (below_trans g v a)|by apply (below_trans g v b)].
    + apply growsP_setAff; [apply canon_below, Hrank|by rewrite Hg].
  - intros s v a b s2 s4 Hm Hg Hi Ht1 IH1 Ht2 IH2.
    destruct (binary_operands_below v Add a b Hg) as [Hba Hbb].
    eapply growsP_trans.
    + eapply growsP_mono; [|exact IH1]. intros x [?|?];
        first [by apply (below_trans g v a)|by apply (below_trans g v b)].
    + eapply growsP_mono; [|exact IH2]. intros x [?|?];
        first [by apply (below_trans g v a)|by apply (below_trans g v b)].
  - intros s x y s1 HE IH. eapply growsP_mono; [|exact IH]. auto.
  - intros s x y s1 r s2 HE IH HI.
    eapply growsP_trans.
    + eapply growsP_mono; [|exact IH]. auto.
    + eapply growsP_mono; [|eapply InvEval_grows, HI]. auto.
Qed.

Lemma AffEval_grows s v b s' : AffEval s v b s' → grows v s s'.
Proof using Hrank. apply AffEval_grows_mut. Qed.

Lemma AffTest_grows s x y b s' :
  AffTest s x y b s' → growsP (λ w, below g x w ∨ below g y w) s s'.
Proof using Hrank. apply AffEval_grows_mut. Qed.

(** A node is not among what the queries on its operands add. *)
Lemma operand_grows_fresh v opc a b s s' :
  g (canon v) = BinaryOperator opc a b →
  growsP (λ w, below g a w ∨ below g b w) s s' →
  (canon v ∈ _invariantValues s' → canon v ∈ _invariantValues s) ∧
  (canon v ∈ _affineValues s' → canon v ∈ _affineValues s).
Proof using Hrank.
  intros Hg (Ht & Hv & Hi & Ha & Hn & Hm).
  assert (rank a < rank (canon v) ∧ rank b < rank (canon v)) as [Hra Hrb].
  { split; apply Hrank; rewrite Hg; simpl;
      [apply list_elem_of_here|apply list_elem_of_further, list_elem_of_here]. }
  assert (∀ w, below g a w ∨ below g b w → w ≠ canon v) as Hne.
  { intros w [Hw|Hw] ->; apply (below_rank g rank Hrank) in Hw; lia. }
  split; intros Hin.
  - destruct (decide (canon v ∈ _invariantValues s)) as [|Hnin]; [done|].
    by destruct (Hne _ (Hn _ Hin Hnin)).
  - destruct (decide (canon v ∈ _affineValues s)) as [|Hnin]; [done|].
    destruct (Hm _ Hin Hnin) as [Hb _]. by destruct (Hne _ Hb).
Qed.

End Frame.

(** * What a store entails, and how queries extend it *)

Section Entail.
Variable g : Graph.
Variable rank : Value → nat.
Hypothesis Hrank : ranked g rank.

Local Abbreviation canon := (canon g rank).
Local Abbreviation InvEval := (InvEval g rank).
Local Abbreviation AffEval := (AffEval g rank).
Local Abbreviation AffTest := (AffTest g rank).
Local Abbreviation PInv := (PInv g rank).
Local Abbreviation PAff := (PAff g rank).
Local Abbreviation ext := (ext g rank).
Local Abbreviation extI := (extI g rank).

Lemma PInv_same_canon s v w : canon v = canon w → PInv s v → PInv s w.
Proof.
  intros Heq H. destruct H as [v Hh|v Hm Hc|v o Hm Hc Ho|v opc a b Hm Hg Ha Hb];
    rewrite Heq in *.
  - by apply pi_hit.
  - by apply pi_const.
  - by eapply pi_unary.
  - by eapply pi_binary.
Qed.

Lemma PAff_same_canon s v w : canon v = canon w → PAff s v → PAff s w.
Proof.
  intros Heq H. destruct H as [v Hh|v Hh|v Hv Hi|v a b Hv Hg Ha Hb|v a b Hv Hg Ha Hb];
    rewrite Heq in *.
  - by apply pa_inv.
  - by apply pa_aff.
  - by apply pa_idiom.
  - by eapply pa_add1.
  - by eapply pa_add2.
Qed.

Lemma PInv_of_canon s v : PInv s (canon v) → PInv s v.
Proof using Hrank. apply PInv_same_canon, canon_idem, Hrank. Qed.

Lemma PInv_to_canon s v : PInv s v → PInv s (canon v).
Proof using Hrank. apply PInv_same_canon. symmetry. apply canon_idem, Hrank. Qed.

Lemma PAff_to_canon s v : PAff s v → PAff s (canon v).
Proof using Hrank. apply PAff_same_canon. symmetry. apply canon_idem, Hrank. Qed.

Lemma PAff_of_canon s v : PAff s (canon v) → PAff s v.
Proof using Hrank. apply PAff_same_canon, canon_idem, Hrank. Qed.

Lemma extI_ext y z : extI y z → ext y z.
Proof.
  intros (Ht & Hv & Ha & Hi & Hn). unfold ext.
  split_and!; try done.
  - by rewrite Ha.
  - intros x Hx Hnx. by rewrite Ha in Hx.
Qed.

Lemma ext_refl s : ext s s.
Proof. unfold ext. split_and!; done. Qed.

Lemma extI_refl s : extI s s.
Proof. unfold extI. split_and!; done. Qed.

Lemma missInv_ext y z n : ext y z → missInv z n → missInv y n.
Proof.
  intros (Ht & Hv & Hi & Ha & _) (H1 & H2 & H3 & H4). unfold missInv.
  rewrite <- Ht, <- Hv. split_and!; auto.
Qed.

(** Being entailed invariant is never gained along an extension. *)
Lemma PInv_perm y z v : ext y z → PInv z v → PInv y v.
Proof using Hrank.
  intros He H. induction H as [v Hh|v Hm Hc|v o Hm Hc Ho IH|v opc a b Hm Hg Ha IHa Hb IHb].
  - destruct (decide (canon v ∈ _invariantValues y)); [by apply pi_hit|].
    apply PInv_of_canon. by apply He.
  - apply pi_const; [by eapply missInv_ext|done].
  - eapply pi_unary; [by eapply missInv_ext|done|done].
  - eapply pi_binary; [by eapply missInv_ext|done|done|done].
Qed.

(** It is kept along an extension by invariant values only. *)
Lemma PInv_keep y z v : extI y z → PInv y v → PInv z v.
Proof.
  intros (Ht & Hv & Ha & Hi & Hn) H.
  assert (∀ n, missInv y n → n ∉ _invariantValues z → missInv z n) as Hmiss.
  { intros n (H1 & H2 & H3 & H4) ?. unfold missInv. rewrite Ht, Hv, Ha. done. }
  induction H as [v Hh|v Hm Hc|v o Hm Hc Ho IH|v opc a b Hm Hg Hpa IHa Hpb IHb].
  - apply pi_hit. by apply Hi.
  - destruct (decide (canon v ∈ _invariantValues z)); [by apply pi_hit|].
    apply pi_const; auto.
  - destruct (decide (canon v ∈ _invariantValues z)); [by apply pi_hit|].
    eapply pi_unary; eauto.
  - destruct (decide (canon v ∈ _invariantValues z)); [by apply pi_hit|].
    eapply pi_binary; eauto.
Qed.

Lemma extI_trans x y z : extI x y → extI y z → extI x z.
Proof using Hrank.
  intros Hxy Hyz.
  pose proof Hxy as (Ht1 & Hv1 & Ha1 & Hi1 & Hn1).
  pose proof Hyz as (Ht2 & Hv2 & Ha2 & Hi2 & Hn2).
  unfold extI. split_and!; try congruence.
  - by etrans.
  - intros w Hw Hnw. destruct (decide (w ∈ _invariantValues y)); [auto|].
    eapply PInv_perm; [by apply extI_ext|]. auto.
Qed.

Lemma extI_setInv s x : PInv s x → extI s (setInv s x).
Proof.
  intros Hx. unfold extI, setInv. simpl. split_and!; try done.
  - apply union_subseteq_r.
  - intros y [->%elem_of_singleton|]%elem_of_union; done.
Qed.

(** [isThreadInvariant] answers what the store entails, and extends the
    store by entailed values. *)
Lemma InvEval_PInv s v b s' :
  InvEval s v b s' → extI s s' ∧ (b = true ↔ PInv s v).
Proof using Hrank.
  induction 1 as [s v Hh|s v Hn Hk|s v Hm Hc|s v o b s1 Hm Hc HE [IHe IHb]
                 |s v opc a b r0 s1 r1 s2 Hm Hg H0 [IH0e IH0b] H1 [IH1e IH1b]
                 |s v Hm Hl].
  - split; [apply extI_refl|]. split; [intros _; by apply pi_hit|done].
  - split; [apply extI_refl|]. split; [done|].
    intros HP. exfalso. destruct Hk as [Hk|[Hk|Hk]];
      inversion HP as [? Hh|? Hm|? ? Hm|? ? ? ? Hm]; subst; try done;
      destruct Hm as (?&?&?&?); done.
  - assert (PInv s v) as HP by (by apply pi_const).
    split; [|done]. by apply extI_setInv, PInv_to_canon.
  - assert (b = true ↔ PInv s v) as Hb.
    { rewrite IHb. split; [intros; by eapply pi_unary|].
      destruct Hm as (?&?&?&?).
      inversion 1 as [? Hh|? ? Hc'|? ? ? Hc' Ho|? ? ? ? ? Hg]; subst; try done.
      + destruct (g (canon v)); done.
      + congruence.
      + rewrite Hg in Hc. done. }
    split; [|done]. destruct b; [|done].
    eapply extI_trans; [done|]. apply extI_setInv.
    eapply PInv_keep; [done|]. by apply PInv_to_canon, Hb.
  - assert (r1 = true ↔ PInv s b) as IH1b'.
    { rewrite IH1b. split; [by apply PInv_perm, extI_ext|by apply PInv_keep]. }
    assert (extI s s2) as He2 by (by eapply extI_trans).
    assert (r0 && r1 = true ↔ PInv s v) as Hb.
    { rewrite andb_true_iff, IH0b, IH1b'. split; [intros []; by eapply pi_binary|].
      destruct Hm as (?&?&?&?).
      inversion 1 as [? Hh|? ? Hc'|? ? ? Hc' Ho|? ? ? ? ? Hg']; subst; try done.
      + rewrite Hg in Hc'. done.
      + rewrite Hg in Hc'. done.
      + rewrite Hg in Hg'. by simplify_eq. }
    split; [|done]. destruct (r0 && r1) eqn:Hr; [|done].
    apply andb_true_iff in Hr as [-> ->].
    assert (PInv s2 a) by (apply (PInv_keep s); [done|by apply IH0b]).
    assert (PInv s2 b) by (apply (PInv_keep s); [done|by apply IH1b']).
    eapply extI_trans; [done|].
    apply (extI_trans _ (setInv s2 a)); [by apply extI_setInv|].
    apply extI_setInv. eapply PInv_keep; [by apply extI_setInv|done].
  - split; [apply extI_refl|]. split; [done|].
    destruct Hm as (?&?&?&?).
    inversion 1 as [? Hh|? ? Hc'|? ? ? Hc' Ho|? ? ? ? ? Hg']; subst; try done.
    + destruct (g (canon v)); done.
    + destruct (g (canon v)); done.
    + rewrite Hg' in Hl. done.
Qed.

End Entail.

(** * The big-step reading determines the functions *)

Section Completeness.
Variable g : Graph.
Variable rank : Value → nat.
Hypothesis Hrank : ranked g rank.

Local Abbreviation canon := (canon g rank).
Local Abbreviation InvEval := (InvEval g rank).
Local Abbreviation AffEval := (AffEval g rank).
Local Abbreviation AffTest := (AffTest g rank).

Lemma isThreadInvariant_complete s v b s' :
  InvEval s v b s' →
  ∀ fuel, rank v < fuel → isThreadInvariant g fuel s v = Some (b, s').
Proof using Hrank.
  induction 1 as [s v Hh|s v Hn Hk|s v Hm Hc|s v o b s1 Hm Hc HE IH
                 |s v opc a b r0 s1 r1 s2 Hm Hg H0 IH0 H1 IH1|s v Hm Hl];
    intros [|fuel] Hf; try lia; cbn [isThreadInvariant];
    rewrite (walk_is_canon g rank Hrank) by done.
  - by rewrite decide_True.
  - rewrite decide_False by done. repeat case_decide; try done.
    exfalso. tauto.
  - destruct Hm as (?&?&?&?). rewrite !decide_False by done.
    by destruct (g (canon v)).
  - assert (rank o < fuel) as Ho.
    { assert (rank o < rank v); [|lia]. apply (operand_rank g rank Hrank).
      destruct (g (canon v)); simplify_eq/=; apply list_elem_of_here. }
    destruct Hm as (?&?&?&?). rewrite !decide_False by done.
    destruct (g (canon v)); simplify_eq/=; rewrite (IH fuel Ho); by destruct b.
  - destruct (binary_operands_below g rank Hrank v opc a b Hg) as [Hba Hbb].
    apply (below_rank g rank Hrank) in Hba, Hbb.
    assert (rank a < rank v ∧ rank b < rank v) as [Hra Hrb].
    { split; apply (operand_rank g rank Hrank); rewrite Hg; simpl;
        [apply list_elem_of_here|apply list_elem_of_further, list_elem_of_here]. }
    destruct Hm as (?&?&?&?). rewrite !decide_False by done.
    rewrite Hg, (IH0 fuel), (IH1 fuel) by lia. by destruct (r0 && r1).
  - destruct Hm as (?&?&?&?). rewrite !decide_False by done.
    by destruct (g (canon v)).
Qed.

Lemma InvEval_det s v b1 s1 b2 s2 :
  InvEval s v b1 s1 → InvEval s v b2 s2 → b1 = b2 ∧ s1 = s2.
Proof using Hrank.
  intros H1 H2.
  apply (isThreadInvariant_complete _ _ _ _) with (fuel := S (rank v)) in H1; [|lia].
  apply (isThreadInvariant_complete _ _ _ _) with (fuel := S (rank v)) in H2; [|lia].
  split; congruence.
Qed.

Lemma isAffine_complete_mut :
  (∀ s v b s', AffEval s v b s' →
     ∀ fuel, rank v < fuel → isAffine g fuel s v = Some (b, s')) ∧
  (∀ s x y r s', AffTest s x y r s' →
     ∀ fuel, rank x < fuel → rank y < fuel →
     ∃ a0 s1, isAffine g fuel s x = Some (a0, s1) ∧
       (if a0 then isThreadInvariant g fuel s1 y else Some (false, s1))
       = Some (r, s')).
Proof using Hrank.
  assert (∀ s v opc a b fuel, g (canon v) = BinaryOperator opc a b →
            rank v < S fuel →
            rank a < fuel ∧ rank b < fuel ∧
            constantExprIndex g fuel s a b
            = Some (if decide (canon a ∈ _threadIds s) then Some 1
                    else if decide (canon b ∈ _threadIds s) then Some 0
                    else None)) as Hcei.
  { intros s v opc a b fuel Hg Hf.
    assert (rank a < rank v ∧ rank b < rank v) as [Hra Hrb].
    { split; apply (operand_rank g rank Hrank); rewrite Hg; simpl;
        [apply list_elem_of_here|apply list_elem_of_further, list_elem_of_here]. }
    split; [lia|]. split; [lia|].
    destruct (constantExprIndex_total g rank Hrank fuel s a b) as [cei Hc]; [lia..|].
    rewrite Hc. f_equal. by eapply constantExprIndex_canon. }
  assert (∀ s v, missAff s (canon v) → ∀ fuel, rank v < S fuel →
            isAffine g (S fuel) s v =
            match g (canon v) with
            | BinaryOperator _ _ _ =>
                _isBinaryOperatorAffine g (isAffine g fuel) fuel s (canon v)
            | _ => Some (false, s)
            end) as Hmiss.
  { intros s v (?&?&?) fuel Hf. cbn [isAffine].
    rewrite (walk_is_canon g rank Hrank) by done.
    by rewrite !decide_False by done. }
  apply (AffEval_AffTest_ind g rank
    (λ s v b s' _, ∀ fuel, rank v < fuel → isAffine g fuel s v = Some (b, s'))
    (λ s x y r s' _, ∀ fuel, rank x < fuel → rank y < fuel →
       ∃ a0 s1, isAffine g fuel s x = Some (a0, s1) ∧
         (if a0 then isThreadInvariant g fuel s1 y else Some (false, s1))
         = Some (r, s'))).
  - intros s v Hh [|fuel] Hf; [lia|]. cbn [isAffine].
    rewrite (walk_is_canon g rank Hrank) by done. by rewrite decide_True.
  - intros s v Hn Hh [|fuel] Hf; [lia|]. cbn [isAffine].
    rewrite (walk_is_canon g rank Hrank) by done.
    rewrite decide_False by done. by rewrite decide_True.
  - intros s v Hn Hn' Hh [|fuel] Hf; [lia|]. cbn [isAffine].
    rewrite (walk_is_canon g rank Hrank) by done.
    rewrite !decide_False by done. by rewrite decide_True.
  - intros s v Hm Hb [|fuel] Hf; [lia|]. rewrite Hmiss by done.
    by destruct (g (canon v)).
  - intros s v Hm Hi [|fuel] Hf; [lia|]. rewrite Hmiss by done.
    destruct (g (canon v)) eqn:Hg;
      try (unfold idiomMatch in Hi; rewrite Hg in Hi; done).
    unfold _isBinaryOperatorAffine. rewrite Hg.
    destruct (Hcei s v _ _ _ fuel Hg Hf) as (_ & _ & ->).
    by rewrite (idiom_of_index g rank s (canon v) _ _ _ _ Hg eq_refl), Hi.
  - intros s v opc a b Hm Hg Hi Hadd [|fuel] Hf; [lia|]. rewrite Hmiss by done.
    rewrite Hg. unfold _isBinaryOperatorAffine. rewrite Hg.
    destruct (Hcei s v _ _ _ fuel Hg Hf) as (_ & _ & ->).
    rewrite (idiom_of_index g rank s (canon v) _ _ _ _ Hg eq_refl), Hi.
    by rewrite decide_False.
  - intros s v a b s2 Hm Hg Hi Ht IH [|fuel] Hf; [lia|]. rewrite Hmiss by done.
    rewrite Hg. unfold _isBinaryOperatorAffine. rewrite Hg.
    destruct (Hcei s v _ _ _ fuel Hg Hf) as (Hra & Hrb & ->).
    rewrite (idiom_of_index g rank s (canon v) _ _ _ _ Hg eq_refl), Hi.
    rewrite decide_True by done.
    destruct (IH fuel Hra Hrb) as (a0 & s1 & -> & ->). done.
  - intros s v a b s2 s4 Hm Hg Hi Ht1 IH1 Ht2 IH2 [|fuel] Hf; [lia|].
    rewrite Hmiss by done.
    rewrite Hg. unfold _isBinaryOperatorAffine. rewrite Hg.
    destruct (Hcei s v _ _ _ fuel Hg Hf) as (Hra & Hrb & ->).
    rewrite (idiom_of_index g rank s (canon v) _ _ _ _ Hg eq_refl), Hi.
    rewrite decide_True by done.
    destruct (IH1 fuel Hra Hrb) as (a0 & s1 & -> & ->).
    destruct (IH2 fuel Hrb Hra) as (a1 & s3 & -> & ->). done.
  - intros s v a b s2 s4 Hm Hg Hi Ht1 IH1 Ht2 IH2 [|fuel] Hf; [lia|].
    rewrite Hmiss by done.
    rewrite Hg. unfold _isBinaryOperatorAffine. rewrite Hg.
    destruct (Hcei s v _ _ _ fuel Hg Hf) as (Hra & Hrb & ->).
    rewrite (idiom_of_index g rank s (canon v) _ _ _ _ Hg eq_refl), Hi.
    rewrite decide_True by done.
    destruct (IH1 fuel Hra Hrb) as (a0 & s1 & -> & ->).
    destruct (IH2 fuel Hrb Hra) as (a1 & s3 & -> & ->). done.
  - intros s x y s1 HE IH fuel Hx Hy. exists false, s1. by rewrite IH.
  - intros s x y s1 r s2 HE IH HI fuel Hx Hy. exists true, s1.
    rewrite IH by done. split; [done|].
    by apply isThreadInvariant_complete.
Qed.

Lemma isAffine_complete s v b s' :
  AffEval s v b s' → ∀ fuel, rank v < fuel → isAffine g fuel s v = Some (b, s').
Proof using Hrank. apply isAffine_complete_mut. Qed.

Lemma AffEval_det s v b1 s1 b2 s2 :
  AffEval s v b1 s1 → AffEval s v b2 s2 → b1 = b2 ∧ s1 = s2.
Proof using Hrank.
  intros H1 H2.
  apply (isAffine_complete _ _ _ _) with (fuel := S (rank v)) in H1; [|lia].
  apply (isAffine_complete _ _ _ _) with (fuel := S (rank v)) in H2; [|lia].
  split; congruence.
Qed.

Lemma InvEval_total s v : ∃ b s', InvEval s v b s'.
Proof using Hrank.
  destruct (isThreadInvariant_total g rank Hrank (S (rank v)) s v) as (b & s' & H);
    [lia|].
  exists b, s'. by eapply isThreadInvariant_sound.
Qed.

Lemma AffEval_total s v : ∃ b s', AffEval s v b s'.
Proof using Hrank.
  destruct (isAffine_total g rank Hrank (S (rank v)) s v) as (b & s' & H); [lia|].
  exists b, s'. by eapply isAffine_sound.
Qed.

End Completeness.

(** * Asking [isThreadInvariant] again *)

Section InvAgain.
Variable g : Graph.
Variable rank : Value → nat.
Hypothesis Hrank : ranked g rank.

Local Abbreviation canon := (canon g rank).
Local Abbreviation InvEval := (InvEval g rank).
Local Abbreviation PInv := (PInv g rank).
Local Abbreviation extI := (extI g rank).

Lemma setInv_id s x : x ∈ _invariantValues s → setInv s x = s.
Proof.
  intros Hx. destruct s as [i a v t]. unfold setInv. simpl in *. f_equal.
  apply subseteq_union_1_L. by apply singleton_subseteq_l.
Qed.

Lemma setAff_id s x : x ∈ _affineValues s → setAff s x = s.
Proof.
  intros Hx. destruct s as [i a v t]. unfold setAff. simpl in *. f_equal.
  apply subseteq_union_1_L. by apply singleton_subseteq_l.
Qed.

Lemma InvEval_false_no_hit s v s' z :
  InvEval s v false s' → extI s' z → canon v ∉ _invariantValues z.
Proof using Hrank.
  intros HE Hz Hin. apply (InvEval_PInv g rank Hrank) in HE as [He Hb].
  assert (extI s z) as (_ & _ & _ & _ & Hn) by (by eapply extI_trans).
  assert (PInv s v) as HP; [|by apply Hb in HP].
  destruct (decide (canon v ∈ _invariantValues s)); [by apply pi_hit|].
  by apply (PInv_of_canon g rank Hrank), Hn.
Qed.

Lemma missInv_extI s z n :
  missInv s n → extI s z → n ∉ _invariantValues z → missInv z n.
Proof.
  intros (?&?&?&?) (Ht & Hv & Ha & _) ?. unfold missInv.
  rewrite Ht, Hv, Ha. done.
Qed.

(** Once [isThreadInvariant(v)] has answered, asking again in the store it
    left, or in any extension of it by entailed invariant values, gives the
    same answer and changes nothing. *)
Lemma InvEval_again s v b s' :
  InvEval s v b s' → ∀ z, extI s' z → InvEval z v b z.
Proof using Hrank.
  induction 1 as [s v Hh|s v Hn Hk|s v Hm Hc|s v o b s1 Hm Hc HE IH
                 |s v opc a b r0 s1 r1 s2 Hm Hg H0 IH0 H1 IH1|s v Hm Hl];
    intros z Hz.
  - apply ie_hit. by apply Hz.
  - pose proof (InvEval_false_no_hit s v s z (ie_known g rank s v Hn Hk) Hz).
    destruct Hz as (Ht & Hv & Ha & _). apply ie_known; [done|].
    by rewrite Ht, Hv, Ha.
  - apply ie_hit. apply Hz. unfold setInv. simpl.
    apply elem_of_union_l. by apply elem_of_singleton.
  - pose proof (ie_unary g rank s v o b s1 Hm Hc HE) as Hfull.
    destruct (InvEval_PInv g rank Hrank _ _ _ _ HE) as [He1 _].
    destruct b.
    + apply ie_hit. apply Hz. unfold setInv. simpl.
      apply elem_of_union_l. by apply elem_of_singleton.
    + pose proof (InvEval_false_no_hit s v s1 z Hfull Hz) as Hno.
      assert (extI s z) as Hsz by (by eapply extI_trans).
      pose proof (ie_unary g rank z v o false z
                    (missInv_extI _ _ _ Hm Hsz Hno) Hc (IH z Hz)) as HE'.
      exact HE'.
  - pose proof (ie_binary g rank s v opc a b r0 s1 r1 s2 Hm Hg H0 H1) as Hfull.
    destruct (InvEval_PInv g rank Hrank _ _ _ _ H0) as [He1 Hb0].
    destruct (InvEval_PInv g rank Hrank _ _ _ _ H1) as [He2 Hb1].
    assert (extI s s2) as Hs2 by (by eapply extI_trans).
    assert (extI s z ∧ extI s2 z) as [Hsz Hs2z].
    { destruct (r0 && r1) eqn:Hr; [|split; [by eapply extI_trans|done]].
      apply andb_true_iff in Hr as [-> ->].
      assert (PInv s2 a).
      { apply (PInv_keep g rank s); [done|]. by apply Hb0. }
      assert (PInv s2 b).
      { apply (PInv_keep g rank s1); [done|]. by apply Hb1. }
      assert (extI s2 z); [|split; [by eapply extI_trans|done]].
      eapply extI_trans; [done| |done].
      apply (extI_trans g rank Hrank _ (setInv s2 a)); [by apply extI_setInv|].
      apply extI_setInv. eapply PInv_keep; [by apply extI_setInv|done]. }
    assert (extI s1 z) as Hs1z by (by eapply extI_trans).
    destruct (decide (canon v ∈ _invariantValues z)) as [Hin|Hno].
    + destruct (r0 && r1) eqn:Hr; [by apply ie_hit|].
      by destruct (InvEval_false_no_hit s v s2 z Hfull Hz).
    + pose proof (ie_binary g rank z v opc a b r0 z r1 z
                    (missInv_extI _ _ _ Hm Hsz Hno) Hg (IH0 z Hs1z) (IH1 z Hs2z))
        as HE'.
      destruct (r0 && r1); [|done].
      assert (a ∈ _invariantValues z ∧ b ∈ _invariantValues z) as [Ha Hb].
      { split; apply Hz; unfold setInv; simpl.
        - apply elem_of_union_r, elem_of_union_l. by apply elem_of_singleton.
        - apply elem_of_union_l. by apply elem_of_singleton. }
      by rewrite (setInv_id z a), (setInv_id z b) in HE'.
  - pose proof (InvEval_false_no_hit s v s z (ie_other g rank s v Hm Hl) Hz).
    apply ie_other; [|done]. by eapply missInv_extI.
Qed.

End InvAgain.

(** * Asking [isAffine] again *)

Section AffAgain.
Variable g : Graph.
Variable rank : Value → nat.
Hypothesis Hrank : ranked g rank.

Local Abbreviation canon := (canon g rank).
Local Abbreviation InvEval := (InvEval g rank).
Local Abbreviation AffEval := (AffEval g rank).
Local Abbreviation AffTest := (AffTest g rank).
Local Abbreviation PInv := (PInv g rank).
Local Abbreviation PAff := (PAff g rank).
Local Abbreviation ext := (ext g rank).
Local Abbreviation extI := (extI g rank).
Local Abbreviation affFacts := (affFacts g rank).
Local Abbreviation testFacts := (testFacts g rank).

Lemma not_PInv_aff s x :
  canon x ∈ _affineValues s → canon x ∉ _invariantValues s → ¬ PInv s x.
Proof.
  intros Ha Hi HP.
  inversion HP as [? Hh|? Hm|? ? Hm|? ? ? ? Hm]; subst; try done;
    destruct Hm as (?&?&?&?); done.
Qed.

Lemma threadIds_not_binary_ext y z :
  ext y z → threadIds_not_binary g y → threadIds_not_binary g z.
Proof. intros (Ht & _) H. unfold threadIds_not_binary. by rewrite Ht. Qed.

(** Being entailed affine is gained along an extension only by values that
    were entailed invariant. *)
Lemma PAff_perm y z v :
  threadIds_not_binary g y → ext y z → PAff z v → PInv y v ∨ PAff y v.
Proof using Hrank.
  intros Htid He H.
  pose proof He as (Ht & Hv & Hi & Ha & Hni & Hna).
  induction H as [v Hh|v Hh|v Hvar Hid|v a b Hvar Hg Hpa IHa Hpb|v a b Hvar Hg Hpb IHb Hpa].
  - destruct (decide (canon v ∈ _invariantValues y)); [right; by apply pa_inv|].
    left. by apply (PInv_of_canon g rank Hrank), Hni.
  - destruct (decide (canon v ∈ _affineValues y)); [right; by apply pa_aff|].
    destruct (Hna _ Hh) as [?|?]; [done|left|right].
    + by apply (PInv_of_canon g rank Hrank).
    + by apply (PAff_of_canon g rank Hrank).
  - right. apply pa_idiom; by rewrite <- ?Hv, <- ?Ht.
  - apply (PInv_perm g rank Hrank y z) in Hpb; [|done].
    rewrite Hv in Hvar.
    destruct IHa as [Hia|Haa]; [|right; by eapply pa_add1].
    destruct (decide (canon v ∈ _invariantValues y)); [right; by apply pa_inv|].
    destruct (decide (canon v ∈ _affineValues y)); [right; by apply pa_aff|].
    left. eapply pi_binary; [|done|done|done].
    split_and!; try done. intros Hin. by eapply Htid.
  - apply (PInv_perm g rank Hrank y z) in Hpa; [|done].
    rewrite Hv in Hvar.
    destruct IHb as [Hib|Hab]; [|right; by eapply pa_add2].
    destruct (decide (canon v ∈ _invariantValues y)); [right; by apply pa_inv|].
    destruct (decide (canon v ∈ _affineValues y)); [right; by apply pa_aff|].
    left. eapply pi_binary; [|done|done|done].
    split_and!; try done. intros Hin. by eapply Htid.
Qed.

Lemma ext_trans x y z :
  threadIds_not_binary g x → ext x y → ext y z → ext x z.
Proof using Hrank.
  intros Htid Hxy Hyz.
  pose proof Hxy as (Ht1 & Hv1 & Hi1 & Ha1 & Hni1 & Hna1).
  pose proof Hyz as (Ht2 & Hv2 & Hi2 & Ha2 & Hni2 & Hna2).
  unfold ext. split_and!; try congruence.
  - by etrans.
  - by etrans.
  - intros w Hw Hnw. destruct (decide (w ∈ _invariantValues y)); [auto|].
    eapply PInv_perm; [done|done|]. auto.
  - intros w Hw Hnw. destruct (decide (w ∈ _affineValues y)); [auto|].
    destruct (Hna2 w Hw) as [HP|HP]; [done| |].
    + left. by eapply PInv_perm.
    + by eapply PAff_perm.
Qed.

Lemma ext_setAff s s2 x :
  ext s s2 → PInv s x ∨ PAff s x → ext s (setAff s2 x).
Proof.
  intros (Ht & Hv & Hi & Ha & Hni & Hna) Hx.
  unfold ext, setAff. simpl. split_and!; try done.
  - etrans; [done|]. apply union_subseteq_r.
  - intros y [->%elem_of_singleton|]%elem_of_union; auto.
Qed.

(** A call that answers "affine" either hit the memo and changed nothing,
    or put the canonical value in the affine set. *)
Lemma AffEval_true_cases s v s' :
  AffEval s v true s' →
  s' = s ∨ (canon v ∈ _affineValues s' ∧ canon v ∉ _invariantValues s').
Proof using Hrank.
  assert (∀ z, canon v ∈ _affineValues (setAff z (canon v))) as Hin.
  { intros z. unfold setAff. simpl. apply elem_of_union_l. by apply elem_of_singleton. }
  inversion 1 as [| | | |? ? Hm Hi| |? ? a b s2 Hm Hg Hi Ht
                 |? ? a b s2 s4 Hm Hg Hi Ht1 Ht2|]; subst; auto; right;
    (split; [apply Hin|]); destruct Hm as (Hni & _);
    unfold setAff; simpl; try done.
  - apply (AffTest_grows g rank Hrank) in Ht.
    destruct (operand_grows_fresh g rank Hrank v Add a b s s2 Hg Ht) as [Hf _].
    intros Hx. by apply Hni, Hf.
  - apply (AffTest_grows g rank Hrank) in Ht1, Ht2.
    assert (growsP g (λ w, below g a w ∨ below g b w) s s4) as Hgr.
    { eapply growsP_trans; [done|]. eapply growsP_mono; [|done]. intros w [?|?]; auto. }
    destruct (operand_grows_fresh g rank Hrank v Add a b s s4 Hg Hgr) as [Hf _].
    intros Hx. by apply Hni, Hf.
Qed.


Lemma AffEval_facts_mut :
  (∀ s v r s', AffEval s v r s' → threadIds_not_binary g s → affFacts s v r s') ∧
  (∀ s x y r s', AffTest s x y r s' → threadIds_not_binary g s →
     testFacts s x y r s').
Proof using Hrank.
  apply (AffEval_AffTest_ind g rank
    (λ s v r s' _, threadIds_not_binary g s → affFacts s v r s')
    (λ s x y r s' _, threadIds_not_binary g s → testFacts s x y r s')).
  - intros s v Hh Htid. split_and!; [apply ext_refl|intros _; by apply pa_inv|done].
  - intros s v Hn Hh Htid. split_and!; [apply ext_refl|intros _; by apply pa_aff|done].
  - intros s v Hn Hn' Hh Htid. split_and!; [apply ext_refl|done|done].
  - intros s v Hm Hb Htid. split_and!; [apply ext_refl|done|done].
  - intros s v Hm Hi Htid.
    assert (PAff s v) by (apply pa_idiom; [apply Hm|done]).
    split_and!; [|done|done].
    apply ext_setAff; [apply ext_refl|]. right. by apply PAff_to_canon.
  - intros s v opc a b Hm Hg Hi Hadd Htid. split_and!; [apply ext_refl|done|done].
  - intros s v a b s2 Hm Hg Hi Ht IH Htid.
    destruct (IH Htid) as (He & HT & _). destruct (HT eq_refl) as [Hpa Hpb].
    assert (PAff s v) by (eapply pa_add1; [apply Hm|done..]).
    split_and!; [|done|done].
    apply ext_setAff; [done|]. right. by apply PAff_to_canon.
  - intros s v a b s2 s4 Hm Hg Hi Ht1 IH1 Ht2 IH2 Htid.
    destruct (IH1 Htid) as (He1 & _ & _ & HB & _).
    pose proof (threadIds_not_binary_ext _ _ He1 Htid) as Htid2.
    destruct (IH2 Htid2) as (He2 & HT & _). destruct (HT eq_refl) as [Hpb Hpa].
    assert (ext s s4) as He by (by eapply ext_trans).
    assert (PAff s v) as HP.
    { assert (PInv s a) by (by apply (PInv_perm g rank Hrank s s2)).
      destruct (PAff_perm s s2 b Htid He1 Hpb) as [Hib|Hab];
        [|eapply pa_add2; [apply Hm|done..]].
      destruct (HB eq_refl) as [Haa|Hsame].
      - eapply pa_add1; [apply Hm|done..].
      - rewrite (Hsame Hpa) in Hpb. eapply pa_add2; [apply Hm|done..]. }
    split_and!; [|done|done].
    apply ext_setAff; [done|]. right. by apply PAff_to_canon.
  - intros s v a b s2 s4 Hm Hg Hi Ht1 IH1 Ht2 IH2 Htid.
    destruct (IH1 Htid) as (He1 & _ & HA1 & _).
    pose proof (threadIds_not_binary_ext _ _ He1 Htid) as Htid2.
    destruct (IH2 Htid2) as (He2 & _ & HA2 & _).
    split_and!; [by eapply ext_trans|done|].
    intros _ HP.
    pose proof (AffTest_grows g rank Hrank _ _ _ _ _ Ht1) as Hg1.
    pose proof (AffTest_grows g rank Hrank _ _ _ _ _ Ht2) as Hg2.
    assert (growsP g (λ w, below g a w ∨ below g b w) s s4) as Hgr.
    { eapply growsP_trans; [done|]. eapply growsP_mono; [|done].
      intros w [?|?]; auto. }
    destruct (operand_grows_fresh g rank Hrank v Add a b s s4 Hg Hgr) as [Hf _].
    destruct Hm as (Hni & _).
    inversion HP as [? Hh|? Hm' Hc|? ? Hm' Hc|? ? ? ? Hm' Hg' Hpa Hpb]; subst.
    + by destruct Hni; apply Hf.
    + by rewrite Hg in Hc.
    + by rewrite Hg in Hc.
    + rewrite Hg in Hg'. simplify_eq.
      assert (s4 = s2) as -> by (by apply HA2). by apply HA1.
  - intros s x y s1 HE IH Htid. destruct (IH Htid) as (He & _ & HF).
    split_and!; [done|done|auto|auto|auto].
  - intros s x y s1 r s2 HE IH HI Htid. destruct (IH Htid) as (He & HT & _).
    destruct (InvEval_PInv g rank Hrank _ _ _ _ HI) as [HeI Hr].
    apply extI_ext in HeI as HeI'.
    split_and!.
    + by eapply ext_trans.
    + intros ->. split; [auto|]. eapply PInv_perm; [done|done|by apply Hr].
    + intros -> _ Hy. apply (PInv_perm g rank Hrank s1) in Hy; [|done].
      by apply Hr in Hy.
    + intros _. left. auto.
    + intros -> Hy Hx. exfalso.
      destruct (AffEval_true_cases s x s1 HE) as [->|[Hin Hnin]].
      * by apply Hr in Hy.
      * eapply (not_PInv_aff s2 x); [| |done].
        -- by rewrite (InvEval_aff g rank _ _ _ _ HI).
        -- intros Hin2. destruct HeI as (_ & _ & _ & _ & Hnew).
           apply Hnew in Hin2; [|done].
           apply (not_PInv_aff s1 (canon x)) in Hin2; [done|..];
             by rewrite (canon_idem g rank Hrank).
Qed.

Lemma AffEval_facts s v r s' :
  AffEval s v r s' → threadIds_not_binary g s → affFacts s v r s'.
Proof using Hrank. apply AffEval_facts_mut. Qed.

Lemma AffTest_facts s x y r s' :
  AffTest s x y r s' → threadIds_not_binary g s → testFacts s x y r s'.
Proof using Hrank. apply AffEval_facts_mut. Qed.

(** After the answer "not affine" the store left behind does not entail
    that the value is affine. *)
Lemma AffEval_false_mut :
  (∀ s v r s', AffEval s v r s' → threadIds_not_binary g s →
     r = false → ¬ PAff s' v) ∧
  (∀ s x y r s', AffTest s x y r s' → threadIds_not_binary g s →
     r = false → ¬ (PAff s' x ∧ PInv s' y)).
Proof using Hrank.
  apply (AffEval_AffTest_ind g rank
    (λ s v r s' _, threadIds_not_binary g s → r = false → ¬ PAff s' v)
    (λ s x y r s' _, threadIds_not_binary g s → r = false →
       ¬ (PAff s' x ∧ PInv s' y))); try done.
  - intros s v Hn Hn' Hh _ _ HP.
    inversion HP; subst; done.
  - intros s v (Hni & Hna & Hnv) Hb _ _ HP.
    inversion HP as [| |? ? Hi|? ? ? ? Hg|? ? ? ? Hg]; subst; try done.
    + unfold idiomMatch in Hi. by destruct (g (canon v)).
    + by rewrite Hg in Hb.
    + by rewrite Hg in Hb.
  - intros s v opc a b (Hni & Hna & Hnv) Hg Hi Hadd _ _ HP.
    inversion HP as [| |? ? Hi'|? ? ? ? Hg'|? ? ? ? Hg']; subst; try done.
    + congruence.
    + rewrite Hg in Hg'. by simplify_eq.
    + rewrite Hg in Hg'. by simplify_eq.
  - intros s v a b s2 s4 (Hni & Hna & Hnv) Hg Hi Ht1 IH1 Ht2 IH2 Htid _ HP.
    destruct (AffTest_facts _ _ _ _ _ Ht1 Htid) as (He1 & _).
    pose proof (threadIds_not_binary_ext _ _ He1 Htid) as Htid2.
    destruct (AffTest_facts _ _ _ _ _ Ht2 Htid2) as (He2 & _ & _ & _ & HE).
    pose proof (AffTest_grows g rank Hrank _ _ _ _ _ Ht1) as Hg1.
    pose proof (AffTest_grows g rank Hrank _ _ _ _ _ Ht2) as Hg2.
    assert (growsP g (λ w, below g a w ∨ below g b w) s s4) as Hgr.
    { eapply growsP_trans; [done|]. eapply growsP_mono; [|done].
      intros w [?|?]; auto. }
    destruct (operand_grows_fresh g rank Hrank v Add a b s s4 Hg Hgr) as [Hfi Hfa].
    destruct Hgr as (Ht & Hv & _).
    inversion HP as [? Hh|? Hh|? ? Hi'|? a' b' ? Hg' Hpa Hpb|? a' b' ? Hg' Hpb Hpa]; subst.
    + by apply Hni, Hfi.
    + by apply Hna, Hfa.
    + rewrite Ht in Hi'. congruence.
    + rewrite Hg in Hg'. injection Hg' as <- <-.
      assert (PInv s2 b) as Hpb2 by (by apply (PInv_perm g rank Hrank s2 s4)).
      destruct (PAff_perm s2 s4 a Htid2 He2 Hpa) as [Hia|Haa].
      * assert (s4 = s2) as -> by (by apply HE).
        by apply (IH1 Htid eq_refl).
      * by apply (IH1 Htid eq_refl).
    + rewrite Hg in Hg'. injection Hg' as <- <-. by apply (IH2 Htid2 eq_refl).
  - intros s x y s1 HE IH Htid _ [HP _]. by apply (IH Htid eq_refl).
  - intros s x y s1 r s2 HE IH HI Htid -> [_ HP].
    destruct (InvEval_PInv g rank Hrank _ _ _ _ HI) as [HeI Hr].
    apply (PInv_perm g rank Hrank s1) in HP; [|by apply extI_ext].
    by apply Hr in HP.
Qed.

Lemma AffEval_false_not_PAff s v s' :
  AffEval s v false s' → threadIds_not_binary g s → ¬ PAff s' v.
Proof using Hrank. intros HE Htid. by eapply AffEval_false_mut. Qed.

Lemma AffEval_true_memo s v s' :
  AffEval s v true s' →
  canon v ∈ _invariantValues s' ∨ canon v ∈ _affineValues s'.
Proof.
  assert (∀ z, canon v ∈ _affineValues (setAff z (canon v))) as Hin.
  { intros z. unfold setAff. simpl. apply elem_of_union_l. by apply elem_of_singleton. }
  inversion 1; subst; auto.
Qed.

(** Asking [isAffine] again in the store the first call left gives the same
    answer, provided no recorded thread index is a binary operator. *)
Lemma AffEval_again s v r s' r2 s2 :
  threadIds_not_binary g s →
  AffEval s v r s' → AffEval s' v r2 s2 → r2 = r.
Proof using Hrank.
  intros Htid HE HE2. destruct r.
  - apply AffEval_true_memo in HE.
    assert (AffEval s' v true s') as HE3.
    { destruct (decide (canon v ∈ _invariantValues s')); [by apply ae_inv|].
      apply ae_aff; [done|]. by destruct HE. }
    by destruct (AffEval_det g rank Hrank _ _ _ _ _ _ HE2 HE3).
  - destruct r2; [|done]. exfalso.
    destruct (AffEval_facts _ _ _ _ HE Htid) as (He & _).
    pose proof (threadIds_not_binary_ext _ _ He Htid) as Htid2.
    destruct (AffEval_facts _ _ _ _ HE2 Htid2) as (_ & HT & _).
    by apply (AffEval_false_not_PAff s v s' HE Htid), HT.
Qed.

End AffAgain.

(** * Frames that hold on any graph *)

Section AnyGraph.
Variable g : Graph.


Lemma keeps_refl s : keeps s s.
Proof. unfold keeps. split_and!; done. Qed.

Lemma keeps_trans s1 s2 s3 : keeps s1 s2 → keeps s2 s3 → keeps s1 s3.
Proof.
  intros (?&?&?&?) (?&?&?&?). unfold keeps.
  split_and!; try congruence; by etrans.
Qed.

Lemma keeps_setInv s x : keeps s (snd (_setInvariant s x)).
Proof. unfold keeps. simpl. split_and!; try done. apply union_subseteq_r. Qed.

Lemma keeps_setAff s x : keeps s (snd (_setAffine s x)).
Proof. unfold keeps. simpl. split_and!; try done. apply union_subseteq_r. Qed.

Lemma isThreadInvariant_keeps fuel s v b s' :
  isThreadInvariant g fuel s v = Some (b, s') →
  keeps s s' ∧ _affineValues s' = _affineValues s.
Proof.
  revert s v b s'. induction fuel as [|fuel IH]; intros s v b s'; [done|].
  cbn [isThreadInvariant].
  destruct (_walk g (S fuel) v) as [n|]; [|done].
  repeat (case_decide; [intros [= <- <-]; split; [apply keeps_refl|done]|]).
  destruct (g n) eqn:Hg; try (intros [= <- <-]; split; [apply keeps_refl|done]).
  - intros [= <- <-]. split; [apply keeps_setInv|done].
  - intros [= <- <-]. split; [apply keeps_setInv|done].
  - destruct (isThreadInvariant g fuel s operand) as [[[] s1]|] eqn:Ho; [| |done];
      apply IH in Ho as [Hk Ha]; intros [= <- <-]; [|done].
    split; [|done]. eapply keeps_trans; [done|apply keeps_setInv].
  - destruct (isThreadInvariant g fuel s pointerOperand) as [[[] s1]|] eqn:Ho;
      [| |done]; apply IH in Ho as [Hk Ha]; intros [= <- <-]; [|done].
    split; [|done]. eapply keeps_trans; [done|apply keeps_setInv].
  - destruct (isThreadInvariant g fuel s operand0) as [[r0 s1]|] eqn:HI0; [|done].
    destruct (isThreadInvariant g fuel s1 operand1) as [[r1 s2]|] eqn:HI1; [|done].
    apply IH in HI0 as [Hk0 Ha0]. apply IH in HI1 as [Hk1 Ha1].
    assert (keeps s s2) by (by eapply keeps_trans).
    destruct (r0 && r1); intros [= <- <-]; [|split; [done|congruence]].
    split; [|simpl; congruence].
    eapply keeps_trans; [done|].
    apply (keeps_trans _ (snd (_setInvariant s2 operand0)));
      [exact (keeps_setInv s2 operand0)|].
    exact (keeps_setInv (snd (_setInvariant s2 operand0)) operand1).
Qed.

Lemma isAffine_keeps fuel s v b s' :
  isAffine g fuel s v = Some (b, s') → keeps s s'.
Proof.
  revert s v b s'. induction fuel as [|fuel IH]; intros s v b s'; [done|].
  cbn [isAffine].
  destruct (_walk g (S fuel) v) as [n|]; [|done].
  repeat (case_decide; [intros [= <- <-]; apply keeps_refl|]).
  destruct (g n) eqn:Hg; try (intros [= <- <-]; apply keeps_refl).
  unfold _isBinaryOperatorAffine. rewrite Hg.
  destruct (constantExprIndex g fuel s operand0 operand1) as [cei|]; [|done].
  case_match; [intros [= <- <-]; apply keeps_setAff|].
  case_decide; [|intros [= <- <-]; apply keeps_refl].
  destruct (isAffine g fuel s operand0) as [[a0 s1]|] eqn:HA0; [|done].
  apply IH in HA0.
  assert (∀ r s2, (if a0 then isThreadInvariant g fuel s1 operand1
                   else Some (false, s1)) = Some (r, s2) → keeps s s2) as Ht1.
  { intros r s2. destruct a0; [|by intros [= <- <-]].
    intros [Hk _]%isThreadInvariant_keeps. by eapply keeps_trans. }
  destruct (if a0 then isThreadInvariant g fuel s1 operand1 else Some (false, s1))
    as [[[] s2]|]; [| |done]; specialize (Ht1 _ _ eq_refl).
  { intros [= <- <-]. eapply keeps_trans; [done|apply keeps_setAff]. }
  destruct (isAffine g fuel s2 operand1) as [[a1 s3]|] eqn:HA1; [|done].
  apply IH in HA1.
  assert (∀ r s4, (if a1 then isThreadInvariant g fuel s3 operand0
                   else Some (false, s3)) = Some (r, s4) → keeps s s4) as Ht2.
  { intros r s4. destruct a1.
    - intros [Hk _]%isThreadInvariant_keeps.
      eapply keeps_trans; [done|]. by eapply keeps_trans.
    - intros [= <- <-]. by eapply keeps_trans. }
  destruct (if a1 then isThreadInvariant g fuel s3 operand0 else Some (false, s3))
    as [[[] s4]|]; [| |done]; specialize (Ht2 _ _ eq_refl); intros [= <- <-].
  - eapply keeps_trans; [done|apply keeps_setAff].
  - done.
Qed.

Lemma query_step_keeps s s' : query_step g s s' → keeps s s'.
Proof.
  intros [fuel v b H|fuel v b H].
  - by apply isThreadInvariant_keeps in H as [? _].
  - by apply isAffine_keeps in H.
Qed.

Lemma reachable_keeps s s' : reachable g s s' → keeps s s'.
Proof.
  induction 1 as [s|s1 s2 s3 Hstep _ IH]; [apply keeps_refl|].
  eapply keeps_trans; [by apply query_step_keeps|done].
Qed.

Lemma keeps_store_incl s s' : keeps s s' → store_incl s s'.
Proof. intros (Ht & Hv & ? & ?). unfold store_incl. by rewrite Ht, Hv. Qed.

End AnyGraph.

(** * The store invariant behind disjointness *)

Section StoreOk.
Variable g : Graph.
Variable rank : Value → nat.
Hypothesis Hrank : ranked g rank.

Local Abbreviation canon := (canon g rank).
Local Abbreviation InvEval := (InvEval g rank).
Local Abbreviation AffEval := (AffEval g rank).
Local Abbreviation AffTest := (AffTest g rank).
Local Abbreviation store_ok := (store_ok g).


Lemma store_ok_disjoint s : store_ok s → pairwise_disjoint s.
Proof.
  intros (H1 & H2 & H3 & H4 & _). unfold pairwise_disjoint.
  rewrite H4. split_and!; try done; apply disjoint_empty_r || apply disjoint_empty_l.
Qed.

Lemma store_ok_setInv s x :
  store_ok s → x ∉ _affineValues s → x ∉ _threadIds s → store_ok (setInv s x).
Proof.
  intros (H1 & H2 & H3 & H4 & H5 & H6) Ha Ht. unfold store_ok, setInv. simpl.
  split_and!; try done.
  - apply disjoint_union_l. split; [by apply disjoint_singleton_l|done].
  - apply disjoint_union_l. split; [by apply disjoint_singleton_l|done].
Qed.

Lemma store_ok_setAff s x :
  store_ok s → x ∉ _invariantValues s → isBinary (g x) = true →
  store_ok (setAff s x).
Proof.
  intros (H1 & H2 & H3 & H4 & H5 & H6) Hi Hb. unfold store_ok, setAff. simpl.
  split_and!; try done.
  - apply disjoint_union_r. split; [by apply disjoint_singleton_r|done].
  - apply disjoint_union_l. split; [|done]. apply disjoint_singleton_l.
    intros Ht. apply H6 in Ht as [_ Ht]. congruence.
  - intros y [->%elem_of_singleton|]%elem_of_union; auto.
Qed.

Lemma InvEval_true_cases s v s' :
  InvEval s v true s' →
  canon v ∈ _invariantValues s' ∨ missInv s (canon v).
Proof.
  assert (∀ z, canon v ∈ _invariantValues (setInv z (canon v))) as Hin.
  { intros z. unfold setInv. simpl. apply elem_of_union_l. by apply elem_of_singleton. }
  inversion 1; subst; auto.
Qed.

(** The raw operand that [isThreadInvariant] found invariant is in neither
    the affine set nor the thread indices. *)
Lemma invariant_operand_free s a s1 :
  InvEval s a true s1 → store_ok s1 →
  _affineValues s1 = _affineValues s → _threadIds s1 = _threadIds s →
  (a ∉ _affineValues s1) ∧ (a ∉ _threadIds s1).
Proof.
  intros HE (H1 & H2 & H3 & H4 & H5 & H6) Ha Ht.
  destruct (isTransparent (g a)) eqn:Htr.
  - split.
    + intros Hin. apply H5 in Hin. destruct (g a); done.
    + intros Hin. apply H6 in Hin as [Hin _]. congruence.
  - pose proof (canon_stop g rank a Htr) as Hc.
    apply InvEval_true_cases in HE. rewrite Hc in HE.
    destruct HE as [Hin|(_ & Hna & _ & Hnt)].
    + split; intros Hin'; [by apply (H1 a)|by apply (H2 a)].
    + by rewrite Ha, Ht.
Qed.

Lemma InvEval_ok s v b s' : InvEval s v b s' → store_ok s → store_ok s'.
Proof using Hrank.
  induction 1 as [s v Hh|s v Hn Hk|s v Hm Hc|s v o b s1 Hm Hc HE IH
                 |s v opc a b r0 s1 r1 s2 Hm Hg H0 IH0 H1 IH1|s v Hm Hl];
    intros Hok; try done.
  - destruct Hm as (_ & ? & _ & ?). by apply store_ok_setInv.
  - specialize (IH Hok). destruct b; [|done].
    destruct (InvEval_grows g rank Hrank _ _ _ _ HE) as (Ht & _).
    pose proof (InvEval_aff g rank _ _ _ _ HE) as Ha.
    destruct Hm as (_ & ? & _ & ?). apply store_ok_setInv; [done|..]; congruence.
  - specialize (IH0 Hok). specialize (IH1 IH0).
    destruct (r0 && r1) eqn:Hr; [|done].
    apply andb_true_iff in Hr as [-> ->].
    destruct (InvEval_grows g rank Hrank _ _ _ _ H0) as (Ht0 & _).
    pose proof (InvEval_aff g rank _ _ _ _ H0) as Ha0.
    destruct (InvEval_grows g rank Hrank _ _ _ _ H1) as (Ht1 & _).
    pose proof (InvEval_aff g rank _ _ _ _ H1) as Ha1.
    destruct (invariant_operand_free s a s1 H0 IH0 Ha0 Ht0) as [Haa Hat].
    destruct (invariant_operand_free s1 b s2 H1 IH1 Ha1 Ht1) as [Hba Hbt].
    apply store_ok_setInv; [apply store_ok_setInv; [done|..]|..];
      unfold setInv; simpl; congruence.
Qed.

Lemma AffEval_ok_mut :
  (∀ s v b s', AffEval s v b s' → store_ok s → store_ok s') ∧
  (∀ s x y b s', AffTest s x y b s' → store_ok s → store_ok s').
Proof using Hrank.
  apply (AffEval_AffTest_ind g rank
    (λ s v b s' _, store_ok s → store_ok s')
    (λ s x y b s' _, store_ok s → store_ok s')); try done.
  - intros s v (Hni & _) Hi Hok. apply store_ok_setAff; [done..|].
    unfold idiomMatch in Hi. by destruct (g (canon v)).
  - intros s v a b s2 (Hni & _) Hg Hi Ht IH Hok.
    apply (AffTest_grows g rank Hrank) in Ht.
    destruct (operand_grows_fresh g rank Hrank v Add a b s s2 Hg Ht) as [Hf _].
    apply store_ok_setAff; [auto| |by rewrite Hg]. intros Hx. by apply Hni, Hf.
  - intros s v a b s2 s4 (Hni & _) Hg Hi Ht1 IH1 Ht2 IH2 Hok.
    apply (AffTest_grows g rank Hrank) in Ht1, Ht2.
    assert (growsP g (λ w, below g a w ∨ below g b w) s s4) as Hgr.
    { eapply growsP_trans; [done|]. eapply growsP_mono; [|done].
      intros w [?|?]; auto. }
    destruct (operand_grows_fresh g rank Hrank v Add a b s s4 Hg Hgr) as [Hf _].
    apply store_ok_setAff; [auto| |by rewrite Hg]. intros Hx. by apply Hni, Hf.
  - intros s v a b s2 s4 _ _ _ _ IH1 _ IH2 Hok. auto.
  - intros s x y s1 r s2 _ IH HI Hok. eapply InvEval_ok; eauto.
Qed.

Lemma query_step_ok s s' : query_step g s s' → store_ok s → store_ok s'.
Proof using Hrank.
  intros [fuel v b H|fuel v b H] Hok.
  - eapply InvEval_ok; [|done]. by eapply isThreadInvariant_sound.
  - eapply (proj1 AffEval_ok_mut); [|done]. by eapply isAffine_sound.
Qed.

Lemma reachable_ok s s' : reachable g s s' → store_ok s → store_ok s'.
Proof using Hrank.
  induction 1 as [s|s1 s2 s3 Hstep _ IH]; [done|].
  intros Hok. apply IH. by eapply query_step_ok.
Qed.

End StoreOk.

(** * The constructor *)

Lemma seedGlobals_sets globals s :
  _invariantValues (seedGlobals globals s)
    = list_to_set globals ∪ _invariantValues s ∧
  _affineValues (seedGlobals globals s) = _affineValues s ∧
  _variantValues (seedGlobals globals s) = _variantValues s ∧
  _threadIds (seedGlobals globals s) = _threadIds s.
Proof.
  revert s. unfold seedGlobals.
  induction globals as [|x globals IH]; intros s; cbn [foldl].
  - split_and!; try done. simpl. by rewrite union_empty_l_L.
  - destruct (IH (snd (_setInvariant s x))) as (-> & -> & -> & ->). simpl.
    split_and!; try done.
    by rewrite (assoc_L (∪)), (comm_L (∪) (list_to_set globals)).
Qed.


Lemma seedArguments_sets vm args insts i s s' :
  seedArguments vm args insts i s = Some s' →
  _affineValues s' = _affineValues s ∧
  _variantValues s' = _variantValues s ∧
  _threadIds s' = _threadIds s ∧
  ∀ x, x ∈ _invariantValues s' ↔
       x ∈ _invariantValues s ∨
       ∃ k f, insts !! k = Some f ∧ (ptrThreadDescriptorArray ∉ take (S k) insts) ∧
              vm !! (i + k) = Some false ∧ x = member args f.
Proof.
  revert i s s'. induction insts as [|f insts IH]; intros i s s'; [done|].
  simpl. case_decide as Hf.
  { intros [= <-]. split_and!; try done. intros x. split; [auto|].
    intros [?|(k & f' & _ & Hnot & _)]; [done|].
    destruct Hnot. subst f. apply list_elem_of_here. }
  assert (∀ s0, seedArguments vm args insts (S i) s0 = Some s' →
     _affineValues s' = _affineValues s0 ∧
     _variantValues s' = _variantValues s0 ∧
     _threadIds s' = _threadIds s0 ∧
     ∀ x, x ∈ _invariantValues s' ↔
       x ∈ _invariantValues s0 ∨
       ∃ k f0, (f :: insts) !! S k = Some f0 ∧
               (ptrThreadDescriptorArray ∉ take (S (S k)) (f :: insts)) ∧
               vm !! (i + S k) = Some false ∧ x = member args f0) as IH'.
  { intros s0 Hs0. destruct (IH _ _ _ Hs0) as (Ha & Hv & Ht & Hi).
    split_and!; try done. intros x. rewrite Hi.
    apply or_iff_compat_l. split; intros (k & f0 & Hk & Hnot & Hvm & ->);
      exists k, f0.
    - split_and!; try done.
      + change (take (S (S k)) (f :: insts)) with (f :: take (S k) insts).
        rewrite not_elem_of_cons. by split.
      + by rewrite Nat.add_succ_r.
    - split_and!; try done.
      + change (take (S (S k)) (f :: insts)) with (f :: take (S k) insts) in Hnot.
        rewrite not_elem_of_cons in Hnot. by destruct Hnot.
      + by rewrite Nat.add_succ_r in Hvm. }
  destruct (vm !! i) as [[]|] eqn:Hvm; [| |done]; intros Hs; apply IH' in Hs
    as (Ha & Hv & Ht & Hi); split_and!; try done; intros x; rewrite Hi.
  - split.
    + intros [?|(k & f0 & ?)]; [by left|right; exists (S k), f0; done].
    + intros [?|(k & f0 & Hk & Hnot & Hvmk & ->)]; [by left|].
      destruct k as [|k]; [|right; by exists k, f0].
      rewrite Nat.add_0_r in Hvmk. congruence.
  - simpl. rewrite elem_of_union, elem_of_singleton. split.
    + intros [[->|?]|(k & f0 & ?)]; [|by left|right; exists (S k), f0; done].
      right. exists 0, f. simpl. split_and!; try done.
      * rewrite not_elem_of_cons. split; [done|]. apply not_elem_of_nil.
      * by rewrite Nat.add_0_r.
    + intros [?|(k & f0 & Hk & Hnot & Hvmk & ->)]; [by left; right|].
      destruct k as [|k]; [|right; by exists k, f0].
      simpl in Hk. injection Hk as <-. by left; left.
Qed.

Lemma ctor_sets tables globals threadArguments s :
  AffineInstructionSet_ctor tables globals threadArguments = Some s →
  _affineValues s = ∅ ∧ _variantValues s = ∅ ∧
  _threadIds s =
    (if decide (threadIdUses threadArguments = 1%Z)
     then {[member threadArguments threadId_x]} else ∅) ∧
  ∀ x, x ∈ _invariantValues s ↔
       x ∈ globals ∨ seeded_member tables threadArguments x.
Proof.
  unfold AffineInstructionSet_ctor.
  destruct (seedArguments _ _ _ _ _) as [s1|] eqn:Hs1; [|done]. simpl.
  intros [= <-]. apply seedArguments_sets in Hs1 as (Ha & Hv & Ht & Hi).
  simpl in *.
  match goal with |- context [seedGlobals globals ?z] =>
    destruct (seedGlobals_sets globals z) as (-> & -> & -> & ->) end.
  case_decide; simpl; rewrite ?Ha, ?Hv, ?Ht; (split_and!; try done).
  - by rewrite union_empty_r_L.
  - intros x. rewrite elem_of_union, elem_of_list_to_set, Hi.
    unfold seeded_member. rewrite elem_of_empty.
    split; [intros [?|[[]|?]]; [by left|by right]
           |intros [?|?]; [by left|right; by right]].
  - intros x. rewrite elem_of_union, elem_of_list_to_set, Hi.
    unfold seeded_member. rewrite elem_of_empty.
    split; [intros [?|[[]|?]]; [by left|by right]
           |intros [?|?]; [by left|right; by right]].
Qed.

(** * Graphs given as a table are ranked by the address *)

Lemma operands_precede_spec base nodes :
  operands_precede base nodes = true →
  ∀ k node o, nodes !! k = Some node → o ∈ operands node → o < base + k.
Proof.
  revert base. induction nodes as [|n nodes IH]; intros base; [done|].
  simpl. intros [Hn Hrest]%andb_true_iff k node o Hk Ho.
  destruct k as [|k]; simpl in Hk.
  - injection Hk as <-. rewrite forallb_forall in Hn.
    apply list_elem_of_In, Hn, Nat.ltb_lt in Ho. lia.
  - specialize (IH _ Hrest k node o Hk Ho). lia.
Qed.

Lemma graph_of_ranked nodes :
  operands_precede 0 nodes = true → ranked (graph_of nodes) (λ v, v).
Proof.
  intros Hp v o. unfold graph_of. destruct (nodes !! v) as [node|] eqn:Hv; simpl.
  - intros Ho. by apply (operands_precede_spec 0 nodes Hp v node o).
  - intros Ho. by apply elem_of_nil in Ho.
Qed.

(** * The index-scaling idiom *)

Lemma isAffine_binary_miss g fuel s n opc a b :
  g n = BinaryOperator opc a b →
  n ∉ _invariantValues s → n ∉ _affineValues s → n ∉ _variantValues s →
  isAffine g (S fuel) s n = _isBinaryOperatorAffine g (isAffine g fuel) fuel s n.
Proof.
  intros Hg Hi Ha Hv. cbn [isAffine _walk]. rewrite Hg.
  repeat case_decide; try done. by rewrite Hg.
Qed.

Lemma walk_constant g fuel c val :
  g c = ConstantInt val → _walk g (S fuel) c = Some c.
Proof. intros Hc. simpl. by rewrite Hc. Qed.

(** The matcher on a cache miss, in any store and on any graph.  With [t]
    the one recorded thread index and [a] an operand that canonicalises to
    [t]: [a << 2] is affine, [a * 4] and [4 * a] are affine, and each of
    these nodes is put in the affine set; [a << 3], [a * 8] and [2 << a] are
    not affine and leave the store as it was.  The nodes are not yet in any
    set, and the constants are not the thread index. *)
Lemma index_scaling_on_miss (g : Graph) (s : AffineInstructionSet)
    (t a c2 c3 c4 c8 : Value) (fuel : nat)
    (n_shl2 n_mul4 n_4mul n_shl3 n_mul8 n_2shl : Value) :
  _threadIds s = {[t]} →
  _walk g fuel a = Some t →
  g c2 = ConstantInt 2 → g c3 = ConstantInt 3 →
  g c4 = ConstantInt 4 → g c8 = ConstantInt 8 →
  c2 ≠ t → c4 ≠ t →
  g n_shl2 = BinaryOperator Shl a c2 →
  g n_mul4 = BinaryOperator Mul a c4 →
  g n_4mul = BinaryOperator Mul c4 a →
  g n_shl3 = BinaryOperator Shl a c3 →
  g n_mul8 = BinaryOperator Mul a c8 →
  g n_2shl = BinaryOperator Shl c2 a →
  Forall (λ n, ¬ classified s n)
    [n_shl2; n_mul4; n_4mul; n_shl3; n_mul8; n_2shl] →
  (isAffine g (S fuel) s n_shl2 = Some (true, snd (_setAffine s n_shl2))
   ∧ n_shl2 ∈ _affineValues (snd (_setAffine s n_shl2))) ∧
  (isAffine g (S fuel) s n_mul4 = Some (true, snd (_setAffine s n_mul4))
   ∧ n_mul4 ∈ _affineValues (snd (_setAffine s n_mul4))) ∧
  (isAffine g (S fuel) s n_4mul = Some (true, snd (_setAffine s n_4mul))
   ∧ n_4mul ∈ _affineValues (snd (_setAffine s n_4mul))) ∧
  isAffine g (S fuel) s n_shl3 = Some (false, s) ∧
  isAffine g (S fuel) s n_mul8 = Some (false, s) ∧
  isAffine g (S fuel) s n_2shl = Some (false, s).
Proof.
  intros Ht Ha H2 H3 H4 H8 Hne2 Hne4 Hshl2 Hmul4 H4mul Hshl3 Hmul8 H2shl Hfresh.
  destruct fuel as [|fuel']; [done|].
  assert (∀ n, ¬ classified s n →
            (n ∉ _invariantValues s) ∧ (n ∉ _affineValues s) ∧
            (n ∉ _variantValues s))
    as Hun.
  { intros n Hn. unfold classified in Hn. split_and!; intros ?; apply Hn; auto. }
  assert (∀ z n, n ∈ _affineValues (snd (_setAffine z n))) as Hin.
  { intros z n. simpl. apply elem_of_union_l. by apply elem_of_singleton. }
  assert (∀ c, constantExprIndex g (S fuel') s a c = Some (Some 1)) as Hleft.
  { intros c. unfold constantExprIndex. rewrite Ha. simpl.
    rewrite decide_True; [done|]. rewrite Ht. by apply elem_of_singleton. }
  assert (∀ c val, g c = ConstantInt val → c ≠ t →
            constantExprIndex g (S fuel') s c a = Some (Some 0)) as Hright.
  { intros c val Hc Hne. unfold constantExprIndex.
    rewrite (walk_constant g fuel' c val Hc). cbn [mbind option_bind].
    rewrite decide_False; [|rewrite Ht; by intros ->%elem_of_singleton].
    rewrite Ha. cbn [mbind option_bind]. rewrite decide_True; [done|].
    rewrite Ht. by apply elem_of_singleton. }
  repeat match goal with
         | H : Forall _ (_ :: _) |- _ =>
             apply Forall_cons in H as [?%Hun H]; destruct_and?
         end.
  split_and!; try apply Hin.
  - erewrite isAffine_binary_miss by done.
    unfold _isBinaryOperatorAffine. rewrite Hshl2, Hleft.
    unfold scalesIndex. simpl. by rewrite H2.
  - erewrite isAffine_binary_miss by done.
    unfold _isBinaryOperatorAffine. rewrite Hmul4, Hleft.
    unfold scalesIndex. simpl. by rewrite H4.
  - erewrite isAffine_binary_miss by done.
    unfold _isBinaryOperatorAffine. rewrite H4mul, (Hright c4 4%Z) by done.
    unfold scalesIndex. simpl. by rewrite H4.
  - erewrite isAffine_binary_miss by done.
    unfold _isBinaryOperatorAffine. rewrite Hshl3, Hleft.
    unfold scalesIndex. simpl. by rewrite H3.
  - erewrite isAffine_binary_miss by done.
    unfold _isBinaryOperatorAffine. rewrite Hmul8, Hleft.
    unfold scalesIndex. simpl. by rewrite H8.
  - erewrite isAffine_binary_miss by done.
    unfold _isBinaryOperatorAffine. rewrite H2shl, (Hright c2 2%Z) by done.
    unfold scalesIndex. simpl. by rewrite H2.
Qed.

(** * Invariant implies affine, and additive composition *)

Lemma cached_invariant_is_affine g fuel s v n :
  _walk g fuel v = Some n → n ∈ _invariantValues s →
  isAffine g fuel s v = Some (true, s).
Proof.
  intros Hw Hn. destruct fuel as [|fuel]; [done|].
  cbn [isAffine]. rewrite Hw. by rewrite decide_True.
Qed.

(** A [true] answer of [isThreadInvariant] leaves the canonical value in the
    invariant set, unless that value is a binary operator. *)
Lemma isThreadInvariant_true_cached g fuel s v n s' :
  isThreadInvariant g fuel s v = Some (true, s') → _walk g fuel v = Some n →
  n ∈ _invariantValues s' ∨ isBinary (g n) = true.
Proof.
  assert (∀ z, n ∈ _invariantValues (snd (_setInvariant z n))) as Hin.
  { intros z. simpl. apply elem_of_union_l. by apply elem_of_singleton. }
  destruct fuel as [|fuel]; [done|].
  cbn [isThreadInvariant]. intros H Hw. rewrite Hw in H.
  case_decide; [left; congruence|].
  repeat (case_decide; [done|]).
  destruct (g n); try done; try (right; reflexivity);
    try (injection H as <-; left; apply Hin).
  - destruct (isThreadInvariant g fuel s operand) as [[[] s1]|]; try done.
    injection H as <-. left. apply Hin.
  - destruct (isThreadInvariant g fuel s pointerOperand) as [[[] s1]|]; try done.
    injection H as <-. left. apply Hin.
Qed.

(** So invariant implies affine for every value that is not a binary
    operator. *)
Lemma invariant_implies_affine_unless_binary g fuel s v n s' :
  isThreadInvariant g fuel s v = Some (true, s') → _walk g fuel v = Some n →
  isBinary (g n) = false → isAffine g fuel s' v = Some (true, s').
Proof.
  intros H Hw Hb. eapply cached_invariant_is_affine; [done|].
  destruct (isThreadInvariant_true_cached g fuel s v n s' H Hw); congruence.
Qed.

(** C1. The product of two constants: [isThreadInvariant] answers [true]
    and caches the two operands but not the product; [isAffine], asked next,
    answers [false]. *)
Theorem invariant_product_not_affine :
  isThreadInvariant product_graph 2 emptyStore 2
    = Some (true, mkStore {[0; 1]} ∅ ∅ ∅) ∧
  isAffine product_graph 2 (mkStore {[0; 1]} ∅ ∅ ∅) 2
    = Some (false, mkStore {[0; 1]} ∅ ∅ ∅).
Proof. split; vm_compute; reflexivity. Qed.

(** C3. With [a = tid << 2] and [b = c3 + c4]: [isAffine(a)] and
    [isThreadInvariant(b)] both answer [true], in either order, and leave the
    same store; there [isAffine(a + b)] answers [true] but [isAffine(b + a)]
    answers [false], because its first test puts [b] in the affine set. *)
Theorem sum_of_invariant_and_affine_rejected :
  let s0 := mkStore ∅ ∅ ∅ {[0]} in
  let s2 := mkStore {[3; 4]} {[2]} ∅ {[0]} in
  (isAffine sum_graph 3 s0 2 = Some (true, mkStore ∅ {[2]} ∅ {[0]}) ∧
   isThreadInvariant sum_graph 3 (mkStore ∅ {[2]} ∅ {[0]}) 5 = Some (true, s2)) ∧
  (isThreadInvariant sum_graph 3 s0 5 = Some (true, mkStore {[3; 4]} ∅ ∅ {[0]}) ∧
   isAffine sum_graph 3 (mkStore {[3; 4]} ∅ ∅ {[0]}) 2 = Some (true, s2)) ∧
  isAffine sum_graph 3 s2 7 = Some (true, mkStore {[3; 4]} {[2; 7]} ∅ {[0]}) ∧
  isAffine sum_graph 3 s2 6 = Some (false, mkStore {[3; 4]} {[2; 5]} ∅ {[0]}).
Proof. repeat split; vm_compute; reflexivity. Qed.

(** * The constructor *)

(** C4. A kernel that references the thread-index component [y] only has
    [threadIdUses = 1], the count of the components it references.  The
    constructor then records the value of [threadId_x], which the kernel
    does not use, and not that of [threadId_y]: the branch taken is the one
    that the source remarks and reports as "only threadIdx.x is used". *)
Lemma referenced_component_not_recorded :
  ∃ s, AffineInstructionSet_ctor example_tables []
         (referencing example_members [threadId_y]) = Some s ∧
       threadIdUses (referencing example_members [threadId_y]) = 1%Z ∧
       _threadIds s = {[example_members threadId_x]} ∧
       _threadIds s ≠ {[example_members threadId_y]}.
Proof.
  eexists. split; [vm_compute; reflexivity|]. split; [reflexivity|].
  split; [reflexivity|]. intros Heq.
  assert (example_members threadId_y ∈ ({[example_members threadId_y]} : gset Value))
    as Hin by (by apply elem_of_singleton).
  rewrite <- Heq in Hin. revert Hin.
  apply (bool_decide_unpack _). vm_compute. exact I.
Qed.

(** What the constructor records, whatever the kernel references.  When
    [threadIdUses] is 1 the thread-index set is exactly the value of
    [threadId_x]; otherwise it is empty, it stays empty in every store
    reached by queries, and there the matcher finds no thread index among the
    operands of any node, so that a shift or a multiplication (any binary
    operator but an addition) that is not cached is never affine. *)
Theorem thread_index_seeding (tables : VarianceTables) (globals : list Value)
    (threadArguments : ThreadLocalArgument) (s0 : AffineInstructionSet) :
  AffineInstructionSet_ctor tables globals threadArguments = Some s0 →
  (threadIdUses threadArguments = 1%Z →
   _threadIds s0 = {[member threadArguments threadId_x]}) ∧
  (threadIdUses threadArguments ≠ 1%Z →
   _threadIds s0 = ∅ ∧
   ∀ g s, reachable g s0 s →
     _threadIds s = ∅ ∧
     (∀ fuel a b cei, constantExprIndex g fuel s a b = Some cei → cei = None) ∧
     (∀ fuel v n opc a b r s',
        _walk g fuel v = Some n → g n = BinaryOperator opc a b → opc ≠ Add →
        n ∉ _invariantValues s → n ∉ _affineValues s →
        isAffine g fuel s v = Some (r, s') → r = false)).
Proof.
  intros (_ & _ & Ht & _)%ctor_sets. split; intros Hu.
  - by rewrite decide_True in Ht.
  - rewrite decide_False in Ht by done. split; [done|].
    intros g s (Hts & _)%reachable_keeps. rewrite Ht in Hts.
    assert (∀ fuel a b cei,
              constantExprIndex g fuel s a b = Some cei → cei = None) as Hcei.
    { intros fuel a b cei. unfold constantExprIndex. rewrite Hts.
      destruct (_walk g fuel a) as [w0|]; [|done]. cbn [mbind option_bind].
      rewrite decide_False by apply not_elem_of_empty.
      destruct (_walk g fuel b) as [w1|]; [|done]. cbn [mbind option_bind].
      rewrite decide_False by apply not_elem_of_empty. congruence. }
    split_and!; [done..|].
    intros fuel v n opc a b r s' Hw Hg Hadd Hni Hna.
    destruct fuel as [|fuel]; [done|]. cbn [isAffine]. rewrite Hw.
    rewrite !decide_False by done. case_decide; [congruence|].
    rewrite Hg. unfold _isBinaryOperatorAffine. rewrite Hg.
    destruct (constantExprIndex g fuel s a b) as [cei|] eqn:Hc; [|done].
    rewrite (Hcei _ _ _ _ Hc). rewrite decide_False by done. congruence.
Qed.

Lemma thread_index_seeding_witness :
  (threadIdUses (referencing example_members [threadId_x; threadId_y]) = 1%Z →
   _threadIds (mkStore {[103; 104; 105; 106; 107; 108; 109; 110; 111]} ∅ ∅ ∅)
     = {[example_members threadId_x]}) ∧
  (threadIdUses (referencing example_members [threadId_x; threadId_y]) ≠ 1%Z →
   _threadIds (mkStore {[103; 104; 105; 106; 107; 108; 109; 110; 111]} ∅ ∅ ∅) = ∅ ∧
   ∀ g s,
     reachable g (mkStore {[103; 104; 105; 106; 107; 108; 109; 110; 111]} ∅ ∅ ∅) s →
     _threadIds s = ∅ ∧
     (∀ fuel a b cei, constantExprIndex g fuel s a b = Some cei → cei = None) ∧
     (∀ fuel v n opc a b r s',
        _walk g fuel v = Some n → g n = BinaryOperator opc a b → opc ≠ Add →
        n ∉ _invariantValues s → n ∉ _affineValues s →
        isAffine g fuel s v = Some (r, s') → r = false)).
Proof.
  apply (thread_index_seeding example_tables []
           (referencing example_members [threadId_x; threadId_y])).
  vm_compute. reflexivity.
Defined.

(** C5, as stated, fails: the entry for the thread-descriptor pointer is
    flagged constant across threads, and its value is not in the invariant
    set after construction. *)
Lemma descriptor_pointer_not_seeded :
  ∃ s, AffineInstructionSet_ctor example_tables []
         (referencing example_members [threadId_x]) = Some s ∧
       ThreadLocalArgumentInstances example_tables !! 12
         = Some ptrThreadDescriptorArray ∧
       ThreadLocalArgumentVarianceMap example_tables !! 12 = Some false ∧
       example_members ptrThreadDescriptorArray ∉ _invariantValues s.
Proof.
  eexists. split; [vm_compute; reflexivity|]. split; [reflexivity|].
  split; [reflexivity|]. simpl.
  apply (bool_decide_unpack _). vm_compute. exact I.
Qed.

(** C5, amended. Every member listed before the entry that designates the
    thread-descriptor pointer, and flagged constant across threads, is in the
    invariant set after construction; and the invariant set holds nothing
    but these members and the globals of the module. *)
Theorem invariant_argument_seeding (tables : VarianceTables)
    (globals : list Value) (threadArguments : ThreadLocalArgument)
    (s0 : AffineInstructionSet) :
  AffineInstructionSet_ctor tables globals threadArguments = Some s0 →
  (∀ k f, ThreadLocalArgumentInstances tables !! k = Some f →
          ptrThreadDescriptorArray
            ∉ take (S k) (ThreadLocalArgumentInstances tables) →
          ThreadLocalArgumentVarianceMap tables !! k = Some false →
          member threadArguments f ∈ _invariantValues s0) ∧
  (∀ x, x ∈ _invariantValues s0 →
        x ∈ globals ∨ seeded_member tables threadArguments x).
Proof.
  intros (_ & _ & _ & Hi)%ctor_sets. split.
  - intros k f Hk Hnot Hv. apply Hi. right. by exists k, f.
  - intros x Hx. by apply Hi.
Qed.

Lemma invariant_argument_seeding_witness :
  (∀ k f, ThreadLocalArgumentInstances example_tables !! k = Some f →
          ptrThreadDescriptorArray
            ∉ take (S k) (ThreadLocalArgumentInstances example_tables) →
          ThreadLocalArgumentVarianceMap example_tables !! k = Some false →
          member (referencing example_members [threadId_x]) f
            ∈ _invariantValues
                (mkStore {[103; 104; 105; 106; 107; 108; 109; 110; 111; 200]}
                         ∅ ∅ {[100]})) ∧
  (∀ x, x ∈ _invariantValues
              (mkStore {[103; 104; 105; 106; 107; 108; 109; 110; 111; 200]}
                       ∅ ∅ {[100]}) →
        x ∈ [200] ∨
        seeded_member example_tables (referencing example_members [threadId_x]) x).
Proof.
  apply (invariant_argument_seeding example_tables [200]
           (referencing example_members [threadId_x])).
  vm_compute. reflexivity.
Defined.

(** * Totality *)

Lemma isThreadInvariant_fuel g rank fuel fuel' s v :
  ranked g rank → rank v < fuel → rank v < fuel' →
  isThreadInvariant g fuel' s v = isThreadInvariant g fuel s v.
Proof.
  intros Hrank Hf Hf'.
  destruct (isThreadInvariant_total g rank Hrank fuel s v Hf) as (b & s' & H).
  rewrite H. apply (isThreadInvariant_sound g rank Hrank) in H.
  by apply (isThreadInvariant_complete g rank Hrank).
Qed.

Lemma isAffine_fuel g rank fuel fuel' s v :
  ranked g rank → rank v < fuel → rank v < fuel' →
  isAffine g fuel' s v = isAffine g fuel s v.
Proof.
  intros Hrank Hf Hf'.
  destruct (isAffine_total g rank Hrank fuel s v Hf) as (b & s' & H).
  rewrite H. apply (isAffine_sound g rank Hrank) in H.
  by apply (isAffine_complete g rank Hrank).
Qed.

(** C9. On a graph ranked by [rank] (every operand ranks below its user),
    with fuel above the rank of [v]: [_walk] returns, a value that is not a
    transparent cast and ranks no higher than [v]; [isThreadInvariant] and
    [isAffine] return a boolean, the same for any larger fuel; and on a cache
    miss a node of a kind that no rule recognises is answered [false] with
    the store unchanged. *)
Theorem queries_total (g : Graph) (rank : Value → nat) (fuel : nat)
    (s : AffineInstructionSet) (v : Value) :
  ranked g rank → rank v < fuel →
  (∃ n, _walk g fuel v = Some n ∧ rank n ≤ rank v ∧ isTransparent (g n) = false) ∧
  (∃ b s', isThreadInvariant g fuel s v = Some (b, s') ∧
           ∀ fuel', fuel ≤ fuel' → isThreadInvariant g fuel' s v = Some (b, s')) ∧
  (∃ b s', isAffine g fuel s v = Some (b, s') ∧
           ∀ fuel', fuel ≤ fuel' → isAffine g fuel' s v = Some (b, s')) ∧
  (∀ n, _walk g fuel v = Some n → ¬ classified s n →
        isLeaf (g n) = true → isThreadInvariant g fuel s v = Some (false, s)) ∧
  (∀ n, _walk g fuel v = Some n → ¬ classified s n →
        isBinary (g n) = false → isAffine g fuel s v = Some (false, s)).
Proof.
  intros Hrank Hf. split_and!.
  - destruct (walk_total g rank Hrank fuel v Hf) as (n & Hn & Hle).
    exists n. split_and!; [done..|]. by eapply walk_transparent.
  - destruct (isThreadInvariant_total g rank Hrank fuel s v Hf) as (b & s' & H).
    exists b, s'. split; [done|]. intros fuel' Hle. rewrite <- H.
    apply (isThreadInvariant_fuel g rank); [done|done|lia].
  - destruct (isAffine_total g rank Hrank fuel s v Hf) as (b & s' & H).
    exists b, s'. split; [done|]. intros fuel' Hle. rewrite <- H.
    apply (isAffine_fuel g rank); [done|done|lia].
  - intros n Hw Hn Hl. destruct fuel as [|fuel']; [done|].
    cbn [isThreadInvariant]. rewrite Hw. unfold classified in Hn.
    rewrite !decide_False by (intros ?; apply Hn; auto).
    by destruct (g n).
  - intros n Hw Hn Hl. destruct fuel as [|fuel']; [done|].
    cbn [isAffine]. rewrite Hw. unfold classified in Hn.
    rewrite !decide_False by (intros ?; apply Hn; auto).
    by destruct (g n).
Qed.

Lemma sum_graph_ranked : ranked sum_graph (λ v, v).
Proof. apply graph_of_ranked. reflexivity. Defined.

Lemma queries_total_witness :
  (∃ n, _walk sum_graph 8 7 = Some n ∧ n ≤ 7 ∧ isTransparent (sum_graph n) = false) ∧
  (∃ b s', isThreadInvariant sum_graph 8 (mkStore ∅ ∅ ∅ {[0]}) 7 = Some (b, s') ∧
           ∀ fuel', 8 ≤ fuel' →
             isThreadInvariant sum_graph fuel' (mkStore ∅ ∅ ∅ {[0]}) 7 = Some (b, s')) ∧
  (∃ b s', isAffine sum_graph 8 (mkStore ∅ ∅ ∅ {[0]}) 7 = Some (b, s') ∧
           ∀ fuel', 8 ≤ fuel' →
             isAffine sum_graph fuel' (mkStore ∅ ∅ ∅ {[0]}) 7 = Some (b, s')) ∧
  (∀ n, _walk sum_graph 8 7 = Some n → ¬ classified (mkStore ∅ ∅ ∅ {[0]}) n →
        isLeaf (sum_graph n) = true →
        isThreadInvariant sum_graph 8 (mkStore ∅ ∅ ∅ {[0]}) 7
          = Some (false, mkStore ∅ ∅ ∅ {[0]})) ∧
  (∀ n, _walk sum_graph 8 7 = Some n → ¬ classified (mkStore ∅ ∅ ∅ {[0]}) n →
        isBinary (sum_graph n) = false →
        isAffine sum_graph 8 (mkStore ∅ ∅ ∅ {[0]}) 7
          = Some (false, mkStore ∅ ∅ ∅ {[0]})).
Proof.
  apply (queries_total sum_graph (λ v, v) 8 (mkStore ∅ ∅ ∅ {[0]}) 7).
  - exact sum_graph_ranked.
  - simpl. lia.
Defined.

(** * The variant set *)

(** C10. After construction, and in every store reached from there by
    queries that return, the variant set is empty. *)
Theorem variant_set_always_empty (tables : VarianceTables)
    (globals : list Value) (threadArguments : ThreadLocalArgument)
    (g : Graph) (s0 s : AffineInstructionSet) :
  AffineInstructionSet_ctor tables globals threadArguments = Some s0 →
  reachable g s0 s →
  _variantValues s = ∅ ∧ ∀ x, x ∉ _variantValues s.
Proof.
  intros (_ & Hv & _)%ctor_sets (_ & Hvs & _)%reachable_keeps.
  rewrite Hvs, Hv. split; [done|]. intros x. apply not_elem_of_empty.
Qed.

Lemma variant_set_always_empty_witness :
  _variantValues (mkStore {[3; 4; 103; 104; 105; 106; 107; 108; 109; 110; 111]}
                          {[2; 5]} ∅ {[0]}) = ∅ ∧
  ∀ x, x ∉ _variantValues
             (mkStore {[3; 4; 103; 104; 105; 106; 107; 108; 109; 110; 111]}
                      {[2; 5]} ∅ {[0]}).
Proof.
  apply (variant_set_always_empty example_tables []
           (referencing (members_with_index 0) [threadId_x]) sum_graph
           (mkStore {[103; 104; 105; 106; 107; 108; 109; 110; 111]} ∅ ∅ {[0]})).
  - vm_compute. reflexivity.
  - eapply rtc_l; [apply (step_isAffine _ _ _ 3 2 true); vm_compute; reflexivity|].
    eapply rtc_l; [apply (step_isThreadInvariant _ _ _ 3 5 true); vm_compute; reflexivity|].
    eapply rtc_l; [apply (step_isAffine _ _ _ 3 6 false); vm_compute; reflexivity|].
    apply rtc_refl.
Defined.

(** * Binary nodes in [isThreadInvariant] *)

(** C6, as stated, fails: for [zext(c0) * c2] the call also inserts [c0],
    which is neither operand of the product. *)
Lemma operand_queries_insert_more :
  isThreadInvariant cast_graph 3 emptyStore 3
    = Some (true, mkStore {[0; 1; 2]} ∅ ∅ ∅) ∧
  cast_graph 3 = BinaryOperator Mul 1 2 ∧
  (0 ∉ _invariantValues emptyStore) ∧
  0 ∈ _invariantValues (mkStore {[0; 1; 2]} ∅ ∅ ∅).
Proof.
  split; [vm_compute; reflexivity|]. split; [reflexivity|].
  split; [apply not_elem_of_empty|].
  apply (bool_decide_unpack _). vm_compute. exact I.
Qed.

(** C6, amended. For a binary node [n], not in any set, whose two operands
    the recursive calls find invariant: [isThreadInvariant] answers [true]
    and inserts both operands as they are; [n] itself is in no set
    afterwards; the affine, variant and thread-index sets are unchanged; the
    invariant set only grows, and what it gains lies in the operand graphs
    of the two operands. *)
Theorem binary_invariant_caching (g : Graph) (rank : Value → nat) (fuel : nat)
    (s s1 s2 : AffineInstructionSet) (v n : Value) (opc : BinaryOps)
    (a b : Value) :
  ranked g rank →
  _walk g (S fuel) v = Some n → g n = BinaryOperator opc a b →
  ¬ classified s n →
  isThreadInvariant g fuel s a = Some (true, s1) →
  isThreadInvariant g fuel s1 b = Some (true, s2) →
  ∃ s', isThreadInvariant g (S fuel) s v = Some (true, s') ∧
        a ∈ _invariantValues s' ∧ b ∈ _invariantValues s' ∧
        ¬ classified s' n ∧
        _affineValues s' = _affineValues s ∧
        _variantValues s' = _variantValues s ∧
        _threadIds s' = _threadIds s ∧
        _invariantValues s ⊆ _invariantValues s' ∧
        ∀ x, x ∈ _invariantValues s' → x ∉ _invariantValues s →
             below g a x ∨ below g b x.
Proof.
  intros Hrank Hw Hg Hn Ha Hb.
  exists (snd (_setInvariant (snd (_setInvariant s2 a)) b)).
  assert (n = canon g rank v) as -> by (by eapply walk_canon).
  unfold classified in Hn.
  assert (isThreadInvariant g (S fuel) s v
          = Some (true, snd (_setInvariant (snd (_setInvariant s2 a)) b))) as Hcall.
  { cbn [isThreadInvariant]. rewrite Hw.
    rewrite !decide_False by (intros ?; apply Hn; auto).
    by rewrite Hg, Ha, Hb. }
  pose proof (isThreadInvariant_keeps g _ _ _ _ _ Ha) as [(Ht1 & Hv1 & Hi1 & _) Ha1].
  pose proof (isThreadInvariant_keeps g _ _ _ _ _ Hb) as [(Ht2 & Hv2 & Hi2 & _) Ha2].
  apply (isThreadInvariant_sound g rank Hrank) in Ha, Hb.
  apply (InvEval_grows g rank Hrank) in Ha, Hb.
  assert (growsP g (λ w, below g a w ∨ below g b w) s s2) as Hgr.
  { eapply growsP_trans; (eapply growsP_mono; [|done]); intros w ?; auto. }
  destruct (operand_grows_fresh g rank Hrank v opc a b s s2 Hg Hgr) as [Hf _].
  assert (rank a < rank (canon g rank v) ∧ rank b < rank (canon g rank v))
    as [Hra Hrb].
  { split; apply Hrank; rewrite Hg; simpl;
      [apply list_elem_of_here|apply list_elem_of_further, list_elem_of_here]. }
  split_and!; try done; simpl.
  - apply elem_of_union_r, elem_of_union_l. by apply elem_of_singleton.
  - apply elem_of_union_l. by apply elem_of_singleton.
  - unfold classified. simpl. rewrite Ha2, Ha1, Hv2, Hv1, Ht2, Ht1.
    intros [Hin|Hin]; [|apply Hn; auto].
    apply elem_of_union in Hin as [Hin|Hin];
      [apply elem_of_singleton in Hin; rewrite <- Hin in Hrb; lia|].
    apply elem_of_union in Hin as [Hin|Hin];
      [apply elem_of_singleton in Hin; rewrite <- Hin in Hra; lia|].
    apply Hn. auto.
  - congruence.
  - congruence.
  - congruence.
  - etrans; [|apply union_subseteq_r]. etrans; [|apply union_subseteq_r].
    by etrans.
  - intros x Hx Hnx. destruct Hgr as (_ & _ & _ & _ & Hnew & _).
    apply elem_of_union in Hx as [->%elem_of_singleton|Hx];
      [right; constructor|].
    apply elem_of_union in Hx as [->%elem_of_singleton|Hx];
      [left; constructor|].
    by apply Hnew.
Qed.

Lemma cast_graph_ranked : ranked cast_graph (λ v, v).
Proof. apply graph_of_ranked. reflexivity. Defined.

Lemma binary_invariant_caching_witness :
  ∃ s', isThreadInvariant cast_graph 3 emptyStore 3 = Some (true, s') ∧
        1 ∈ _invariantValues s' ∧ 2 ∈ _invariantValues s' ∧
        ¬ classified s' 3 ∧
        _affineValues s' = _affineValues emptyStore ∧
        _variantValues s' = _variantValues emptyStore ∧
        _threadIds s' = _threadIds emptyStore ∧
        _invariantValues emptyStore ⊆ _invariantValues s' ∧
        ∀ x, x ∈ _invariantValues s' → x ∉ _invariantValues emptyStore →
             below cast_graph 1 x ∨ below cast_graph 2 x.
Proof.
  apply (binary_invariant_caching cast_graph (λ v, v) 2 emptyStore
           (mkStore {[0]} ∅ ∅ ∅) (mkStore {[0; 2]} ∅ ∅ ∅) 3 3 Mul 1 2).
  - exact cast_graph_ranked.
  - reflexivity.
  - reflexivity.
  - unfold classified. simpl. intros [H|[H|[H|H]]]; by apply elem_of_empty in H.
  - vm_compute. reflexivity.
  - vm_compute. reflexivity.
Defined.

(** * Disjointness and growth *)

(** C7, as stated, fails.  With a table that flags [threadId_x] constant
    across threads, its value is in the invariant set and in the thread-index
    set right after construction.  And when the thread index is itself an
    addition of two constants, [isAffine] puts it in the affine set while it
    stays in the thread-index set. *)
Lemma store_sets_can_overlap :
  (∃ s0, AffineInstructionSet_ctor uniform_tables []
           (referencing example_members [threadId_x]) = Some s0 ∧
         ¬ pairwise_disjoint s0) ∧
  (∃ s0 s, AffineInstructionSet_ctor example_tables []
             (referencing (members_with_index 1) [threadId_x]) = Some s0 ∧
           reachable flip_graph s0 s ∧ ¬ pairwise_disjoint s).
Proof.
  split.
  - eexists. split; [vm_compute; reflexivity|].
    intros (_ & _ & Hd & _). apply (Hd 100);
      apply (bool_decide_unpack _); vm_compute; exact I.
  - eexists. eexists. split; [vm_compute; reflexivity|]. split.
    + eapply rtc_l;
        [apply (step_isThreadInvariant _ _ _ 4 0 true); vm_compute; reflexivity|].
      eapply rtc_l; [apply (step_isAffine _ _ _ 4 1 true); vm_compute; reflexivity|].
      apply rtc_refl.
    + intros (_ & _ & _ & _ & Hd & _). apply (Hd 1);
        apply (bool_decide_unpack _); vm_compute; exact I.
Qed.

(** C7, amended. On any graph and from any store, a store reached later by
    queries includes every set of an earlier one: no query removes a value
    from a set.  And when construction leaves the invariant set disjoint
    from the thread-index set and the recorded thread index is neither a
    transparent cast nor a binary operator, then on a ranked graph every
    store reached from the constructed one has its four sets pairwise
    disjoint. *)
Theorem store_disjoint_and_monotone (g : Graph) (s s' : AffineInstructionSet) :
  reachable g s s' →
  store_incl s s' ∧
  ∀ (rank : Value → nat) (tables : VarianceTables) (globals : list Value)
    (threadArguments : ThreadLocalArgument) (s0 : AffineInstructionSet),
    ranked g rank →
    AffineInstructionSet_ctor tables globals threadArguments = Some s0 →
    _invariantValues s0 ## _threadIds s0 →
    (∀ x, x ∈ _threadIds s0 →
          isTransparent (g x) = false ∧ isBinary (g x) = false) →
    reachable g s0 s →
    pairwise_disjoint s ∧ pairwise_disjoint s'.
Proof.
  intros Hr2. split.
  - by apply keeps_store_incl, (reachable_keeps g).
  - intros rank tables globals threadArguments s0 Hrank Hctor Hd Ht Hr1.
    apply ctor_sets in Hctor as (Ha & Hv & _ & _).
    assert (store_ok g s0) as Hok.
    { unfold store_ok. rewrite Ha, Hv.
      split_and!; try done; try apply disjoint_empty_r; try apply disjoint_empty_l. }
    pose proof (reachable_ok g rank Hrank _ _ Hr1 Hok) as Hok1.
    pose proof (reachable_ok g rank Hrank _ _ Hr2 Hok1) as Hok2.
    split; by apply (store_ok_disjoint g).
Qed.

Lemma store_disjoint_and_monotone_witness :
  store_incl
    (mkStore {[103; 104; 105; 106; 107; 108; 109; 110; 111]} {[2]} ∅ {[0]})
    (mkStore {[3; 4; 103; 104; 105; 106; 107; 108; 109; 110; 111]}
             {[2; 5]} ∅ {[0]}) ∧
  pairwise_disjoint
    (mkStore {[103; 104; 105; 106; 107; 108; 109; 110; 111]} {[2]} ∅ {[0]}) ∧
  pairwise_disjoint
    (mkStore {[3; 4; 103; 104; 105; 106; 107; 108; 109; 110; 111]}
             {[2; 5]} ∅ {[0]}).
Proof.
  destruct (store_disjoint_and_monotone sum_graph
              (mkStore {[103; 104; 105; 106; 107; 108; 109; 110; 111]} {[2]} ∅ {[0]})
              (mkStore {[3; 4; 103; 104; 105; 106; 107; 108; 109; 110; 111]}
                       {[2; 5]} ∅ {[0]}))
    as [Hincl Hdisjoint].
  - eapply rtc_l;
      [apply (step_isThreadInvariant _ _ _ 3 5 true); vm_compute; reflexivity|].
    eapply rtc_l; [apply (step_isAffine _ _ _ 3 6 false); vm_compute; reflexivity|].
    apply rtc_refl.
  - split; [exact Hincl|].
    apply (Hdisjoint (λ v, v) example_tables []
             (referencing (members_with_index 0) [threadId_x])
             (mkStore {[103; 104; 105; 106; 107; 108; 109; 110; 111]} ∅ ∅ {[0]})).
    + exact sum_graph_ranked.
    + vm_compute. reflexivity.
    + apply (bool_decide_unpack _). vm_compute. exact I.
    + intros x Hx. simpl in Hx. apply elem_of_singleton in Hx. subst x.
      split; reflexivity.
    + eapply rtc_l; [apply (step_isAffine _ _ _ 3 2 true); vm_compute; reflexivity|].
      apply rtc_refl.
Defined.

(** * Asking twice *)

Lemma grows_same_class g v s s' x :
  grows g v s s' → ¬ below g v x → same_class s s' x.
Proof.
  intros (Ht & Hv & Hi & Ha & Hni & Hna) Hx. unfold same_class.
  rewrite Ht, Hv. split_and!; try done.
  - split; [apply Hi|]. intros Hin.
    destruct (decide (x ∈ _invariantValues s)); [done|].
    destruct Hx. by apply Hni.
  - split; [apply Ha|]. intros Hin.
    destruct (decide (x ∈ _affineValues s)); [done|].
    destruct Hx. by apply Hna.
Qed.

(** C8, as stated, fails.  In [again_graph] the first [isAffine(5)] answers
    [false] and caches the constant [2]; the second answers [false] too but
    puts node [3], which the first call left in no set, in the affine set.
    In [flip_graph], where the thread index is an addition, the first
    [isAffine(4)] answers [false] and the second answers [true]. *)
Lemma second_isAffine_call_differs :
  (isAffine again_graph 4 (mkStore {[1]} ∅ ∅ {[0]}) 5
     = Some (false, mkStore {[1; 2]} ∅ ∅ {[0]}) ∧
   isAffine again_graph 4 (mkStore {[1; 2]} ∅ ∅ {[0]}) 5
     = Some (false, mkStore {[1; 2]} {[3]} ∅ {[0]}) ∧
   ¬ classified (mkStore {[1; 2]} ∅ ∅ {[0]}) 3 ∧
   3 ∈ _affineValues (mkStore {[1; 2]} {[3]} ∅ {[0]})) ∧
  (isAffine flip_graph 4 (mkStore {[2]} ∅ ∅ {[1]}) 4
     = Some (false, mkStore {[0; 2]} ∅ ∅ {[1]}) ∧
   isAffine flip_graph 4 (mkStore {[0; 2]} ∅ ∅ {[1]}) 4
     = Some (true, mkStore {[0; 2]} {[1; 3; 4]} ∅ {[1]})).
Proof.
  split_and!.
  - vm_compute. reflexivity.
  - vm_compute. reflexivity.
  - unfold classified. simpl. intros [H|[H|[H|H]]]; revert H;
      apply (bool_decide_unpack _); vm_compute; exact I.
  - apply (bool_decide_unpack _). vm_compute. exact I.
  - vm_compute. reflexivity.
  - vm_compute. reflexivity.
Qed.

(** C8, amended. On a ranked graph, with fuel above the rank of [v]:
    a second [isThreadInvariant(v)] gives the same answer and leaves the
    store as the first call left it; a second [isAffine(v)] returns, repeats
    a [true] answer without any change, and repeats a [false] answer as well
    when no recorded thread index is a binary operator; no call removes a
    value from a set, and a value outside the operand graph of [v] is in the
    same sets before and after each call. *)
Theorem repeated_queries (g : Graph) (rank : Value → nat) (fuel : nat)
    (s : AffineInstructionSet) (v : Value) :
  ranked g rank → rank v < fuel →
  (∀ b s1, isThreadInvariant g fuel s v = Some (b, s1) →
     isThreadInvariant g fuel s1 v = Some (b, s1) ∧
     store_incl s s1 ∧
     ∀ x, ¬ below g v x → same_class s s1 x) ∧
  (∀ b s1, isAffine g fuel s v = Some (b, s1) →
     ∃ b2 s2, isAffine g fuel s1 v = Some (b2, s2) ∧
       (b = true → b2 = true ∧ s2 = s1) ∧
       (threadIds_not_binary g s → b2 = b) ∧
       store_incl s s1 ∧ store_incl s1 s2 ∧
       ∀ x, ¬ below g v x → same_class s s1 x ∧ same_class s1 s2 x).
Proof.
  intros Hrank Hf. split.
  - intros b s1 H1.
    pose proof (isThreadInvariant_keeps g _ _ _ _ _ H1) as [Hk _].
    apply (isThreadInvariant_sound g rank Hrank) in H1.
    split_and!.
    + apply (isThreadInvariant_complete g rank Hrank); [|done].
      eapply InvEval_again; [done|done|apply extI_refl].
    + by apply keeps_store_incl.
    + intros x Hx. eapply grows_same_class; [|done].
      by eapply InvEval_grows.
  - intros b s1 H1.
    destruct (isAffine_total g rank Hrank fuel s1 v Hf) as (b2 & s2 & H2).
    exists b2, s2.
    pose proof (isAffine_keeps g _ _ _ _ _ H1) as Hk1.
    pose proof (isAffine_keeps g _ _ _ _ _ H2) as Hk2.
    apply (isAffine_sound g rank Hrank) in H1 as HE1.
    apply (isAffine_sound g rank Hrank) in H2 as HE2.
    split_and!; try done; try by apply keeps_store_incl.
    + intros ->. apply AffEval_true_memo in HE1.
      assert (AffEval g rank s1 v true s1) as HE3.
      { destruct (decide (canon g rank v ∈ _invariantValues s1));
          [by apply ae_inv|].
        apply ae_aff; [done|]. by destruct HE1. }
      by destruct (AffEval_det g rank Hrank _ _ _ _ _ _ HE2 HE3).
    + intros Htid. by eapply AffEval_again.
    + intros x Hx. split; (eapply grows_same_class; [|done]);
        by eapply AffEval_grows.
Qed.

Lemma again_graph_ranked : ranked again_graph (λ v, v).
Proof. apply graph_of_ranked. reflexivity. Defined.

Lemma repeated_queries_witness :
  (∀ b s1, isThreadInvariant again_graph 6 (mkStore {[1]} ∅ ∅ {[0]}) 5
             = Some (b, s1) →
     isThreadInvariant again_graph 6 s1 5 = Some (b, s1) ∧
     store_incl (mkStore {[1]} ∅ ∅ {[0]}) s1 ∧
     ∀ x, ¬ below again_graph 5 x → same_class (mkStore {[1]} ∅ ∅ {[0]}) s1 x) ∧
  (∀ b s1, isAffine again_graph 6 (mkStore {[1]} ∅ ∅ {[0]}) 5 = Some (b, s1) →
     ∃ b2 s2, isAffine again_graph 6 s1 5 = Some (b2, s2) ∧
       (b = true → b2 = true ∧ s2 = s1) ∧
       (threadIds_not_binary again_graph (mkStore {[1]} ∅ ∅ {[0]}) → b2 = b) ∧
       store_incl (mkStore {[1]} ∅ ∅ {[0]}) s1 ∧ store_incl s1 s2 ∧
       ∀ x, ¬ below again_graph 5 x →
            same_class (mkStore {[1]} ∅ ∅ {[0]}) s1 x ∧ same_class s1 s2 x).
Proof.
  apply (repeated_queries again_graph (λ v, v) 6 (mkStore {[1]} ∅ ∅ {[0]}) 5).
  - exact again_graph_ranked.
  - simpl. lia.
Defined.

(** * Further properties of the code *)

(** ** Canonicalisation on any graph *)

Lemma walk_fixed g fuel v n :
  _walk g fuel v = Some n → ∀ fuel', _walk g (S fuel') n = Some n.
Proof.
  intros Hw fuel'. apply walk_transparent in Hw. simpl.
  destruct (g n); try done. simpl in Hw. by rewrite Hw.
Qed.

(** X1. Whatever the graph, a value that [_walk] returns is not a cast that
    [_walk] strips, and [_walk] returns it unchanged when it is given it
    again. *)
Theorem walk_idempotent (g : Graph) (fuel : nat) (v n : Value) :
  _walk g fuel v = Some n →
  isTransparent (g n) = false ∧ ∀ fuel', _walk g (S fuel') n = Some n.
Proof.
  intros Hw. split; [by eapply walk_transparent|by eapply walk_fixed].
Qed.

Lemma walk_idempotent_witness :
  isTransparent (cast_graph 0) = false ∧
  ∀ fuel', _walk cast_graph (S fuel') 0 = Some 0.
Proof. apply (walk_idempotent cast_graph 2 1 0). reflexivity. Defined.

Lemma walk_closed_casts g (P : Value → Prop) :
  (∀ x, P x → ∃ opc si di o, g x = CastInst opc si di o ∧
                 isTransparentCast opc si di = true ∧ P o) →
  ∀ fuel v, P v → _walk g fuel v = None.
Proof.
  intros HP. induction fuel as [|fuel IH]; intros v Hv; [done|]. simpl.
  destruct (HP v Hv) as (opc & si & di & o & -> & -> & Ho). by apply IH.
Qed.

(** X2. On a set of values closed under taking the operand, all of them
    casts that [_walk] strips (a cycle of casts), the loop of [_walk] never
    finishes, and so neither query returns on such a value. *)
Theorem cast_cycle_never_returns (g : Graph) (P : Value → Prop) (v : Value)
    (fuel : nat) (s : AffineInstructionSet) :
  (∀ x, P x → ∃ opc si di o, g x = CastInst opc si di o ∧
                 isTransparentCast opc si di = true ∧ P o) →
  P v →
  _walk g fuel v = None ∧ isThreadInvariant g fuel s v = None ∧
  isAffine g fuel s v = None.
Proof.
  intros HP Hv. pose proof (walk_closed_casts g P HP fuel v Hv) as Hw.
  split_and!; [done|..]; destruct fuel as [|fuel]; try done.
  - cbn [isThreadInvariant]. by rewrite Hw.
  - cbn [isAffine]. by rewrite Hw.
Qed.

Lemma cast_cycle_never_returns_witness :
  _walk self_cast_graph 5 0 = None ∧
  isThreadInvariant self_cast_graph 5 emptyStore 0 = None ∧
  isAffine self_cast_graph 5 emptyStore 0 = None.
Proof.
  apply (cast_cycle_never_returns self_cast_graph (λ x, x = 0) 0 5 emptyStore).
  - intros x ->. exists ZExt, true, true, 0. split_and!; reflexivity.
  - reflexivity.
Defined.

(** X3. Both queries see through the casts that [_walk] strips: on such a
    cast, on its operand and on the value the operand canonicalises to they
    give the same answer and leave the same store. *)
Theorem queries_see_through_casts (g : Graph) (fuel : nat)
    (s : AffineInstructionSet) (c : Value) (opc : CastOps) (si di : bool)
    (o n : Value) :
  g c = CastInst opc si di o → isTransparentCast opc si di = true →
  _walk g fuel o = Some n →
  (isThreadInvariant g (S fuel) s c = isThreadInvariant g (S fuel) s o ∧
   isThreadInvariant g (S fuel) s o = isThreadInvariant g (S fuel) s n) ∧
  (isAffine g (S fuel) s c = isAffine g (S fuel) s o ∧
   isAffine g (S fuel) s o = isAffine g (S fuel) s n).
Proof.
  intros Hc Ht Ho.
  assert (_walk g (S fuel) c = Some n) as Hwc.
  { simpl. by rewrite Hc, Ht. }
  assert (_walk g (S fuel) o = Some n) as Hwo.
  { eapply walk_fuel_mono; [done|lia]. }
  pose proof (walk_fixed g fuel o n Ho fuel) as Hwn.
  split; split.
  - cbn [isThreadInvariant]. by rewrite Hwc, Hwo.
  - cbn [isThreadInvariant]. by rewrite Hwo, Hwn.
  - cbn [isAffine]. by rewrite Hwc, Hwo.
  - cbn [isAffine]. by rewrite Hwo, Hwn.
Qed.

Lemma queries_see_through_casts_witness :
  (isThreadInvariant dependent_graph 6 (mkStore ∅ ∅ ∅ {[0]}) 6
     = isThreadInvariant dependent_graph 6 (mkStore ∅ ∅ ∅ {[0]}) 4 ∧
   isThreadInvariant dependent_graph 6 (mkStore ∅ ∅ ∅ {[0]}) 4
     = isThreadInvariant dependent_graph 6 (mkStore ∅ ∅ ∅ {[0]}) 3) ∧
  (isAffine dependent_graph 6 (mkStore ∅ ∅ ∅ {[0]}) 6
     = isAffine dependent_graph 6 (mkStore ∅ ∅ ∅ {[0]}) 4 ∧
   isAffine dependent_graph 6 (mkStore ∅ ∅ ∅ {[0]}) 4
     = isAffine dependent_graph 6 (mkStore ∅ ∅ ∅ {[0]}) 3).
Proof.
  apply (queries_see_through_casts dependent_graph 5 (mkStore ∅ ∅ ∅ {[0]})
           6 ZExt true true 4 3); reflexivity.
Defined.

(** ** The constructor reads within its tables *)

Lemma seedArguments_defined vm args insts i s :
  i ≤ length vm →
  is_Some (seedArguments vm args insts i s) ↔
  ∃ k, insts !! k = Some ptrThreadDescriptorArray ∧
       (ptrThreadDescriptorArray ∉ take k insts) ∧ i + k ≤ length vm.
Proof.
  revert i s. induction insts as [|f rest IH]; intros i s Hi.
  - simpl. split; [by intros [? ?]|]. by intros (k & Hk & _).
  - cbn [seedArguments]. destruct (decide (f = ptrThreadDescriptorArray)) as [->|Hf].
    + split; [|by eauto]. intros _. exists 0. split_and!; [done| |lia].
      simpl. apply not_elem_of_nil.
    + assert ((∃ k, (f :: rest) !! k = Some ptrThreadDescriptorArray ∧
                    (ptrThreadDescriptorArray ∉ take k (f :: rest)) ∧
                    i + k ≤ length vm) ↔
              (∃ k, rest !! k = Some ptrThreadDescriptorArray ∧
                    (ptrThreadDescriptorArray ∉ take k rest) ∧
                    S i + k ≤ length vm)) as Hshift.
      { split.
        - intros ([|k] & Hk & Hn & Hle); [simpl in Hk; congruence|].
          exists k. split_and!; [done| |lia].
          intros Hin. apply Hn. simpl. apply elem_of_cons. by right.
        - intros (k & Hk & Hn & Hle). exists (S k). split_and!; [done| |lia].
          simpl. intros [?|?]%elem_of_cons; [congruence|done]. }
      rewrite Hshift.
      destruct (vm !! i) as [flag|] eqn:Hvm.
      * apply lookup_lt_Some in Hvm. destruct flag; apply IH; lia.
      * apply lookup_ge_None in Hvm. split; [by intros [? ?]|].
        intros (k & _ & _ & Hle). lia.
Qed.

(** X4. The constructor stays within its two tables exactly when the entry
    for [ptrThreadDescriptorArray] occurs in the instance table and the
    variance table has a flag for every entry before its first occurrence. *)
Theorem constructor_defined_iff (tables : VarianceTables)
    (globals : list Value) (threadArguments : ThreadLocalArgument) :
  is_Some (AffineInstructionSet_ctor tables globals threadArguments) ↔
  ∃ k, ThreadLocalArgumentInstances tables !! k = Some ptrThreadDescriptorArray ∧
       (ptrThreadDescriptorArray ∉ take k (ThreadLocalArgumentInstances tables)) ∧
       k ≤ length (ThreadLocalArgumentVarianceMap tables).
Proof.
  rewrite <- (seedArguments_defined (ThreadLocalArgumentVarianceMap tables)
                threadArguments (ThreadLocalArgumentInstances tables) 0 emptyStore)
    by lia.
  unfold AffineInstructionSet_ctor.
  destruct (seedArguments _ _ _ _ _) as [s1|]; simpl.
  - split; intros _; eauto.
  - split; by intros [? ?].
Qed.

(** ** Values seeded by the constructor *)

(** X5. A global, or a member that the constructor seeded, is invariant and
    affine in every store that queries reach from the constructed one, on any
    graph, and so is every value that canonicalises to it; the queries answer
    from the cache and leave the store unchanged. *)
Theorem seeded_values_stay_invariant (tables : VarianceTables)
    (globals : list Value) (threadArguments : ThreadLocalArgument)
    (g : Graph) (s0 s : AffineInstructionSet) (fuel : nat) (v x : Value) :
  AffineInstructionSet_ctor tables globals threadArguments = Some s0 →
  reachable g s0 s →
  x ∈ globals ∨ seeded_member tables threadArguments x →
  _walk g fuel v = Some x →
  isThreadInvariant g fuel s v = Some (true, s) ∧
  isAffine g fuel s v = Some (true, s).
Proof.
  intros (_ & _ & _ & Hi)%ctor_sets (_ & _ & Hinc & _)%reachable_keeps Hx Hw.
  assert (x ∈ _invariantValues s) as Hin by (by apply Hinc, Hi).
  destruct fuel as [|fuel]; [done|]. split.
  - cbn [isThreadInvariant]. rewrite Hw. by rewrite decide_True.
  - cbn [isAffine]. rewrite Hw. by rewrite decide_True.
Qed.

Lemma seeded_values_stay_invariant_witness :
  isThreadInvariant sum_graph 1
    (mkStore {[3; 4; 103; 104; 105; 106; 107; 108; 109; 110; 111]} {[2]} ∅ {[0]})
    103
  = Some (true,
      mkStore {[3; 4; 103; 104; 105; 106; 107; 108; 109; 110; 111]} {[2]} ∅ {[0]}) ∧
  isAffine sum_graph 1
    (mkStore {[3; 4; 103; 104; 105; 106; 107; 108; 109; 110; 111]} {[2]} ∅ {[0]})
    103
  = Some (true,
      mkStore {[3; 4; 103; 104; 105; 106; 107; 108; 109; 110; 111]} {[2]} ∅ {[0]}).
Proof.
  apply (seeded_values_stay_invariant example_tables []
           (referencing (members_with_index 0) [threadId_x]) sum_graph
           (mkStore {[103; 104; 105; 106; 107; 108; 109; 110; 111]} ∅ ∅ {[0]})
           _ 1 103 103).
  - vm_compute. reflexivity.
  - eapply rtc_l; [apply (step_isAffine _ _ _ 3 2 true); vm_compute; reflexivity|].
    eapply rtc_l; [apply (step_isThreadInvariant _ _ _ 3 5 true); vm_compute; reflexivity|].
    apply rtc_refl.
  - right. exists 3, blockDim_x. split_and!; try reflexivity.
    apply (bool_decide_unpack _). vm_compute. exact I.
  - reflexivity.
Defined.

(** ** What [isThreadInvariant] leaves alone *)

(** X6. On any graph and in any store, a call of [isThreadInvariant] that
    returns leaves the affine set, the variant set and the thread indices
    exactly as they were, and removes nothing from the invariant set. *)
Theorem isThreadInvariant_changes_invariant_set_only (g : Graph) (fuel : nat)
    (s : AffineInstructionSet) (v : Value) (b : bool) (s' : AffineInstructionSet) :
  isThreadInvariant g fuel s v = Some (b, s') →
  _affineValues s' = _affineValues s ∧ _variantValues s' = _variantValues s ∧
  _threadIds s' = _threadIds s ∧ _invariantValues s ⊆ _invariantValues s'.
Proof.
  intros [(Ht & Hv & Hi & _) Ha]%isThreadInvariant_keeps. done.
Qed.

Lemma isThreadInvariant_changes_invariant_set_only_witness :
  _affineValues (mkStore {[3; 4]} {[2]} ∅ {[0]})
    = _affineValues (mkStore ∅ {[2]} ∅ {[0]}) ∧
  _variantValues (mkStore {[3; 4]} {[2]} ∅ {[0]})
    = _variantValues (mkStore ∅ {[2]} ∅ {[0]}) ∧
  _threadIds (mkStore {[3; 4]} {[2]} ∅ {[0]})
    = _threadIds (mkStore ∅ {[2]} ∅ {[0]}) ∧
  _invariantValues (mkStore ∅ {[2]} ∅ {[0]})
    ⊆ _invariantValues (mkStore {[3; 4]} {[2]} ∅ {[0]}).
Proof.
  apply (isThreadInvariant_changes_invariant_set_only sum_graph 3
           (mkStore ∅ {[2]} ∅ {[0]}) 5 true).
  vm_compute. reflexivity.
Defined.

(** ** Answers that last *)

Lemma isAffine_true_cached g fuel s v n s' :
  isAffine g fuel s v = Some (true, s') → _walk g fuel v = Some n →
  n ∈ _invariantValues s' ∨ n ∈ _affineValues s'.
Proof.
  assert (∀ z, n ∈ _affineValues (snd (_setAffine z n))) as Hin.
  { intros z. simpl. apply elem_of_union_l. by apply elem_of_singleton. }
  destruct fuel as [|fuel]; [done|].
  cbn [isAffine]. intros H Hw. rewrite Hw in H.
  case_decide; [left; congruence|].
  case_decide; [right; congruence|].
  case_decide; [done|].
  destruct (g n) eqn:Hg; try done.
  unfold _isBinaryOperatorAffine in H. rewrite Hg in H.
  destruct (constantExprIndex g fuel s operand0 operand1) as [cei|]; [|done].
  case_match; [injection H as <-; right; apply Hin|].
  case_decide; [|done].
  destruct (isAffine g fuel s operand0) as [[a0 s1]|]; [|done].
  destruct (if a0 then isThreadInvariant g fuel s1 operand1 else Some (false, s1))
    as [[[] s2]|]; [| |done].
  { injection H as <-. right. apply Hin. }
  destruct (isAffine g fuel s2 operand1) as [[a1 s3]|]; [|done].
  destruct (if a1 then isThreadInvariant g fuel s3 operand0 else Some (false, s3))
    as [[[] s4]|]; [| |done]; [|done].
  injection H as <-. right. apply Hin.
Qed.

(** X7. Once [isAffine] has answered [true] for a value, it answers [true]
    for it in every store reached by later queries, whatever they were, and
    leaves that store unchanged. *)
Theorem affine_answer_is_permanent (g : Graph) (fuel : nat)
    (s s1 s2 : AffineInstructionSet) (v : Value) :
  isAffine g fuel s v = Some (true, s1) → reachable g s1 s2 →
  isAffine g fuel s2 v = Some (true, s2).
Proof.
  intros H (_ & _ & Hi & Ha)%reachable_keeps.
  destruct (_walk g fuel v) as [n|] eqn:Hw.
  - destruct (isAffine_true_cached g fuel s v n s1 H Hw) as [Hn|Hn].
    + by eapply cached_invariant_is_affine; [|apply Hi].
    + destruct fuel as [|fuel]; [done|]. cbn [isAffine]. rewrite Hw.
      case_decide; [done|]. rewrite decide_True; [done|by apply Ha].
  - destruct fuel as [|fuel]; [done|]. cbn [isAffine] in H. by rewrite Hw in H.
Qed.

Lemma affine_answer_is_permanent_witness :
  isAffine sum_graph 3 (mkStore {[3; 4]} {[2; 5]} ∅ {[0]}) 2
  = Some (true, mkStore {[3; 4]} {[2; 5]} ∅ {[0]}).
Proof.
  apply (affine_answer_is_permanent sum_graph 3 (mkStore ∅ ∅ ∅ {[0]})
           (mkStore ∅ {[2]} ∅ {[0]})).
  - vm_compute. reflexivity.
  - eapply rtc_l; [apply (step_isThreadInvariant _ _ _ 3 5 true); vm_compute; reflexivity|].
    eapply rtc_l; [apply (step_isAffine _ _ _ 3 6 false); vm_compute; reflexivity|].
    apply rtc_refl.
Defined.

(** ** The addition rule on cached operands *)

Lemma cached_invariant_is_invariant g fuel s v n :
  _walk g fuel v = Some n → n ∈ _invariantValues s →
  isThreadInvariant g fuel s v = Some (true, s).
Proof.
  intros Hw Hn. destruct fuel as [|fuel]; [done|].
  cbn [isThreadInvariant]. rewrite Hw. by rewrite decide_True.
Qed.

Lemma cached_is_affine g fuel s v n :
  _walk g fuel v = Some n → n ∈ _invariantValues s ∨ n ∈ _affineValues s →
  isAffine g fuel s v = Some (true, s).
Proof.
  intros Hw Hn. destruct fuel as [|fuel]; [done|].
  cbn [isAffine]. rewrite Hw. case_decide; [done|].
  rewrite decide_True; [done|]. by destruct Hn.
Qed.

Lemma cached_affine_is_not_invariant g fuel s v n :
  _walk g fuel v = Some n → n ∉ _invariantValues s → n ∈ _affineValues s →
  isThreadInvariant g fuel s v = Some (false, s).
Proof.
  intros Hw Hi Ha. destruct fuel as [|fuel]; [done|].
  cbn [isThreadInvariant]. rewrite Hw.
  rewrite decide_False by done. by rewrite decide_True.
Qed.

Lemma isAffine_sum_of_cached g fuel s n a b na nb :
  g n = BinaryOperator Add a b →
  n ∉ _invariantValues s → n ∉ _affineValues s → n ∉ _variantValues s →
  _walk g fuel a = Some na → _walk g fuel b = Some nb →
  ((na ∈ _invariantValues s ∨ na ∈ _affineValues s) ∧ nb ∈ _invariantValues s) ∨
  (na ∈ _invariantValues s ∧ (nb ∈ _invariantValues s ∨ nb ∈ _affineValues s)) →
  isAffine g (S fuel) s n = Some (true, snd (_setAffine s n)).
Proof.
  intros Hg Hni Hna Hnv Hwa Hwb Hcase.
  erewrite isAffine_binary_miss by done.
  unfold _isBinaryOperatorAffine. rewrite Hg.
  assert (∃ cei, constantExprIndex g fuel s a b = Some cei) as [cei ->].
  { unfold constantExprIndex. rewrite Hwa. cbn [mbind option_bind].
    case_decide; [by eexists|]. rewrite Hwb. cbn [mbind option_bind].
    case_decide; by eexists. }
  case_match; [done|]. rewrite decide_True by done.
  assert (isAffine g fuel s a = Some (true, s)) as ->.
  { eapply cached_is_affine; [done|]. destruct Hcase as [[? _]|[? _]]; auto. }
  destruct (decide (nb ∈ _invariantValues s)) as [Hb|Hb].
  { by rewrite (cached_invariant_is_invariant g fuel s b nb). }
  destruct Hcase as [[_ ?]|[Ha [?|Hb']]]; try done.
  rewrite (cached_affine_is_not_invariant g fuel s b nb) by done.
  rewrite (cached_is_affine g fuel s b nb) by auto.
  by rewrite (cached_invariant_is_invariant g fuel s a na).
Qed.



(** X9. The order of the queries decides the answer for a sum of two
    cached invariant values that is in no set yet: [isThreadInvariant]
    answers [true] for it; but [isAffine], asked first, puts the sum in the
    affine set, and [isThreadInvariant] then answers [false]. *)
Theorem isAffine_first_hides_invariance (g : Graph) (fuel : nat)
    (s : AffineInstructionSet) (n a b na nb : Value) :
  g n = BinaryOperator Add a b → ¬ classified s n →
  _walk g fuel a = Some na → _walk g fuel b = Some nb →
  na ∈ _invariantValues s → nb ∈ _invariantValues s →
  isThreadInvariant g (S fuel) s n
    = Some (true, snd (_setInvariant (snd (_setInvariant s a)) b)) ∧
  isAffine g (S fuel) s n = Some (true, snd (_setAffine s n)) ∧
  isThreadInvariant g (S fuel) (snd (_setAffine s n)) n
    = Some (false, snd (_setAffine s n)).
Proof.
  intros Hg Hn Hwa Hwb Ha Hb. unfold classified in Hn.
  assert (_walk g (S fuel) n = Some n) as Hwn by (simpl; by rewrite Hg).
  split_and!.
  - cbn [isThreadInvariant]. rewrite Hwn.
    rewrite !decide_False by (intros ?; apply Hn; auto). rewrite Hg.
    rewrite (cached_invariant_is_invariant g fuel s a na) by done.
    by rewrite (cached_invariant_is_invariant g fuel s b nb).
  - eapply isAffine_sum_of_cached; try done; try (intros ?; apply Hn; auto).
    auto.
  - apply (cached_affine_is_not_invariant g (S fuel) _ n n); [done|..]; simpl.
    + intros ?. apply Hn. auto.
    + apply elem_of_union_l. by apply elem_of_singleton.
Qed.

Lemma isAffine_first_hides_invariance_witness :
  isThreadInvariant sum_graph 2 (mkStore {[3; 4]} ∅ ∅ {[0]}) 5
    = Some (true, snd (_setInvariant
                         (snd (_setInvariant (mkStore {[3; 4]} ∅ ∅ {[0]}) 3)) 4)) ∧
  isAffine sum_graph 2 (mkStore {[3; 4]} ∅ ∅ {[0]}) 5
    = Some (true, snd (_setAffine (mkStore {[3; 4]} ∅ ∅ {[0]}) 5)) ∧
  isThreadInvariant sum_graph 2 (snd (_setAffine (mkStore {[3; 4]} ∅ ∅ {[0]}) 5)) 5
    = Some (false, snd (_setAffine (mkStore {[3; 4]} ∅ ∅ {[0]}) 5)).
Proof.
  apply (isAffine_first_hides_invariance sum_graph 1
           (mkStore {[3; 4]} ∅ ∅ {[0]}) 5 3 4 3 4); try reflexivity;
    apply (bool_decide_unpack _); vm_compute; exact I.
Defined.

(** ** Constants *)

(** X10. A constant that is in no set yet is not affine for [isAffine],
    which leaves the store as it is; [isThreadInvariant] answers [true] for
    it and caches it, and from then on [isAffine] answers [true]. *)
Theorem fresh_constant_is_not_affine (g : Graph) (fuel : nat)
    (s : AffineInstructionSet) (v c : Value) :
  _walk g fuel v = Some c → isConstant (g c) = true → ¬ classified s c →
  isAffine g fuel s v = Some (false, s) ∧
  isThreadInvariant g fuel s v = Some (true, snd (_setInvariant s c)) ∧
  isAffine g fuel (snd (_setInvariant s c)) v
    = Some (true, snd (_setInvariant s c)).
Proof.
  intros Hw Hc Hn. unfold classified in Hn.
  destruct fuel as [|fuel]; [done|]. split_and!.
  - cbn [isAffine]. rewrite Hw.
    rewrite !decide_False by (intros ?; apply Hn; auto). by destruct (g c).
  - cbn [isThreadInvariant]. rewrite Hw.
    rewrite !decide_False by (intros ?; apply Hn; auto). by destruct (g c).
  - eapply cached_invariant_is_affine; [done|]. simpl.
    apply elem_of_union_l. by apply elem_of_singleton.
Qed.

Lemma fresh_constant_is_not_affine_witness :
  isAffine cast_graph 2 emptyStore 1 = Some (false, emptyStore) ∧
  isThreadInvariant cast_graph 2 emptyStore 1
    = Some (true, snd (_setInvariant emptyStore 0)) ∧
  isAffine cast_graph 2 (snd (_setInvariant emptyStore 0)) 1
    = Some (true, snd (_setInvariant emptyStore 0)).
Proof.
  apply (fresh_constant_is_not_affine cast_graph 2 emptyStore 1 0);
    try reflexivity.
  unfold classified. simpl. intros [H|[H|[H|H]]]; by apply elem_of_empty in H.
Defined.

(** ** What the affine set can hold *)

Lemma scalesIndex_affineShape g n opc a b idx :
  g n = BinaryOperator opc a b → scalesIndex g opc a b idx = true →
  affineShape g n = true.
Proof.
  intros Hg. unfold scalesIndex, affineShape. rewrite Hg.
  destruct (decide (idx = 0)) as [->|Hidx].
  - destruct (g a) as [val| | | | | |]; try done.
    destruct opc; simpl; rewrite ?andb_false_r; try done.
    simpl. by intros ->.
  - destruct (g b) as [val| | | | | |]; try done.
    destruct opc; simpl; rewrite ?andb_false_r; try done.
    + intros ->. apply orb_true_r.
    + rewrite !orb_false_r. by intros [-> _]%andb_true_iff.
Qed.

Lemma add_affineShape g n a b :
  g n = BinaryOperator Add a b → affineShape g n = true.
Proof. intros Hg. unfold affineShape. by rewrite Hg. Qed.

Lemma isAffine_affineShape g fuel s v b s' :
  isAffine g fuel s v = Some (b, s') →
  ∀ x, x ∈ _affineValues s' → x ∈ _affineValues s ∨ affineShape g x = true.
Proof.
  revert s v b s'. induction fuel as [|fuel IH]; intros s v b s'; [done|].
  cbn [isAffine].
  destruct (_walk g (S fuel) v) as [n|]; [|done].
  repeat (case_decide; [intros [= <- <-]; auto|]).
  destruct (g n) eqn:Hg; try (intros [= <- <-]; auto).
  assert (∀ z, (∀ x, x ∈ _affineValues z →
                     x ∈ _affineValues s ∨ affineShape g x = true) →
               affineShape g n = true →
               ∀ x, x ∈ _affineValues (snd (_setAffine z n)) →
                    x ∈ _affineValues s ∨ affineShape g x = true) as Hset.
  { intros z Hz Hn x. simpl.
    intros [->%elem_of_singleton|Hx]%elem_of_union; auto. }
  unfold _isBinaryOperatorAffine. rewrite Hg.
  destruct (constantExprIndex g fuel s operand0 operand1) as [cei|]; [|done].
  case_match eqn:Hsc.
  { intros [= <- <-]. apply Hset; [auto|]. destruct cei as [idx|]; [|done].
    by eapply scalesIndex_affineShape. }
  case_decide as Hadd; [subst opc|intros [= <- <-]; auto].
  pose proof (add_affineShape g n _ _ Hg) as Hshape.
  destruct (isAffine g fuel s operand0) as [[a0 s1]|] eqn:HA0; [|done].
  pose proof (IH _ _ _ _ HA0) as Hq1.
  assert (∀ r s2, (if a0 then isThreadInvariant g fuel s1 operand1
                   else Some (false, s1)) = Some (r, s2) →
            ∀ x, x ∈ _affineValues s2 →
                 x ∈ _affineValues s ∨ affineShape g x = true) as Ht1.
  { intros r s2. destruct a0; [|by intros [= <- <-]].
    intros [_ Ha]%isThreadInvariant_keeps. by rewrite Ha. }
  destruct (if a0 then isThreadInvariant g fuel s1 operand1 else Some (false, s1))
    as [[[] s2]|]; [| |done]; specialize (Ht1 _ _ eq_refl).
  { intros [= <- <-]. by apply Hset. }
  destruct (isAffine g fuel s2 operand1) as [[a1 s3]|] eqn:HA1; [|done].
  pose proof (IH _ _ _ _ HA1) as H3'.
  assert (∀ x, x ∈ _affineValues s3 →
               x ∈ _affineValues s ∨ affineShape g x = true) as H3.
  { intros x Hx. destruct (H3' x Hx); auto. }
  assert (∀ r s4, (if a1 then isThreadInvariant g fuel s3 operand0
                   else Some (false, s3)) = Some (r, s4) →
            ∀ x, x ∈ _affineValues s4 →
                 x ∈ _affineValues s ∨ affineShape g x = true) as Ht2.
  { intros r s4. destruct a1; [|by intros [= <- <-]].
    intros [_ Ha]%isThreadInvariant_keeps. by rewrite Ha. }
  destruct (if a1 then isThreadInvariant g fuel s3 operand0 else Some (false, s3))
    as [[[] s4]|]; [| |done]; specialize (Ht2 _ _ eq_refl); intros [= <- <-].
  - by apply Hset.
  - done.
Qed.

Lemma reachable_affineShape g s0 s :
  reachable g s0 s →
  ∀ x, x ∈ _affineValues s → x ∈ _affineValues s0 ∨ affineShape g x = true.
Proof.
  induction 1 as [s|s1 s2 s3 Hstep _ IH]; [auto|].
  intros x Hx. destruct (IH x Hx) as [Hx2|]; [|auto].
  destruct Hstep as [fuel v b H|fuel v b H].
  - apply isThreadInvariant_keeps in H as [_ Ha]. rewrite Ha in Hx2. auto.
  - by eapply isAffine_affineShape.
Qed.

Lemma affineShape_binary g x : affineShape g x = true → isBinary (g x) = true.
Proof. unfold affineShape. by destruct (g x). Qed.

(** X11. On any graph, a value that queries have added to the affine set is
    an addition, a shift whose second operand is the integer constant 2, or
    a multiplication with the integer constant 4 as an operand; no other
    kind of value is ever marked affine. *)
Theorem affine_set_holds_sums_and_scalings (g : Graph)
    (s0 s : AffineInstructionSet) (x : Value) :
  reachable g s0 s → x ∈ _affineValues s → x ∉ _affineValues s0 →
  affineShape g x = true.
Proof.
  intros Hr Hx Hx0. by destruct (reachable_affineShape g s0 s Hr x Hx).
Qed.

Lemma affine_set_holds_sums_and_scalings_witness :
  affineShape sum_graph 2 = true.
Proof.
  apply (affine_set_holds_sums_and_scalings sum_graph (mkStore ∅ ∅ ∅ {[0]})
           (mkStore {[3; 4]} {[2; 7]} ∅ {[0]}) 2).
  - eapply rtc_l; [apply (step_isAffine _ _ _ 4 7 true); vm_compute; reflexivity|].
    apply rtc_refl.
  - apply (bool_decide_unpack _). vm_compute. exact I.
  - apply (bool_decide_unpack _). vm_compute. exact I.
Defined.

(** X12. After construction a constant is always invariant: in every store
    that queries reach, on any graph, [isThreadInvariant] answers [true] for
    a value that canonicalises to a constant other than the recorded thread
    index, and leaves the constant in the invariant set, inserting it if it
    was not there; [isAffine], asked next, answers [true] as well. *)
Theorem constants_are_invariant (tables : VarianceTables)
    (globals : list Value) (threadArguments : ThreadLocalArgument)
    (g : Graph) (s0 s : AffineInstructionSet) (fuel : nat) (v c : Value) :
  AffineInstructionSet_ctor tables globals threadArguments = Some s0 →
  reachable g s0 s →
  _walk g fuel v = Some c → isConstant (g c) = true → c ∉ _threadIds s0 →
  ∃ s', isThreadInvariant g fuel s v = Some (true, s') ∧
        (s' = s ∨ s' = snd (_setInvariant s c)) ∧
        c ∈ _invariantValues s' ∧
        isAffine g fuel s' v = Some (true, s').
Proof.
  intros Hctor Hr Hw Hc Ht.
  apply ctor_sets in Hctor as (Ha0 & Hv0 & _ & _).
  pose proof (reachable_keeps g _ _ Hr) as (Hts & Hvs & _ & _).
  assert (c ∉ _affineValues s) as Ha.
  { intros Hin. destruct (reachable_affineShape g s0 s Hr c Hin) as [Hin0|Hsh].
    - rewrite Ha0 in Hin0. by apply elem_of_empty in Hin0.
    - apply affineShape_binary in Hsh. destruct (g c); done. }
  assert (c ∉ _variantValues s) as Hv.
  { rewrite Hvs, Hv0. apply not_elem_of_empty. }
  assert (c ∉ _threadIds s) as Htid by (by rewrite Hts).
  destruct (decide (c ∈ _invariantValues s)) as [Hin|Hin].
  - exists s. split_and!; [|by left|done|].
    + by eapply cached_invariant_is_invariant.
    + by eapply cached_invariant_is_affine.
  - assert (c ∈ _invariantValues (snd (_setInvariant s c))) as Hin'.
    { simpl. apply elem_of_union_l. by apply elem_of_singleton. }
    exists (snd (_setInvariant s c)). split_and!; [|by right|done|].
    + destruct fuel as [|fuel]; [done|]. cbn [isThreadInvariant]. rewrite Hw.
      rewrite !decide_False by done. by destruct (g c).
    + by eapply cached_invariant_is_affine.
Qed.

Lemma constants_are_invariant_witness :
  ∃ s', isThreadInvariant sum_graph 1
          (mkStore {[103; 104; 105; 106; 107; 108; 109; 110; 111]} {[2]} ∅ {[0]}) 3
        = Some (true, s') ∧
        (s' = mkStore {[103; 104; 105; 106; 107; 108; 109; 110; 111]} {[2]} ∅ {[0]}
         ∨ s' = snd (_setInvariant
                  (mkStore {[103; 104; 105; 106; 107; 108; 109; 110; 111]}
                           {[2]} ∅ {[0]}) 3)) ∧
        3 ∈ _invariantValues s' ∧
        isAffine sum_graph 1 s' 3 = Some (true, s').
Proof.
  apply (constants_are_invariant example_tables []
           (referencing (members_with_index 0) [threadId_x]) sum_graph
           (mkStore {[103; 104; 105; 106; 107; 108; 109; 110; 111]} ∅ ∅ {[0]})
           _ 1 3 3).
  - vm_compute. reflexivity.
  - eapply rtc_l; [apply (step_isAffine _ _ _ 3 2 true); vm_compute; reflexivity|].
    apply rtc_refl.
  - reflexivity.
  - reflexivity.
  - apply (bool_decide_unpack _). vm_compute. exact I.
Defined.

(** ** What later queries cannot undo, on ranked graphs *)

Section Permanence.
Variable g : Graph.
Variable rank : Value → nat.
Hypothesis Hrank : ranked g rank.

Local Abbreviation canon := (canon g rank).
Local Abbreviation InvEval := (InvEval g rank).
Local Abbreviation AffEval := (AffEval g rank).
Local Abbreviation AffTest := (AffTest g rank).
Local Abbreviation PInv := (PInv g rank).
Local Abbreviation extI := (extI g rank).
Local Abbreviation extW := (extW g rank).

Lemma missInv_keeps y z n : keeps y z → missInv z n → missInv y n.
Proof.
  intros (Ht & Hv & Hi & Ha) (H1 & H2 & H3 & H4). unfold missInv.
  rewrite <- Ht, <- Hv. split_and!; auto.
Qed.

(** Being entailed invariant is never gained along [extW]. *)
Lemma PInv_permW y z v : extW y z → PInv z v → PInv y v.
Proof using Hrank.
  intros [Hk He] H.
  induction H as [v Hh|v Hm Hc|v o Hm Hc Ho IH|v opc a b Hm Hg Ha IHa Hb IHb].
  - destruct (decide (canon v ∈ _invariantValues y)); [by apply pi_hit|].
    apply (PInv_of_canon g rank Hrank). by apply He.
  - apply pi_const; [by eapply missInv_keeps|done].
  - eapply pi_unary; [by eapply missInv_keeps|done|done].
  - eapply pi_binary; [by eapply missInv_keeps|done|done|done].
Qed.

Lemma extW_refl s : extW s s.
Proof. split; [apply keeps_refl|done]. Qed.

Lemma extW_trans x y z : extW x y → extW y z → extW x z.
Proof using Hrank.
  intros Hxy Hyz. pose proof Hxy as [Hk1 Hn1]. pose proof Hyz as [Hk2 Hn2].
  split; [by eapply keeps_trans|].
  intros w Hw Hnw. destruct (decide (w ∈ _invariantValues y)); [auto|].
  eapply PInv_permW; [done|]. auto.
Qed.

Lemma extI_extW y z : extI y z → extW y z.
Proof.
  intros (Ht & Hv & Ha & Hi & Hn). split; [|done].
  unfold keeps. split_and!; try done. by rewrite Ha.
Qed.

Lemma extW_setAff s s2 x : extW s s2 → extW s (setAff s2 x).
Proof.
  intros [Hk Hn]. split; [|done].
  eapply keeps_trans; [done|]. apply keeps_setAff.
Qed.

Lemma InvEval_extW s v b s' : InvEval s v b s' → extW s s'.
Proof using Hrank.
  intros H. apply extI_extW. by apply (InvEval_PInv g rank Hrank) in H as [? _].
Qed.

Lemma AffEval_extW_mut :
  (∀ s v r s', AffEval s v r s' → extW s s') ∧
  (∀ s x y r s', AffTest s x y r s' → extW s s').
Proof using Hrank.
  apply (AffEval_AffTest_ind g rank
    (λ s v r s' _, extW s s') (λ s x y r s' _, extW s s'));
    try (intros; apply extW_refl).
  - intros s v _ _. apply extW_setAff, extW_refl.
  - intros s v a b s2 _ _ _ _ IH. by apply extW_setAff.
  - intros s v a b s2 s4 _ _ _ _ IH1 _ IH2.
    apply extW_setAff. by eapply extW_trans.
  - intros s v a b s2 s4 _ _ _ _ IH1 _ IH2. by eapply extW_trans.
  - intros s x y s1 _ IH. done.
  - intros s x y s1 r s2 _ IH HI.
    eapply extW_trans; [done|]. by eapply InvEval_extW.
Qed.

Lemma query_step_extW s s' : query_step g s s' → extW s s'.
Proof using Hrank.
  intros [fuel v b H|fuel v b H].
  - eapply InvEval_extW. by eapply isThreadInvariant_sound.
  - eapply (proj1 AffEval_extW_mut). by eapply isAffine_sound.
Qed.

Lemma reachable_extW s s' : reachable g s s' → extW s s'.
Proof using Hrank.
  induction 1 as [s|s1 s2 s3 Hstep _ IH]; [apply extW_refl|].
  eapply extW_trans; [by apply query_step_extW|done].
Qed.

(** A value that has [t] in its operand graph keeps it there when the casts
    that [_walk] strips are removed. *)
Lemma below_canon t v :
  isTransparent (g t) = false → below g v t → below g (canon v) t.
Proof using Hrank.
  intros Ht. induction 1 as [v|v o x Ho Hb IH].
  - rewrite (canon_stop g rank v Ht). apply below_refl.
  - destruct (isTransparent (g v)) eqn:Hv.
    + destruct (g v) as [| |opc si di o'| | | |] eqn:Hg; try done.
      simpl in Ho. apply list_elem_of_singleton in Ho as ->.
      rewrite (canon_step g rank Hrank v opc si di o' Hg Hv). by apply IH.
    + rewrite (canon_stop g rank v Hv). by eapply below_step.
Qed.

(** What the store entails invariant does not depend on a recorded thread
    index, as long as no cached invariant value does. *)
Lemma PInv_not_below t s v :
  t ∈ _threadIds s → isTransparent (g t) = false → indexFree g t s →
  PInv s v → ¬ below g v t.
Proof using Hrank.
  intros Ht Htr Hfree H.
  induction H as [v Hh|v Hm Hc|v o Hm Hc Ho IH|v opc a b Hm Hg Ha IHa Hb IHb];
    intros Hbel; apply (below_canon t v Htr) in Hbel.
  - by apply (Hfree (canon v)).
  - destruct Hm as (_ & _ & _ & Hnt).
    inversion Hbel as [|? o' ? Ho' Hb']; subst; [congruence|].
    destruct (g (canon v)); try done; by apply elem_of_nil in Ho'.
  - destruct Hm as (_ & _ & _ & Hnt).
    inversion Hbel as [|? o' ? Ho' Hb']; subst; [congruence|].
    destruct (g (canon v)); try done; simpl in Hc, Ho';
      apply list_elem_of_singleton in Ho'; congruence.
  - destruct Hm as (_ & _ & _ & Hnt).
    inversion Hbel as [|? o' ? Ho' Hb']; subst; [congruence|].
    rewrite Hg in Ho'. simpl in Ho'.
    apply elem_of_cons in Ho' as [->|Ho']; [done|].
    apply list_elem_of_singleton in Ho' as ->. done.
Qed.

Lemma indexFree_extW t s s' :
  t ∈ _threadIds s → isTransparent (g t) = false →
  extW s s' → indexFree g t s → indexFree g t s'.
Proof using Hrank.
  intros Ht Htr [_ Hn] Hfree x Hx.
  destruct (decide (x ∈ _invariantValues s)); [by apply Hfree|].
  apply (PInv_not_below t s x); auto.
Qed.

End Permanence.

(** X13. On a ranked graph, once [isThreadInvariant] has answered [false]
    for a value, it answers [false] for it in every store that later queries
    of either kind reach. *)
Theorem variant_answer_is_permanent (g : Graph) (rank : Value → nat)
    (fuel : nat) (s s1 s2 : AffineInstructionSet) (v : Value) :
  ranked g rank → rank v < fuel →
  isThreadInvariant g fuel s v = Some (false, s1) → reachable g s1 s2 →
  ∃ s3, isThreadInvariant g fuel s2 v = Some (false, s3).
Proof.
  intros Hrank Hf H1 Hr.
  apply (isThreadInvariant_sound g rank Hrank) in H1.
  pose proof (InvEval_extW g rank Hrank _ _ _ _ H1) as He1.
  apply (InvEval_PInv g rank Hrank) in H1 as [_ Hb].
  pose proof (extW_trans g rank Hrank _ _ _ He1 (reachable_extW g rank Hrank _ _ Hr))
    as He.
  destruct (isThreadInvariant_total g rank Hrank fuel s2 v Hf) as (b & s3 & H2).
  exists s3. rewrite H2.
  apply (isThreadInvariant_sound g rank Hrank) in H2.
  apply (InvEval_PInv g rank Hrank) in H2 as [_ Hb2].
  destruct b; [|done]. exfalso.
  assert (PInv g rank s v) as HP.
  { eapply PInv_permW; [done|done|]. by apply Hb2. }
  apply Hb in HP. done.
Qed.

Lemma variant_answer_is_permanent_witness :
  ∃ s3, isThreadInvariant sum_graph 8 (mkStore {[1; 3; 4]} {[2; 7]} ∅ {[0]}) 6
        = Some (false, s3).
Proof.
  eapply (variant_answer_is_permanent sum_graph (λ v, v) 8
            (mkStore ∅ ∅ ∅ {[0]}) _ _ 6).
  - exact sum_graph_ranked.
  - simpl. lia.
  - vm_compute. reflexivity.
  - eapply rtc_l; [apply (step_isAffine _ _ _ 8 7 true); vm_compute; reflexivity|].
    apply rtc_refl.
Defined.

(** X14. On a ranked graph, when no value of the invariant set has the
    recorded thread index in its operand graph, this stays so in every store
    that queries reach, and there [isThreadInvariant] answers [false] for
    every value that has the thread index in its operand graph. *)
Theorem index_dependent_values_are_not_invariant (g : Graph)
    (rank : Value → nat) (t : Value) (s0 s : AffineInstructionSet)
    (fuel : nat) (v : Value) :
  ranked g rank → t ∈ _threadIds s0 → isTransparent (g t) = false →
  (∀ x, x ∈ _invariantValues s0 → ¬ below g x t) →
  reachable g s0 s → below g v t → rank v < fuel →
  (∀ x, x ∈ _invariantValues s → ¬ below g x t) ∧
  ∃ s', isThreadInvariant g fuel s v = Some (false, s').
Proof.
  intros Hrank Ht Htr Hfree Hr Hbel Hf.
  pose proof (reachable_extW g rank Hrank _ _ Hr) as He.
  pose proof (indexFree_extW g rank Hrank t s0 s Ht Htr He Hfree) as Hfree'.
  split; [done|].
  assert (t ∈ _threadIds s) as Hts.
  { destruct He as [(Hts & _) _]. by rewrite Hts. }
  destruct (isThreadInvariant_total g rank Hrank fuel s v Hf) as (b & s' & H).
  exists s'. rewrite H.
  apply (isThreadInvariant_sound g rank Hrank) in H.
  apply (InvEval_PInv g rank Hrank) in H as [_ Hb].
  destruct b; [|done]. exfalso.
  apply (PInv_not_below g rank Hrank t s v); auto. by apply Hb.
Qed.

Lemma index_dependent_values_are_not_invariant_witness :
  (∀ x, x ∈ _invariantValues (mkStore {[1]} ∅ ∅ {[0]}) →
        ¬ below dependent_graph x 0) ∧
  ∃ s', isThreadInvariant dependent_graph 6 (mkStore {[1]} ∅ ∅ {[0]}) 5
        = Some (false, s').
Proof.
  apply (index_dependent_values_are_not_invariant dependent_graph (λ v, v) 0
           (mkStore ∅ ∅ ∅ {[0]})).
  - apply graph_of_ranked. reflexivity.
  - apply (bool_decide_unpack _). vm_compute. exact I.
  - reflexivity.
  - intros x Hx. by apply elem_of_empty in Hx.
  - eapply rtc_l;
      [apply (step_isThreadInvariant _ _ _ 6 3 false); vm_compute; reflexivity|].
    apply rtc_refl.
  - apply (below_step _ 5 4); [by left|].
    apply (below_step _ 4 3); [by left|].
    apply (below_step _ 3 2); [by left|].
    apply (below_step _ 2 0); [by left|]. apply below_refl.
  - simpl. lia.
Defined.

(** X15. The thread index itself.  After a construction that records the
    value of [threadId_x], when that value is neither a cast that [_walk]
    strips nor a binary operator and no seeded value has it in its operand
    graph, then, on a ranked graph and in every store that queries reach,
    both [isThreadInvariant] and [isAffine] answer [false] for it and leave
    the store unchanged. *)
Theorem thread_index_is_not_affine (g : Graph) (rank : Value → nat)
    (tables : VarianceTables) (globals : list Value)
    (threadArguments : ThreadLocalArgument) (s0 s : AffineInstructionSet)
    (fuel : nat) (v : Value) :
  ranked g rank →
  AffineInstructionSet_ctor tables globals threadArguments = Some s0 →
  threadIdUses threadArguments = 1%Z →
  isTransparent (g (member threadArguments threadId_x)) = false →
  isBinary (g (member threadArguments threadId_x)) = false →
  (∀ x, x ∈ _invariantValues s0 →
        ¬ below g x (member threadArguments threadId_x)) →
  reachable g s0 s →
  _walk g fuel v = Some (member threadArguments threadId_x) →
  isThreadInvariant g fuel s v = Some (false, s) ∧
  isAffine g fuel s v = Some (false, s).
Proof.
  intros Hrank Hctor Hu Htr Hbin Hfree Hr Hw.
  set (t := member threadArguments threadId_x) in *.
  apply ctor_sets in Hctor as (Ha0 & Hv0 & Ht0 & _).
  rewrite decide_True in Ht0 by done.
  assert (t ∈ _threadIds s0) as Ht by (rewrite Ht0; by apply elem_of_singleton).
  pose proof (reachable_extW g rank Hrank _ _ Hr) as He.
  pose proof (indexFree_extW g rank Hrank t s0 s Ht Htr He Hfree) as Hfree'.
  destruct He as [(Hts & Hvs & _ & _) _].
  assert (t ∉ _invariantValues s) as Hni.
  { intros Hin. apply (Hfree' t Hin). apply below_refl. }
  assert (t ∉ _affineValues s) as Hna.
  { intros Hin. destruct (reachable_affineShape g s0 s Hr t Hin) as [Hin0|Hsh].
    - rewrite Ha0 in Hin0. by apply elem_of_empty in Hin0.
    - apply affineShape_binary in Hsh. congruence. }
  assert (t ∉ _variantValues s) as Hnv.
  { rewrite Hvs, Hv0. apply not_elem_of_empty. }
  assert (t ∈ _threadIds s) as Hts' by (by rewrite Hts).
  destruct fuel as [|fuel]; [done|]. split.
  - cbn [isThreadInvariant]. rewrite Hw.
    rewrite !decide_False by done. by rewrite decide_True.
  - cbn [isAffine]. rewrite Hw. rewrite !decide_False by done.
    by destruct (g t).
Qed.

Lemma thread_index_is_not_affine_witness :
  isThreadInvariant sum_graph 1
    (mkStore {[3; 4; 103; 104; 105; 106; 107; 108; 109; 110; 111]} {[2; 7]} ∅ {[0]})
    0
  = Some (false,
      mkStore {[3; 4; 103; 104; 105; 106; 107; 108; 109; 110; 111]}
              {[2; 7]} ∅ {[0]}) ∧
  isAffine sum_graph 1
    (mkStore {[3; 4; 103; 104; 105; 106; 107; 108; 109; 110; 111]} {[2; 7]} ∅ {[0]})
    0
  = Some (false,
      mkStore {[3; 4; 103; 104; 105; 106; 107; 108; 109; 110; 111]}
              {[2; 7]} ∅ {[0]}).
Proof.
  apply (thread_index_is_not_affine sum_graph (λ v, v) example_tables []
           (referencing (members_with_index 0) [threadId_x])
           (mkStore {[103; 104; 105; 106; 107; 108; 109; 110; 111]} ∅ ∅ {[0]})
           _ 1 0).
  - exact sum_graph_ranked.
  - vm_compute. reflexivity.
  - reflexivity.
  - reflexivity.
  - reflexivity.
  - intros x Hx Hb. inversion Hb as [|? o' ? Ho' Hb']; subst.
    + revert Hx. apply (bool_decide_unpack _). vm_compute. exact I.
    + simpl in Hx. set_unfold in Hx. destruct_or!; subst; by apply elem_of_nil in Ho'.
  - eapply rtc_l; [apply (step_isAffine _ _ _ 4 7 true); vm_compute; reflexivity|].
    apply rtc_refl.
  - reflexivity.
Defined.

(** ** What the answers mean *)

Section Meaning.
Variable g : Graph.
Variable rank : Value → nat.
Hypothesis Hrank : ranked g rank.

Local Abbreviation canon := (canon g rank).
Local Abbreviation PInv := (PInv g rank).
Local Abbreviation PAff := (PAff g rank).
Local Abbreviation ext := (ext g rank).

Lemma invariantExpr_of_walk I T fuel v n :
  (∀ x, x ∈ T → isTransparent (g x) = false) →
  _walk g fuel v = Some n → invariantExpr g I T n → invariantExpr g I T v.
Proof.
  intros HT. revert v. induction fuel as [|fuel IH]; intros v; [done|].
  simpl. destruct (g v) as [| |opc si di o| | | |] eqn:Hg;
    try (by intros [= ->]).
  destruct (isTransparentCast opc si di) eqn:Htr; [|by intros [= ->]].
  intros Hw Hn. apply (ix_unary g I T v o); [| |by apply IH].
  - intros Hin. apply HT in Hin. rewrite Hg in Hin. simpl in Hin. congruence.
  - by rewrite Hg.
Qed.

Lemma affineExpr_of_walk I T fuel v n :
  _walk g fuel v = Some n → affineExpr g I T n → affineExpr g I T v.
Proof.
  revert v. induction fuel as [|fuel IH]; intros v; [done|].
  simpl. destruct (g v) as [| |opc si di o| | | |] eqn:Hg;
    try (by intros [= ->]).
  destruct (isTransparentCast opc si di) eqn:Htr; [|by intros [= ->]].
  intros Hw Hn. apply (ax_cast g I T v opc si di o); [done|done|by apply IH].
Qed.

Lemma invariantExpr_of_canon I T v :
  (∀ x, x ∈ T → isTransparent (g x) = false) →
  invariantExpr g I T (canon v) → invariantExpr g I T v.
Proof using Hrank.
  intros HT. apply (invariantExpr_of_walk I T (S (rank v))); [done|].
  apply (walk_is_canon g rank Hrank). lia.
Qed.

Lemma affineExpr_of_canon I T v :
  affineExpr g I T (canon v) → affineExpr g I T v.
Proof using Hrank.
  apply (affineExpr_of_walk I T (S (rank v))).
  apply (walk_is_canon g rank Hrank). lia.
Qed.

Lemma PInv_invariantExpr s v :
  (∀ x, x ∈ _threadIds s → isTransparent (g x) = false) →
  PInv s v → invariantExpr g (_invariantValues s) (_threadIds s) v.
Proof using Hrank.
  intros HT H.
  induction H as [v Hh|v Hm Hc|v o Hm Hc Ho IH|v opc a b Hm Hg Ha IHa Hb IHb];
    apply invariantExpr_of_canon; try done.
  - by apply ix_cached.
  - destruct Hm as (_ & _ & _ & ?). by apply ix_const.
  - destruct Hm as (_ & _ & _ & ?). by eapply ix_unary.
  - destruct Hm as (_ & _ & _ & ?). by eapply ix_binary.
Qed.

Lemma invariantExpr_PInv s v :
  _affineValues s = ∅ → _variantValues s = ∅ →
  (∀ x, x ∈ _invariantValues s → isTransparent (g x) = false) →
  invariantExpr g (_invariantValues s) (_threadIds s) v → PInv s v.
Proof using Hrank.
  intros Ha Hv HI H.
  assert (∀ n, n ∉ _invariantValues s → n ∉ _threadIds s → missInv s n) as Hmiss.
  { intros n ? ?. unfold missInv. rewrite Ha, Hv.
    split_and!; try done; apply not_elem_of_empty. }
  induction H as [v Hin|v Hnt Hc|v o Hnt Hc Ho IH|v opc a b Hnt Hg Hxa IHa Hxb IHb].
  - apply pi_hit. by rewrite (canon_stop g rank v (HI v Hin)).
  - assert (canon v = v) as Hcv.
    { apply canon_stop. by destruct (g v). }
    destruct (decide (v ∈ _invariantValues s)) as [Hin|Hin].
    + apply pi_hit. by rewrite Hcv.
    + apply pi_const; rewrite Hcv; auto.
  - destruct (isTransparent (g v)) eqn:Htr.
    + destruct (g v) as [| |opc si di o'| | | |] eqn:Hg; try done.
      simpl in Hc. injection Hc as ->.
      apply (PInv_same_canon g rank s o v); [|done].
      symmetry. by apply (canon_step g rank Hrank v opc si di o).
    + pose proof (canon_stop g rank v Htr) as Hcv.
      destruct (decide (v ∈ _invariantValues s)) as [Hin|Hin].
      * apply pi_hit. by rewrite Hcv.
      * apply (pi_unary g rank s v o); rewrite ?Hcv; auto.
  - assert (canon v = v) as Hcv.
    { apply canon_stop. by rewrite Hg. }
    destruct (decide (v ∈ _invariantValues s)) as [Hin|Hin].
    + apply pi_hit. by rewrite Hcv.
    + apply (pi_binary g rank s v opc a b); rewrite ?Hcv; auto.
Qed.

Lemma PAff_affineExpr s v :
  _affineValues s = ∅ →
  (∀ x, x ∈ _threadIds s → isTransparent (g x) = false) →
  PAff s v → affineExpr g (_invariantValues s) (_threadIds s) v.
Proof using Hrank.
  intros Ha HT H.
  induction H as [v Hh|v Hh|v Hnv Hi|v a b Hnv Hg Hpa IH Hpb|v a b Hnv Hg Hpb IH Hpa];
    apply affineExpr_of_canon.
  - by apply ax_invariant, ix_cached.
  - rewrite Ha in Hh. by apply elem_of_empty in Hh.
  - unfold idiomMatch in Hi.
    destruct (g (canon v)) as [| | | | |opc a b|] eqn:Hg; try done.
    destruct (decide (canon a ∈ _threadIds s)) as [Hta|Hta].
    + apply (ax_scale_left g _ _ (canon v) opc a b (S (rank a)) (canon a));
        [done| |done|done].
      apply (walk_is_canon g rank Hrank). lia.
    + destruct (decide (canon b ∈ _threadIds s)) as [Htb|Htb]; [|done].
      apply (ax_scale_right g _ _ (canon v) opc a b (S (rank b)) (canon b));
        [done| |done|done].
      apply (walk_is_canon g rank Hrank). lia.
  - apply (ax_add_left g _ _ (canon v) a b); [done|done|].
    by apply PInv_invariantExpr.
  - apply (ax_add_right g _ _ (canon v) a b); [done|done|].
    by apply PInv_invariantExpr.
Qed.

Lemma PAff_PInv_without_index s v :
  _affineValues s = ∅ → _variantValues s = ∅ → _threadIds s = ∅ →
  PAff s v → PInv s v.
Proof.
  intros Ha Hv Ht H.
  assert (∀ n, n ∉ _invariantValues s → missInv s n) as Hmiss.
  { intros n ?. unfold missInv. rewrite Ha, Hv, Ht.
    split_and!; try done; apply not_elem_of_empty. }
  induction H as [v Hh|v Hh|v Hnv Hi|v a b Hnv Hg Hpa IH Hpb|v a b Hnv Hg Hpb IH Hpa].
  - by apply pi_hit.
  - rewrite Ha in Hh. by apply elem_of_empty in Hh.
  - exfalso. unfold idiomMatch in Hi. rewrite Ht in Hi.
    destruct (g (canon v)); done.
  - destruct (decide (canon v ∈ _invariantValues s)); [by apply pi_hit|].
    apply (pi_binary g rank s v Add a b); auto.
  - destruct (decide (canon v ∈ _invariantValues s)); [by apply pi_hit|].
    apply (pi_binary g rank s v Add a b); auto.
Qed.

Lemma query_step_ext s s' :
  threadIds_not_binary g s → query_step g s s' → ext s s'.
Proof using Hrank.
  intros Htid [fuel v b H|fuel v b H].
  - apply extI_ext. apply (isThreadInvariant_sound g rank Hrank) in H.
    by apply (InvEval_PInv g rank Hrank) in H as [? _].
  - apply (isAffine_sound g rank Hrank) in H.
    by apply (AffEval_facts g rank Hrank) in H as [? _].
Qed.

Lemma reachable_ext s s' :
  threadIds_not_binary g s → reachable g s s' → ext s s'.
Proof using Hrank.
  intros Htid Hr. induction Hr as [s|s1 s2 s3 Hstep _ IH]; [apply ext_refl|].
  pose proof (query_step_ext s1 s2 Htid Hstep) as He.
  apply (ext_trans g rank Hrank s1 s2 s3); [done|done|].
  apply IH. by eapply threadIds_not_binary_ext.
Qed.

End Meaning.

(** X16. What [isThreadInvariant] computes.  On a ranked graph, in a store
    whose affine and variant sets are empty and whose invariant values and
    thread indices are not casts that [_walk] strips (as after a
    construction), it answers [true] exactly for the invariant expressions:
    what casts, loads and binary operators build from constants and the
    cached invariant values without passing through a thread index. *)
Theorem isThreadInvariant_decides_invariantExpr (g : Graph)
    (rank : Value → nat) (fuel : nat) (s : AffineInstructionSet) (v : Value) :
  ranked g rank → rank v < fuel →
  _affineValues s = ∅ → _variantValues s = ∅ →
  (∀ x, x ∈ _invariantValues s ∨ x ∈ _threadIds s →
        isTransparent (g x) = false) →
  ∃ b s', isThreadInvariant g fuel s v = Some (b, s') ∧
          (b = true ↔ invariantExpr g (_invariantValues s) (_threadIds s) v).
Proof.
  intros Hrank Hf Ha Hv Htr.
  destruct (isThreadInvariant_total g rank Hrank fuel s v Hf) as (b & s' & H).
  exists b, s'. split; [done|].
  apply (isThreadInvariant_sound g rank Hrank) in H.
  apply (InvEval_PInv g rank Hrank) in H as [_ ->]. split.
  - apply PInv_invariantExpr; auto.
  - apply invariantExpr_PInv; auto.
Qed.

Lemma isThreadInvariant_decides_invariantExpr_witness :
  ∃ b s', isThreadInvariant sum_graph 8 (mkStore {[3]} ∅ ∅ {[0]}) 6
          = Some (b, s') ∧
          (b = true ↔ invariantExpr sum_graph
                        (_invariantValues (mkStore {[3]} ∅ ∅ {[0]}))
                        (_threadIds (mkStore {[3]} ∅ ∅ {[0]})) 6).
Proof.
  apply (isThreadInvariant_decides_invariantExpr sum_graph (λ v, v) 8
           (mkStore {[3]} ∅ ∅ {[0]}) 6).
  - exact sum_graph_ranked.
  - simpl. lia.
  - reflexivity.
  - reflexivity.
  - simpl. intros x [->%elem_of_singleton| ->%elem_of_singleton]; reflexivity.
Defined.

(** X17. On a ranked graph, in any store [s] that queries of either kind
    have reached from [s0], every value of the invariant set, and every
    value that [isThreadInvariant] answers [true] for, is an invariant
    expression over the invariant values of [s0]: no sequence of queries
    makes a value invariant that depends on anything else. *)
Theorem invariant_answers_are_invariantExpr (g : Graph) (rank : Value → nat)
    (s0 s : AffineInstructionSet) :
  ranked g rank →
  (∀ x, x ∈ _threadIds s0 → isTransparent (g x) = false) →
  reachable g s0 s →
  (∀ x, x ∈ _invariantValues s →
        invariantExpr g (_invariantValues s0) (_threadIds s0) x) ∧
  (∀ fuel v s', isThreadInvariant g fuel s v = Some (true, s') →
        invariantExpr g (_invariantValues s0) (_threadIds s0) v).
Proof.
  intros Hrank HT Hr.
  pose proof (reachable_extW g rank Hrank _ _ Hr) as He. split.
  - intros x Hx. destruct (decide (x ∈ _invariantValues s0)) as [Hx0|Hx0].
    + by apply ix_cached.
    + apply (PInv_invariantExpr g rank Hrank); [done|]. by apply He.
  - intros fuel v s' H.
    apply (isThreadInvariant_sound g rank Hrank) in H.
    apply (InvEval_PInv g rank Hrank) in H as [_ Hb].
    apply (PInv_invariantExpr g rank Hrank); [done|].
    apply (PInv_permW g rank Hrank s0 s); [done|]. by apply Hb.
Qed.

Lemma invariant_answers_are_invariantExpr_witness :
  (∀ x, x ∈ _invariantValues (mkStore {[3; 4]} {[2]} ∅ {[0]}) →
        invariantExpr sum_graph (_invariantValues (mkStore ∅ ∅ ∅ {[0]}))
          (_threadIds (mkStore ∅ ∅ ∅ {[0]})) x) ∧
  (∀ fuel v s',
     isThreadInvariant sum_graph fuel (mkStore {[3; 4]} {[2]} ∅ {[0]}) v
       = Some (true, s') →
     invariantExpr sum_graph (_invariantValues (mkStore ∅ ∅ ∅ {[0]}))
       (_threadIds (mkStore ∅ ∅ ∅ {[0]})) v).
Proof.
  apply (invariant_answers_are_invariantExpr sum_graph (λ v, v)
           (mkStore ∅ ∅ ∅ {[0]})).
  - exact sum_graph_ranked.
  - simpl. intros x ->%elem_of_singleton. reflexivity.
  - eapply rtc_l; [apply (step_isAffine _ _ _ 3 2 true); vm_compute; reflexivity|].
    eapply rtc_l;
      [apply (step_isThreadInvariant _ _ _ 3 5 true); vm_compute; reflexivity|].
    apply rtc_refl.
Defined.

(** X18. On a ranked graph, from a store [s0] with an empty affine set whose
    thread indices are neither binary operators nor casts that [_walk]
    strips, in any store that queries have reached every value of the affine
    set, and every value that [isAffine] answers [true] for, is an affine
    expression over [s0]: an invariant expression, a thread index shifted by
    2 or multiplied by 4, or a sum of an affine and an invariant expression,
    possibly under casts that [_walk] strips. *)
Theorem affine_answers_are_affineExpr (g : Graph) (rank : Value → nat)
    (s0 s : AffineInstructionSet) :
  ranked g rank →
  _affineValues s0 = ∅ →
  (∀ x, x ∈ _threadIds s0 →
        isTransparent (g x) = false ∧ isBinary (g x) = false) →
  reachable g s0 s →
  (∀ x, x ∈ _affineValues s →
        affineExpr g (_invariantValues s0) (_threadIds s0) x) ∧
  (∀ fuel v s', isAffine g fuel s v = Some (true, s') →
        affineExpr g (_invariantValues s0) (_threadIds s0) v).
Proof.
  intros Hrank Ha HT Hr.
  assert (threadIds_not_binary g s0) as Htid.
  { intros x opc a b Hx Hg. apply HT in Hx as [_ Hb]. by rewrite Hg in Hb. }
  assert (∀ x, x ∈ _threadIds s0 → isTransparent (g x) = false) as HT'.
  { intros x Hx. by apply HT in Hx as [? _]. }
  pose proof (reachable_ext g rank Hrank s0 s Htid Hr) as He.
  assert (∀ x, PInv g rank s0 x ∨ PAff g rank s0 x →
               affineExpr g (_invariantValues s0) (_threadIds s0) x) as Hax.
  { intros x [HP|HP].
    - apply ax_invariant. by apply (PInv_invariantExpr g rank Hrank).
    - by apply (PAff_affineExpr g rank Hrank). }
  split.
  - intros x Hx. apply Hax.
    destruct He as (_ & _ & _ & _ & _ & Hn). apply Hn; [done|].
    rewrite Ha. apply not_elem_of_empty.
  - intros fuel v s' H.
    apply (isAffine_sound g rank Hrank) in H.
    apply (AffEval_facts g rank Hrank) in H as (_ & Hp & _);
      [|by eapply threadIds_not_binary_ext].
    apply Hax. by apply (PAff_perm g rank Hrank s0 s v Htid He (Hp eq_refl)).
Qed.

Lemma affine_answers_are_affineExpr_witness :
  (∀ x, x ∈ _affineValues (mkStore {[3; 4]} {[2; 7]} ∅ {[0]}) →
        affineExpr sum_graph (_invariantValues (mkStore ∅ ∅ ∅ {[0]}))
          (_threadIds (mkStore ∅ ∅ ∅ {[0]})) x) ∧
  (∀ fuel v s',
     isAffine sum_graph fuel (mkStore {[3; 4]} {[2; 7]} ∅ {[0]}) v
       = Some (true, s') →
     affineExpr sum_graph (_invariantValues (mkStore ∅ ∅ ∅ {[0]}))
       (_threadIds (mkStore ∅ ∅ ∅ {[0]})) v).
Proof.
  apply (affine_answers_are_affineExpr sum_graph (λ v, v)
           (mkStore ∅ ∅ ∅ {[0]})).
  - exact sum_graph_ranked.
  - reflexivity.
  - simpl. intros x ->%elem_of_singleton. split; reflexivity.
  - eapply rtc_l; [apply (step_isAffine _ _ _ 4 7 true); vm_compute; reflexivity|].
    apply rtc_refl.
Defined.

(** X19. Without a recorded thread index nothing is affine that is not
    invariant: after a construction with [threadIdUses] other than 1, on a
    ranked graph, whatever [isAffine] answers [true] for in a store that
    queries have reached, [isThreadInvariant] answers [true] for in the
    constructed store. *)
Theorem without_index_affine_is_invariant (g : Graph) (rank : Value → nat)
    (tables : VarianceTables) (globals : list Value)
    (threadArguments : ThreadLocalArgument) (s0 s s' : AffineInstructionSet)
    (fuel : nat) (v : Value) :
  ranked g rank → rank v < fuel →
  AffineInstructionSet_ctor tables globals threadArguments = Some s0 →
  threadIdUses threadArguments ≠ 1%Z →
  reachable g s0 s →
  isAffine g fuel s v = Some (true, s') →
  ∃ s1, isThreadInvariant g fuel s0 v = Some (true, s1).
Proof.
  intros Hrank Hf Hctor Hu Hr H.
  apply ctor_sets in Hctor as (Ha & Hv & Ht & _).
  rewrite decide_False in Ht by done.
  assert (threadIds_not_binary g s0) as Htid.
  { intros x opc a b Hx. rewrite Ht in Hx. by apply elem_of_empty in Hx. }
  pose proof (reachable_ext g rank Hrank s0 s Htid Hr) as He.
  apply (isAffine_sound g rank Hrank) in H.
  apply (AffEval_facts g rank Hrank) in H as (_ & Hp & _);
    [|by eapply threadIds_not_binary_ext].
  assert (PInv g rank s0 v) as HP.
  { destruct (PAff_perm g rank Hrank s0 s v Htid He (Hp eq_refl)) as [HP|HP];
      [done|]. by apply (PAff_PInv_without_index g rank). }
  destruct (isThreadInvariant_total g rank Hrank fuel s0 v Hf) as (b & s1 & H1).
  exists s1. rewrite H1.
  apply (isThreadInvariant_sound g rank Hrank) in H1.
  apply (InvEval_PInv g rank Hrank) in H1 as [_ Hb].
  apply Hb in HP. by subst b.
Qed.

Lemma without_index_affine_is_invariant_witness :
  ∃ s1, isThreadInvariant sum_graph 8
          (mkStore {[103; 104; 105; 106; 107; 108; 109; 110; 111]} ∅ ∅ ∅) 5
        = Some (true, s1).
Proof.
  eapply (without_index_affine_is_invariant sum_graph (λ v, v) example_tables []
            (referencing example_members [threadId_x; threadId_y]) _ _ _ 8 5).
  - exact sum_graph_ranked.
  - simpl. lia.
  - vm_compute. reflexivity.
  - vm_compute. discriminate.
  - eapply rtc_l;
      [apply (step_isThreadInvariant _ _ _ 8 3 true); vm_compute; reflexivity|].
    apply rtc_refl.
  - vm_compute. reflexivity.
Defined.

(** ** Invariance queries alone *)

Lemma invariance_steps_extI g rank s s' :
  ranked g rank → rtc (invariance_step g) s s' → extI g rank s s'.
Proof.
  intros Hrank. induction 1 as [s|s1 s2 s3 [fuel v b H] _ IH];
    [apply extI_refl|].
  apply (extI_trans g rank Hrank s1 s2 s3); [|done].
  apply (isThreadInvariant_sound g rank Hrank) in H.
  by apply (InvEval_PInv g rank Hrank) in H as [? _].
Qed.

(** X20. On a ranked graph, as long as only [isThreadInvariant] is asked,
    its answers do not change: after [isThreadInvariant(v)] has returned,
    and after any number of further calls of [isThreadInvariant] on any
    values, [isThreadInvariant(v)] returns the same answer and leaves the
    store unchanged. *)
Theorem invariance_answer_is_stable (g : Graph) (rank : Value → nat)
    (fuel : nat) (s s1 s2 : AffineInstructionSet) (v : Value) (b : bool) :
  ranked g rank → rank v < fuel →
  isThreadInvariant g fuel s v = Some (b, s1) →
  rtc (invariance_step g) s1 s2 →
  isThreadInvariant g fuel s2 v = Some (b, s2).
Proof.
  intros Hrank Hf H Hr.
  apply (isThreadInvariant_sound g rank Hrank) in H.
  apply (isThreadInvariant_complete g rank Hrank); [|done].
  apply (InvEval_again g rank Hrank s v b s1 H).
  by apply invariance_steps_extI.
Qed.

Lemma invariance_answer_is_stable_witness :
  isThreadInvariant sum_graph 8 (mkStore {[1; 3; 4]} ∅ ∅ {[0]}) 5
  = Some (true, mkStore {[1; 3; 4]} ∅ ∅ {[0]}).
Proof.
  eapply (invariance_answer_is_stable sum_graph (λ v, v) 8
            (mkStore ∅ ∅ ∅ {[0]}) _ _ 5 true).
  - exact sum_graph_ranked.
  - simpl. lia.
  - vm_compute. reflexivity.
  - eapply rtc_l; [apply (step_invariance _ _ _ 8 2 false); vm_compute; reflexivity|].
    apply rtc_refl.
Defined.

(** * Independence of the thread index, on any graph *)

Section IndexFree.
Variable g : Graph.
Variable t : Value.
Hypothesis Htr : isTransparent (g t) = false.






End IndexFree.

(** * The index-scaling idiom in the stores that queries reach *)






